(** * A shallow embedding of the yt-dlp UI server (server.mjs)

    The development follows the source file section by section: the
    JavaScript string and path primitives the handlers rely on, the helper
    functions ([safeBasename], [isValidYtId], ...), the job registry with
    [jobAppend] and [jobDone], the request handlers of [createAppServer],
    the callbacks installed on a spawned child process, the readers of the
    list and info routes, the start of the server ([parseArgs] and the
    search for a free port), and finally the properties.

    Conventions.  A JavaScript string is a [string] read as the sequence of
    its UTF-8 bytes; every character class the source tests is a class of
    ASCII characters, so a byte above 127 is never matched by any of them.
    The white space of [trim] is the one exception: it holds characters of
    two and three bytes, which [Js.trimStart] and [Js.trimEnd] recognise.
    An HTTP response object and a child process are identified by a number
    handed out by the runtime (object identity).  Exit codes are integers. *)

From Stdlib Require Import Ascii String ZArith QArith Qround Sorted.
From stdpp Require Import base gmap sets list strings pretty.

Local Open Scope string_scope.
Local Open Scope list_scope.
Local Open Scope nat_scope.

#[local] Set Warnings "-clear-no-such-hyp".

(** ** JavaScript string primitives *)

Module Js.

Definition LF : ascii := "010"%char.
Definition CR : ascii := "013"%char.

(** [Boolean(s)] for a string. *)
Definition truthy (s : string) : bool := negb (bool_decide (s = "")).

(** The white space that [trim] strips is the WhiteSpace and
    LineTerminator of ECMAScript.  Six of these characters are ASCII
    (U+0009 to U+000D and U+0020).  The others are recognised by their
    UTF-8 bytes: U+00A0 takes two bytes, and U+1680, U+2000 to U+200A,
    U+2028, U+2029, U+202F, U+205F, U+3000 and U+FEFF take three. *)
Definition space2 (a b : ascii) : bool :=
  (nat_of_ascii a =? 194) && (nat_of_ascii b =? 160).

Definition space3 (a b c : ascii) : bool :=
  let x := nat_of_ascii a in
  let y := nat_of_ascii b in
  let z := nat_of_ascii c in
  ((x =? 225) && (y =? 154) && (z =? 128))
  || ((x =? 226) && (y =? 128) &&
      (((128 <=? z) && (z <=? 138)) || (z =? 168) || (z =? 169) || (z =? 175)))
  || ((x =? 226) && (y =? 129) && (z =? 159))
  || ((x =? 227) && (y =? 128) && (z =? 128))
  || ((x =? 239) && (y =? 187) && (z =? 191)).

(** [s.trimStart()]: white-space characters are taken off the front, one,
    two or three bytes at a time. *)
Fixpoint trimStart (s : string) : string :=
  match s with
  | String a r =>
      if Ascii.is_space a then trimStart r
      else
        match r with
        | String b r1 =>
            if space2 a b then trimStart r1
            else
              match r1 with
              | String c r2 => if space3 a b c then trimStart r2 else s
              | "" => s
              end
        | "" => s
        end
  | "" => ""
  end.

(** The text consists of white-space characters only. *)
Fixpoint all_space (s : string) : bool :=
  match s with
  | String a r =>
      if Ascii.is_space a then all_space r
      else
        match r with
        | String b r1 =>
            if space2 a b then all_space r1
            else
              match r1 with
              | String c r2 => space3 a b c && all_space r2
              | "" => false
              end
        | "" => false
        end
  | "" => true
  end.

(** [s.trimEnd()]: the text is cut where the rest is white space only. *)
Fixpoint trimEnd (s : string) : string :=
  match s with
  | String a r => if all_space s then "" else String a (trimEnd r)
  | "" => ""
  end.

(** [s.trim()]. *)
Definition trim (s : string) : string := trimEnd (trimStart s).

(** [s.split(/\r?\n/)]: the regular expression is tried at every position
    from the left; at a carriage return followed by a line feed it consumes
    both, at a line feed it consumes one character.  The result always has
    at least one element. *)
Fixpoint split_lines (s : string) : list string :=
  match s with
  | "" => [""]
  | String c rest =>
      let keep :=
        match split_lines rest with
        | l :: ls => String c l :: ls
        | [] => [String c ""]
        end in
      if bool_decide (c = LF) then "" :: split_lines rest
      else if bool_decide (c = CR) then
        match rest with
        | String c' rest' =>
            if bool_decide (c' = LF) then "" :: split_lines rest' else keep
        | "" => keep
        end
      else keep
  end.

(** [xs.filter(Boolean)] on an array of strings. *)
Definition filter_Boolean (xs : list string) : list string :=
  filter (λ s, s ≠ "") xs.

(** [xs.join(sep)]. *)
Fixpoint join (sep : string) (xs : list string) : string :=
  match xs with
  | [] => ""
  | [x] => x
  | x :: xs' => x +:+ sep +:+ join sep xs'
  end.

(** [s.startsWith(p)] and [s.includes(p)]. *)
Fixpoint startsWith (p s : string) : bool :=
  match p, s with
  | "", _ => true
  | String a p', String b s' => bool_decide (a = b) && startsWith p' s'
  | String _ _, "" => false
  end.

Fixpoint includes (p s : string) : bool :=
  startsWith p s ||
  match s with
  | "" => false
  | String _ s' => includes p s'
  end.

(** [s.replace(/[class]/g, by)] for a one-character replacement. *)
Fixpoint replace_class (cls : ascii → bool) (by_ : ascii) (s : string) : string :=
  match s with
  | "" => ""
  | String c s' => String (if cls c then by_ else c) (replace_class cls by_ s')
  end.

Fixpoint all_chars (cls : ascii → bool) (s : string) : bool :=
  match s with
  | "" => true
  | String c s' => cls c && all_chars cls s'
  end.

End Js.

(** ** Node's [path] module (POSIX flavour) *)

Module path.

Definition SEP : ascii := "/"%char.

(** The pieces of a path between separators. *)
Fixpoint segments (p : string) : list string :=
  match p with
  | "" => [""]
  | String c rest =>
      if bool_decide (c = SEP) then "" :: segments rest
      else match segments rest with
           | s :: ss => String c s :: ss
           | [] => [String c ""]
           end
  end.

(** [normalizeString]: resolves [.] and [..] segments.  [res] is the stack
    of segments kept so far, innermost first. *)
Fixpoint normalizeSegments (allowAboveRoot : bool) (res : list string)
    (segs : list string) : list string :=
  match segs with
  | [] => reverse res
  | seg :: segs' =>
      if bool_decide (seg = "") || bool_decide (seg = ".") then
        normalizeSegments allowAboveRoot res segs'
      else if bool_decide (seg = "..") then
        match res with
        | last :: res' =>
            if bool_decide (last = "..") then
              normalizeSegments allowAboveRoot
                (if allowAboveRoot then ".." :: res else res) segs'
            else normalizeSegments allowAboveRoot res' segs'
        | [] =>
            normalizeSegments allowAboveRoot
              (if allowAboveRoot then [".."] else []) segs'
        end
      else normalizeSegments allowAboveRoot (seg :: res) segs'
  end.

Definition isAbsolute (p : string) : bool :=
  match p with String c _ => bool_decide (c = SEP) | "" => false end.

Definition endsWithSep (p : string) : bool :=
  match String.rev p with String c _ => bool_decide (c = SEP) | "" => false end.

(** [path.normalize(p)]. *)
Definition normalize (p : string) : string :=
  if bool_decide (p = "") then "."
  else
    let abs := isAbsolute p in
    let trailing := endsWithSep p in
    let body := Js.join "/" (normalizeSegments (negb abs) [] (segments p)) in
    if bool_decide (body = "") then
      if abs then "/" else if trailing then "./" else "."
    else
      let body' := if trailing then body +:+ "/" else body in
      if abs then "/" +:+ body' else body'.

(** [path.join(...parts)]: the non-empty parts are glued with the
    separator and the result is normalised. *)
Definition join (parts : list string) : string :=
  let joined := Js.join "/" (Js.filter_Boolean parts) in
  if bool_decide (joined = "") then "." else normalize joined.

(** [path.basename(p)]: the scan runs from the end of the path; the
    separators that end the path are skipped, then characters are taken
    up to the previous separator. *)
Fixpoint basename_scan (matchedSlash : bool) (rev_path acc : string) : string :=
  match rev_path with
  | "" => acc
  | String c r =>
      if bool_decide (c = SEP) then
        if matchedSlash then basename_scan true r acc else acc
      else basename_scan false r (String c acc)
  end.

Definition basename (p : string) : string :=
  basename_scan true (String.rev p) "".

End path.

(** ** Helper functions of the server *)

(** A value taken from a parsed JSON document, as far as the handlers
    tell values apart: [typeof v === "string"] or not. *)
Inductive JsValue :=
| VString (s : string)
| VOther.

(** A JavaScript number, as far as the download handler tells numbers
    apart. *)
Inductive JsNumber :=
| NaN
| Infinity (negative : bool)
| Finite (q : Q).

Definition DQUOTE : ascii := ascii_of_nat 34.
Definition BACKSLASH : ascii := ascii_of_nat 92.

(** The character class of the sanitising expression: the angle brackets,
    the colon, the double quote, both slashes, the bar, the question mark,
    the star and the control characters 0 to 31. *)
Definition unsafe_char (c : ascii) : bool :=
  (nat_of_ascii c <=? 31) ||
  bool_decide (c ∈ ["<"; ">"; ":"; DQUOTE; "/"; BACKSLASH; "|"; "?"; "*"]%char).

Definition safeBasename (name : string) : string :=
  Js.replace_class unsafe_char "_"%char (path.basename name).

(** The character class [[a-zA-Z0-9_-]]. *)
Definition yt_id_char (c : ascii) : bool :=
  let n := nat_of_ascii c in
  ((97 <=? n) && (n <=? 122)) || ((65 <=? n) && (n <=? 90)) ||
  ((48 <=? n) && (n <=? 57)) || bool_decide (c = "_"%char) ||
  bool_decide (c = "-"%char).

Definition isValidYtId (id : JsValue) : bool :=
  match id with
  | VString s => bool_decide (String.length s = 11) && Js.all_chars yt_id_char s
  | VOther => false
  end.

(** The identifiers that passed [isValidYtId] are strings. *)
Definition id_text (id : JsValue) : string :=
  match id with VString s => s | VOther => "" end.

Definition buildVideoUrlFromId (id : string) : string :=
  "https://www.youtube.com/watch?v=" +:+ id.

(** [encodeURIComponent]: the unreserved characters stay, every other byte
    becomes a percent sign and two upper-case hexadecimal digits. *)
Definition uri_unreserved (c : ascii) : bool :=
  let n := nat_of_ascii c in
  ((97 <=? n) && (n <=? 122)) || ((65 <=? n) && (n <=? 90)) ||
  ((48 <=? n) && (n <=? 57)) ||
  bool_decide (c ∈ ["-"; "_"; "."; "!"; "~"; "*"; "'"; "("; ")"]%char).

Definition hex_digit (n : nat) : ascii :=
  if n <? 10 then ascii_of_nat (48 + n) else ascii_of_nat (55 + n).

Fixpoint encodeURIComponent (s : string) : string :=
  match s with
  | "" => ""
  | String c s' =>
      if uri_unreserved c then String c (encodeURIComponent s')
      else
        let n := nat_of_ascii c in
        String "%" (String (hex_digit (n / 16)) (String (hex_digit (n mod 16))
          (encodeURIComponent s')))
  end.

(** ** The job registry *)

(** A frame written by [sseSend]: the event name with its payload. *)
Inductive SseEvent :=
| LogEvent (line : string)
| DoneEvent (exitCode : Z).

Global Instance SseEvent_eq_dec : EqDecision SseEvent.
Proof. solve_decision. Defined.

(** An entry of the [jobs] map.  [sseClients] holds the response objects of
    the attached listeners; [done] is absent while the job runs. *)
Record Job := mkJob {
  job_id : string;
  createdAt : N;
  lines : list string;
  sseClients : gset nat;
  done : option Z;
  downloadsDir : option string;
}.

(** A node of the file system, looked up by its normalised path. *)
Inductive FsNode :=
| FsFile (content : string)
| FsDir.

(** The handlers installed on a spawned child close over the job id and the
    path of the temporary id list. *)
Record Child := mkChild {
  child_jobId : string;
  child_tmpListPath : option string;
}.

(** The state the closures of [createAppServer] share: the [jobs] map, the
    frames written so far to every event-stream response, the responses
    that were ended, the file system, the children whose handlers are
    installed, and the identity of the next response object. *)
Record Server := mkServer {
  jobs : gmap string Job;
  sse : gmap nat (list SseEvent);
  ended : gset nat;
  files : gmap string FsNode;
  children : list Child;
  next_res : nat;
}.

Definition initial : Server :=
  {| jobs := ∅; sse := ∅; ended := ∅; files := ∅; children := []; next_res := 0 |}.

Definition with_jobs (f : gmap string Job → gmap string Job) (s : Server) : Server :=
  {| jobs := f (jobs s); sse := sse s; ended := ended s; files := files s;
     children := children s; next_res := next_res s |}.

Definition with_sse (f : gmap nat (list SseEvent) → gmap nat (list SseEvent))
    (s : Server) : Server :=
  {| jobs := jobs s; sse := f (sse s); ended := ended s; files := files s;
     children := children s; next_res := next_res s |}.

Definition with_ended (f : gset nat → gset nat) (s : Server) : Server :=
  {| jobs := jobs s; sse := sse s; ended := f (ended s); files := files s;
     children := children s; next_res := next_res s |}.

Definition with_files (f : gmap string FsNode → gmap string FsNode)
    (s : Server) : Server :=
  {| jobs := jobs s; sse := sse s; ended := ended s; files := f (files s);
     children := children s; next_res := next_res s |}.

Definition with_children (f : list Child → list Child) (s : Server) : Server :=
  {| jobs := jobs s; sse := sse s; ended := ended s; files := files s;
     children := f (children s); next_res := next_res s |}.

Definition with_next_res (n : nat) (s : Server) : Server :=
  {| jobs := jobs s; sse := sse s; ended := ended s; files := files s;
     children := children s; next_res := n |}.

Definition set_lines (l : list string) (j : Job) : Job :=
  {| job_id := job_id j; createdAt := createdAt j; lines := l;
     sseClients := sseClients j; done := done j; downloadsDir := downloadsDir j |}.

Definition set_sseClients (c : gset nat) (j : Job) : Job :=
  {| job_id := job_id j; createdAt := createdAt j; lines := lines j;
     sseClients := c; done := done j; downloadsDir := downloadsDir j |}.

Definition set_done (d : option Z) (j : Job) : Job :=
  {| job_id := job_id j; createdAt := createdAt j; lines := lines j;
     sseClients := sseClients j; done := d; downloadsDir := downloadsDir j |}.

Definition set_downloadsDir (d : option string) (j : Job) : Job :=
  {| job_id := job_id j; createdAt := createdAt j; lines := lines j;
     sseClients := sseClients j; done := done j; downloadsDir := d |}.

(** The frames a response has received so far. *)
Definition received (s : Server) (res : nat) : list SseEvent :=
  default [] (sse s !! res).

(** [sseSend(res, event, data)]: two writes that form one frame. *)
Definition sseSend (res : nat) (ev : SseEvent) (s : Server) : Server :=
  with_sse (λ m, <[res := default [] (m !! res) ++ [ev]]> m) s.

(** [res.end()]. *)
Definition res_end (res : nat) (s : Server) : Server :=
  with_ended (λ e, {[res]} ∪ e) s.

Definition LOG_CAP : nat := 2000.
Definition REPLAY_TAIL : nat := 250.

(** [lines.push(line)] followed by the splice that drops the oldest entries
    once the array is longer than the cap. *)
Definition push_capped (l : list string) (line : string) : list string :=
  let l' := l ++ [line] in
  if LOG_CAP <? length l' then drop (length l' - LOG_CAP) l' else l'.

(** [jobAppend(jobId, line)]. *)
Definition jobAppend (jobId : string) (line : string) (s : Server) : Server :=
  match jobs s !! jobId with
  | None => s
  | Some job =>
      let s1 := with_jobs <[jobId := set_lines (push_capped (lines job) line) job]> s in
      foldl (λ st client, sseSend client (LogEvent line) st) s1
            (elements (sseClients job))
  end.

(** [jobDone(jobId, exitCode)]. *)
Definition jobDone (jobId : string) (exitCode : Z) (s : Server) : Server :=
  match jobs s !! jobId with
  | None => s
  | Some job =>
      let s1 := with_jobs <[jobId := set_done (Some exitCode) job]> s in
      let s2 := foldl (λ st client, res_end client (sseSend client (DoneEvent exitCode) st))
                      s1 (elements (sseClients job)) in
      with_jobs (alter (set_sseClients ∅) jobId) s2
  end.

(** [lines.slice(-n)]. *)
Definition slice_last {A} (n : nat) (l : list A) : list A :=
  drop (length l - n) l.

(** ** HTTP responses *)

(** What a handler answers with: a text, the object with an error
    message, the object of an accepted download, the object of the file
    listing (its list of links is absent on one path), the head of a file
    download with the read stream of [fullPath] piped into the response
    (the content length header is left out), or an event stream whose
    frames are kept in the state. *)
Inductive Body :=
| TextBody (text : string)
| ErrorBody (error : string)
| DownloadBody (jobId : string) (count : nat) (dir : option string)
| FilesBody (file_names : list string) (downloadUrls : option (list string))
| FileStream (fullPath : string) (attachment : string)
| EventStream (res : nat).

Record Response := mkResponse {
  status : nat;
  body : Body;
}.

Definition json (statusCode : nat) (data : Body) : Response :=
  {| status := statusCode; body := data |}.

Definition notFound : Response :=
  {| status := 404; body := TextBody "Not found" |}.

Definition badRequest (message : string) : Response :=
  json 400 (ErrorBody message).

Definition internalError (message : string) : Response :=
  json 500 (ErrorBody message).

(** ** The file system calls of the handlers *)

Definition existsSync (p : string) (s : Server) : bool :=
  bool_decide (is_Some (files s !! p)).

(** The directories on the way to a path, outermost first. *)
Fixpoint prefixes (root : string) (segs : list string) : list string :=
  match segs with
  | [] => []
  | seg :: rest => (root +:+ seg) :: prefixes (root +:+ seg +:+ "/") rest
  end.

Definition ancestors (p : string) : list string :=
  prefixes (if path.isAbsolute p then "/" else "")
           (Js.filter_Boolean (path.segments p)).

(** [fs.mkdirSync(p, { recursive: true })] inside a try block whose catch is
    empty: the missing directories are created from the outside in; at a
    regular file the call throws and the rest is left as it is. *)
Fixpoint mkdirs (ds : list string) (m : gmap string FsNode) : gmap string FsNode :=
  match ds with
  | [] => m
  | d :: ds' =>
      match m !! d with
      | None => mkdirs ds' (<[d := FsDir]> m)
      | Some FsDir => mkdirs ds' m
      | Some (FsFile _) => m
      end
  end.

Definition mkdirSync_recursive (p : string) (s : Server) : Server :=
  with_files (mkdirs (ancestors p)) s.

(** [fs.unlinkSync(p)] inside a try block whose catch is empty. *)
Definition unlinkSync_quiet (p : option string) (s : Server) : Server :=
  match p with
  | Some f => with_files (delete f) s
  | None => s
  end.

(** A directory entry as [readdirSync] with [withFileTypes] returns it. *)
Record Dirent := mkDirent {
  dirent_name : string;
  dirent_isFile : bool;
}.

(** The part of [p] after the prefix [pre], when [p] starts with it. *)
Fixpoint strip_prefix (pre p : string) : option string :=
  match pre, p with
  | "", _ => Some p
  | String a pre', String b p' =>
      if bool_decide (a = b) then strip_prefix pre' p' else None
  | String _ _, "" => None
  end.

(** [fs.readdirSync(dir, { withFileTypes: true })]: the entries directly
    below [dir]; [None] stands for the call throwing (no such directory, or
    not a directory). *)
Definition readdirSync (dir : string) (s : Server) : option (list Dirent) :=
  match files s !! dir with
  | Some FsDir =>
      Some (omap (λ '(p, node),
                    match strip_prefix (dir +:+ "/") p with
                    | Some name =>
                        if Js.truthy name && negb (Js.includes "/" name)
                        then Some {| dirent_name := name;
                                     dirent_isFile :=
                                       match node with FsFile _ => true | FsDir => false end |}
                        else None
                    | None => None
                    end)
                 (map_to_list (files s)))
  | _ => None
  end.

(** ** POST /api/download *)

(** The fields the handler reads from the parsed body, after the coercions
    of its first lines: [ids] is the array (or the empty array), [url] is
    the string of [body.url] (empty for a falsy field), [quality] is absent
    for null and undefined
    and [Number(body.quality)] otherwise, [mp3] is [Boolean(body.mp3)] and
    [cookiesFromBrowser] is the string of a truthy field.  [videoOnly] is
    the field as the client sent it. *)
Record DownloadRequest := mkDownloadRequest {
  req_ids : list JsValue;
  req_url : string;
  req_quality : option JsNumber;
  req_mp3 : bool;
  req_videoOnly : bool;
  req_cookiesFromBrowser : option string;
}.

(** What [readBody] and [safeParseJson] make of the request. *)
Inductive RequestBody :=
| BodyTooLarge
| BodyNotJson
| BodyJson (req : DownloadRequest).

(** The parameters of [createAppServer] and of the host. *)
Record Config := mkConfig {
  ytDlpCommand : string;
  baseDownloadsDir : string;
  tmpdir : string;
}.

(** The outcome of [spawnYtDlp(args, opts)]. *)
Inductive SpawnResult :=
| SpawnThrows (message : string)
| SpawnReturns.

(** What the runtime decides during one request: the random job id, the
    clock, whether [writeFileSync] throws (with its message), and the
    outcome of the spawn. *)
Record DownloadEnv := mkDownloadEnv {
  env_jobId : string;
  env_now : N;
  env_writeFile : option string;
  env_spawn : SpawnResult;
}.

Definition outputTemplate : string :=
  "%(upload_date)s - %(title)s [%(id)s].%(ext)s".

(** The selector with the height written in decimal digits, as the
    template literal writes an integer below ten to the twenty-first. *)
Definition format_selector (h : Z) : string :=
  "bestvideo[height<=" +:+ pretty h +:+ "]+bestaudio/best[height<=" +:+
  pretty h +:+ "]".

(** The guard [requestedQuality && Number.isFinite(requestedQuality)] and
    the push it protects. *)
Definition quality_args (requestedQuality : option JsNumber) : list string :=
  match requestedQuality with
  | Some (Finite q) =>
      if Qeq_bool q 0 then [] else ["-f"; format_selector (Qfloor q)]
  | _ => []
  end.

Definition base_args (archivePath jobDir : string) (req : DownloadRequest)
    : list string :=
  ["-i"; "--yes-playlist"; "--newline"; "--no-warnings"; "--download-archive";
   archivePath; "-P"; jobDir; "-o"; outputTemplate]
  ++ (if req_mp3 req then ["--extract-audio"; "--audio-format"; "mp3"]
      else ["--merge-output-format"; "mp4"])
  ++ quality_args (req_quality req).

Definition COOKIE_BROWSERS : list string := ["chrome"; "edge"; "firefox"].

Definition job_dir (cfg : Config) (jobId : string) : string :=
  path.join [baseDownloadsDir cfg; "ytdlp-ui"; jobId].

Definition tmp_list_path (cfg : Config) (jobId : string) : string :=
  path.join [tmpdir cfg; "ytdlp-ui-" +:+ jobId +:+ ".txt"].

Definition launch_failure_line (cfg : Config) (message : string) : string :=
  Js.trim ("Failed to start yt-dlp (" +:+ ytDlpCommand cfg +:+
           "). Set YTDLP_BIN to full path. " +:+ message).

(** The launch and what follows it: the try block around [spawnYtDlp], its
    catch, and the installation of the handlers on the child. *)
Definition launch (cfg : Config) (env : DownloadEnv) (jobId jobDir : string)
    (count : nat) (tmpListPath : option string) (args : list string)
    (s : Server) : Server * Response * list string :=
  match env_spawn env with
  | SpawnThrows message =>
      let s := unlinkSync_quiet tmpListPath s in
      let s := jobAppend jobId (launch_failure_line cfg message) s in
      let s := jobDone jobId (-1) s in
      (s, json 200 (DownloadBody jobId count None), args)
  | SpawnReturns =>
      let s := with_children
                 (λ cs, cs ++ [{| child_jobId := jobId;
                                  child_tmpListPath := tmpListPath |}]) s in
      (s, json 200 (DownloadBody jobId count (Some jobDir)), args)
  end.

(** The job object the handler makes and puts into the map, the directory
    it makes for it, and the assignment of that directory to the job. *)
Definition create_job (cfg : Config) (env : DownloadEnv) (s : Server) : Server :=
  let jobId := env_jobId env in
  let job := {| job_id := jobId; createdAt := env_now env; lines := [];
                sseClients := ∅; done := None; downloadsDir := None |} in
  let s := with_jobs <[jobId := job]> s in
  let jobDir := job_dir cfg jobId in
  let s := mkdirSync_recursive jobDir s in
  with_jobs (alter (set_downloadsDir (Some jobDir)) jobId) s.

(** The check of the cookie source, placed after the argument list is
    complete, and the launch behind it. *)
Definition check_cookies_and_launch (cfg : Config) (env : DownloadEnv)
    (req : DownloadRequest) (count : nat) (tmpListPath : option string)
    (args : list string) (s : Server) : Server * Response * list string :=
  let jobId := env_jobId env in
  let jobDir := job_dir cfg jobId in
  match req_cookiesFromBrowser req with
  | Some cookiesFromBrowser =>
      if Js.truthy cookiesFromBrowser then
        if bool_decide (cookiesFromBrowser ∈ COOKIE_BROWSERS) then
          launch cfg env jobId jobDir count tmpListPath
            (["--cookies-from-browser"; cookiesFromBrowser] ++ args) s
        else
          (s, badRequest
                "cookiesFromBrowser must be one of: chrome, edge, firefox",
           args)
      else launch cfg env jobId jobDir count tmpListPath args s
  | None => launch cfg env jobId jobDir count tmpListPath args s
  end.

(** The text written to the temporary id list. *)
Definition urls_list (validIds : list JsValue) : string :=
  Js.join (String Js.LF "")
          (map (λ v, buildVideoUrlFromId (id_text v)) validIds)
  +:+ String Js.LF "".

(** The handler.  Beside the new state and the response it yields the
    argument list it built, which is empty when no list was built. *)
Definition handle_download (cfg : Config) (env : DownloadEnv) (raw : RequestBody)
    (s : Server) : Server * Response * list string :=
  match raw with
  | BodyTooLarge => (s, internalError "Request too large", [])
  | BodyNotJson => (s, badRequest "Invalid JSON body", [])
  | BodyJson req =>
      let url := Js.trim (req_url req) in
      let validIds := List.filter isValidYtId (req_ids req) in
      let isBulk := 0 <? length validIds in
      if negb isBulk && negb (Js.truthy url) then (s, badRequest "Missing url", [])
      else
        let jobId := env_jobId env in
        let s := create_job cfg env s in
        let jobDir := job_dir cfg jobId in
        let archivePath :=
          path.join [baseDownloadsDir cfg; "ytdlp-ui"; ".ytdlp-archive.txt"] in
        let args := base_args archivePath jobDir req in
        let count := if isBulk then length validIds else 1 in
        if isBulk then
          let tmpListPath := tmp_list_path cfg jobId in
          match env_writeFile env with
          | Some message =>
              (s, internalError
                    (if Js.truthy message then message else "Unexpected error"),
               args)
          | None =>
              let s := with_files <[tmpListPath := FsFile (urls_list validIds)]> s in
              check_cookies_and_launch cfg env req count (Some tmpListPath)
                (args ++ ["-a"; tmpListPath]) s
          end
        else
          check_cookies_and_launch cfg env req count None (args ++ [url]) s
  end.

(** ** The handlers installed on the child *)

(** [onData(chunk)], installed on both output streams. *)
Definition onData (jobId : string) (chunk : string) (s : Server) : Server :=
  foldl (λ st line, jobAppend jobId line st) s
        (Js.filter_Boolean (Js.split_lines chunk)).

(** The listener of the child's error event. *)
Definition onError (c : Child) (code message : string) (s : Server) : Server :=
  let s := unlinkSync_quiet (child_tmpListPath c) s in
  let s := jobAppend (child_jobId c)
             (Js.trim ("yt-dlp spawn error: " +:+ code +:+ " " +:+ message)) s in
  jobDone (child_jobId c) (-1) s.

(** The listener of the child's close event; [code] is absent when the
    runtime reports no numeric exit code. *)
Definition onClose (c : Child) (code : option Z) (s : Server) : Server :=
  let s := unlinkSync_quiet (child_tmpListPath c) s in
  jobDone (child_jobId c) (default (-1)%Z code) s.

(** ** The routes with a job id *)

(** The character class of the job id in the paths of the three GET
    routes, lower-case letters and digits, and the test that a path
    segment is one or more of them. *)
Definition route_id_char (c : ascii) : bool :=
  let n := nat_of_ascii c in
  ((97 <=? n) && (n <=? 122)) || ((48 <=? n) && (n <=? 57)).

Definition route_id (segment : string) : bool :=
  Js.truthy segment && Js.all_chars route_id_char segment.

(** ** GET /api/files/:jobId *)

Definition handle_files (jobId : string) (s : Server) : Response :=
  match jobs s !! jobId with
  | None => badRequest "Unknown jobId"
  | Some job =>
      match downloadsDir job with
      | None => json 200 (FilesBody [] None)
      | Some dir =>
          let names :=
            match readdirSync dir s with
            | Some entries =>
                map dirent_name (List.filter dirent_isFile entries)
            | None => []
            end in
          json 200
            (FilesBody names
               (Some (map (λ f, "/api/file/" +:+ jobId +:+ "/" +:+
                                encodeURIComponent f) names)))
      end
  end.

(** A GET request for a path that starts with /api/files/: the route
    matches when the rest of the path is a job id; no other route matches
    such a path, and the request falls through to [notFound]. *)
Definition get_files (rest : string) (s : Server) : Response :=
  if route_id rest then handle_files rest s else notFound.

(** ** GET /api/file/:jobId/:name *)

(** [rawName] is the second group of the route after
    [decodeURIComponent]. *)
Definition handle_file (jobId rawName : string) (s : Server) : Response :=
  let fileName := safeBasename rawName in
  match jobs s !! jobId with
  | None => badRequest "Unknown jobId"
  | Some job =>
      match downloadsDir job with
      | None => badRequest "No downloads for job"
      | Some dir =>
          let fullPath := path.join [dir; fileName] in
          if negb (existsSync fullPath s) then notFound
          else {| status := 200;
                  body := FileStream fullPath (safeBasename fileName) |}
      end
  end.

(** ** GET /api/events/:jobId *)

(** The response object of the request is the next one the runtime hands
    out; [sseHeaders] opens its stream, which starts empty.  The tail of
    the log is replayed; a finished job ends the stream at once, a running
    job gets the response added to its listeners. *)
Definition handle_events (jobId : string) (s : Server) : Server * Response :=
  match jobs s !! jobId with
  | None => (s, badRequest "Unknown jobId")
  | Some job =>
      let res := next_res s in
      let s := with_next_res (S res) (with_sse <[res := []]> s) in
      let s := foldl (λ st line, sseSend res (LogEvent line) st) s
                     (slice_last REPLAY_TAIL (lines job)) in
      match done job with
      | Some exitCode =>
          (res_end res (sseSend res (DoneEvent exitCode) s),
           {| status := 200; body := EventStream res |})
      | None =>
          (with_jobs (alter (λ j, set_sseClients ({[res]} ∪ sseClients j) j) jobId) s,
           {| status := 200; body := EventStream res |})
      end
  end.

(** The listener of the request's close event, installed when the response
    was added to the listeners of the job.  Its closure holds the job
    object; the embedding names the object by its id, which names the same
    object for as long as the id is not put into the map a second time. *)
Definition onRequestClose (jobId : string) (res : nat) (s : Server) : Server :=
  with_jobs (alter (λ j, set_sseClients (sseClients j ∖ {[res]}) j) jobId) s.

(** ** The event loop *)

(** What the single thread of the server can be woken up with. *)
Inductive Event :=
| PostDownload (env : DownloadEnv) (raw : RequestBody)
| GetEvents (jobId : string)
| RequestClose (jobId : string) (res : nat)
| ChildData (pid : nat) (chunk : string)
| ChildError (pid : nat) (code message : string)
| ChildClose (pid : nat) (code : option Z).

Definition step (cfg : Config) (s : Server) (e : Event) : Server :=
  match e with
  | PostDownload env raw => (handle_download cfg env raw s).1.1
  | GetEvents jobId => (handle_events jobId s).1
  | RequestClose jobId res => onRequestClose jobId res s
  | ChildData pid chunk =>
      match children s !! pid with
      | Some c => onData (child_jobId c) chunk s
      | None => s
      end
  | ChildError pid code message =>
      match children s !! pid with
      | Some c => onError c code message s
      | None => s
      end
  | ChildClose pid code =>
      match children s !! pid with
      | Some c => onClose c code s
      | None => s
      end
  end.

Definition run (cfg : Config) (s : Server) (es : list Event) : Server :=
  foldl (step cfg) s es.

(** ** The line buffering of GET /api/list *)

(** The listener of the child's standard output in the list handler keeps
    the unfinished last piece in [buffer] and hands the finished pieces to
    the loop over [lines]. *)
Definition list_onData (buffer chunk : string) : list string * string :=
  let pieces := Js.split_lines (buffer +:+ chunk) in
  (removelast pieces, default "" (last pieces)).

Definition list_feed (chunks : list string) : list string * string :=
  foldl (λ '(done_lines, buffer) chunk,
           let '(ls, buffer') := list_onData buffer chunk in
           (done_lines ++ ls, buffer'))
        ([], "") chunks.

(** ** The entries of GET /api/list *)

(** What the loop over the finished lines reads from a parsed line: the
    [id] field as it is and [String(title || "")]. *)
Record ListEntry := mkListEntry {
  entry_id : JsValue;
  entry_title : string;
}.

Record Video := mkVideo {
  video_id : string;
  video_title : string;
  video_url : string;
}.

(** The body of the loop over [lines]; [safeParseJson] stands for the
    parser followed by the reads of the two fields, [None] for a line that
    does not parse. *)
Definition list_entries (safeParseJson : string → option ListEntry)
    (finished : list string) : list Video :=
  flat_map (λ line,
              let trimmed := Js.trim line in
              if negb (Js.truthy trimmed) then []
              else match safeParseJson trimmed with
                   | None => []
                   | Some obj =>
                       if negb (isValidYtId (entry_id obj)) then []
                       else [{| video_id := id_text (entry_id obj);
                                video_title := entry_title obj;
                                video_url :=
                                  buildVideoUrlFromId (id_text (entry_id obj)) |}]
                   end)
           finished.

(** The listener of the child's standard output with the array [videos] it
    pushes to, and the array when the child has closed. *)
Definition list_stdout (safeParseJson : string → option ListEntry)
    (st : list Video * string) (chunk : string) : list Video * string :=
  let '(ls, buffer) := list_onData st.2 chunk in
  (st.1 ++ list_entries safeParseJson ls, buffer).

Definition list_videos (safeParseJson : string → option ListEntry)
    (chunks : list string) : list Video :=
  (foldl (list_stdout safeParseJson) ([], "") chunks).1.

(** ** Reading a request body *)

(** The events of the request stream: a chunk of text, the end of the
    stream, or an error with its message.  A chunk is a sequence of code
    units of any type [U], so that a length is the [length] of
    JavaScript. *)
Inductive ReqEvent (U : Type) :=
| ReqData (chunk : list U)
| ReqEnd
| ReqError (message : string).
Arguments ReqData {U} chunk.
Arguments ReqEnd {U}.
Arguments ReqError {U} message.

(** The promise of [readBody]: not settled, resolved with the text, or
    rejected with a message. *)
Inductive BodyPromise (U : Type) :=
| BodyPending
| BodyResolved (data : list U)
| BodyRejected (message : string).
Arguments BodyPending {U}.
Arguments BodyResolved {U} data.
Arguments BodyRejected {U} message.

Definition BODY_LIMIT : Z := 10000000.

(** The listeners of [readBody] over the events that arrive, with the text
    collected so far; the first settlement of a promise is the one that
    counts. *)
Fixpoint readBody_from {U} (data : list U) (events : list (ReqEvent U))
    : BodyPromise U :=
  match events with
  | [] => BodyPending
  | ReqData chunk :: rest =>
      let data := data ++ chunk in
      if (BODY_LIMIT <? Z.of_nat (length data))%Z
      then BodyRejected "Request too large"
      else readBody_from data rest
  | ReqEnd :: _ => BodyResolved data
  | ReqError message :: _ => BodyRejected message
  end.

Definition readBody {U} (events : list (ReqEvent U)) : BodyPromise U :=
  readBody_from [] events.

(** ** The port of the server run directly *)

(** What [server.listen] on a port leads to: the listening callback, or an
    error event with its code. *)
Inductive ListenOutcome :=
| Listening
| ListenError (code : string).

(** How the start ends: serving on a port, or the exit code 1 after the
    error on the last port tried. *)
Inductive Startup :=
| Serving (port : Z)
| GaveUp (port : Z).

(** [tryListen] and the error listener: [listen] tells what each port
    answers while the server starts. *)
Fixpoint tryListen (listen : Z → ListenOutcome) (attemptsLeft : nat)
    (currentPort : Z) : Startup :=
  match listen currentPort with
  | Listening => Serving currentPort
  | ListenError code =>
      if bool_decide (code = "EADDRINUSE") then
        match attemptsLeft with
        | S attemptsLeft' => tryListen listen attemptsLeft' (currentPort + 1)
        | O => GaveUp currentPort
        end
      else GaveUp currentPort
  end.

Definition startup (listen : Z → ListenOutcome) (port : Z) : Startup :=
  tryListen listen 15 port.

(** ** The qualities of GET /api/info *)

(** [heights.add(h)] on the set of the numbers seen, which keeps the order
    of insertion. *)
Definition heights_add (h : Q) (heights : list Q) : list Q :=
  if existsb (Qeq_bool h) heights then heights else heights ++ [h].

(** The test and the insertion of one pass of the loop over [formats].  A
    format is given by its [height] field, absent when the field is not of
    type number. *)
Definition add_height (heights : list Q) (height : option JsNumber) : list Q :=
  match height with
  | Some (Finite h) =>
      if negb (Qle_bool h 0) then heights_add h heights else heights
  | _ => heights
  end.

(** [xs.sort((a, b) => b - a)] on numbers: the larger number first. *)
Fixpoint insert_desc (x : Q) (xs : list Q) : list Q :=
  match xs with
  | [] => [x]
  | y :: xs' => if Qle_bool y x then x :: xs else y :: insert_desc x xs'
  end.

Definition sort_desc (xs : list Q) : list Q := foldr insert_desc [] xs.

Definition extractQualitiesFromYtDlpInfo (formats : list (option JsNumber))
    : list Q :=
  sort_desc (foldl add_height [] formats).

(** ** The command line *)

(** [s.slice(n)] for a count [n] within the string. *)
Fixpoint slice (n : nat) (s : string) : string :=
  match n, s with
  | S n', String _ s' => slice n' s'
  | _, _ => s
  end.

(** The object [out] of [parseArgs]; a field that was never assigned, or
    was assigned [undefined], is absent.  [help] is only ever assigned
    [true]. *)
Record Opts := mkOpts {
  opt_host : option string;
  opt_port : option JsNumber;
  opt_open : option bool;
  opt_help : bool;
}.

Definition no_opts : Opts :=
  {| opt_host := None; opt_port := None; opt_open := None; opt_help := false |}.

Definition set_host (v : option string) (out : Opts) : Opts :=
  {| opt_host := v; opt_port := opt_port out; opt_open := opt_open out;
     opt_help := opt_help out |}.

Definition set_port (v : option JsNumber) (out : Opts) : Opts :=
  {| opt_host := opt_host out; opt_port := v; opt_open := opt_open out;
     opt_help := opt_help out |}.

Definition set_open (v : bool) (out : Opts) : Opts :=
  {| opt_host := opt_host out; opt_port := opt_port out; opt_open := Some v;
     opt_help := opt_help out |}.

Definition set_help (out : Opts) : Opts :=
  {| opt_host := opt_host out; opt_port := opt_port out; opt_open := opt_open out;
     opt_help := true |}.

(** The loop of [parseArgs] over [args]; [Number] is the conversion of a
    string to a number, and the element after the last one is
    [undefined], which converts to NaN. *)
Fixpoint parse_loop (Number : string → JsNumber) (args : list string)
    (out : Opts) : Opts :=
  match args with
  | [] => out
  | a :: rest =>
      if bool_decide (a = "--help") || bool_decide (a = "-h")
      then parse_loop Number rest (set_help out)
      else if bool_decide (a = "--no-open")
      then parse_loop Number rest (set_open false out)
      else if bool_decide (a = "--open")
      then parse_loop Number rest (set_open true out)
      else if bool_decide (a = "--host") then
        match rest with
        | v :: rest' => parse_loop Number rest' (set_host (Some v) out)
        | [] => set_host None out
        end
      else if Js.startsWith "--host=" a
      then parse_loop Number rest (set_host (Some (slice 7 a)) out)
      else if bool_decide (a = "--port") then
        match rest with
        | v :: rest' => parse_loop Number rest' (set_port (Some (Number v)) out)
        | [] => set_port (Some NaN) out
        end
      else if Js.startsWith "--port=" a
      then parse_loop Number rest (set_port (Some (Number (slice 7 a))) out)
      else parse_loop Number rest out
  end.

Definition parseArgs (Number : string → JsNumber) (argv : list string) : Opts :=
  let out := parse_loop Number (drop 2 argv) no_opts in
  match opt_port out with
  | Some NaN => set_port None out
  | _ => out
  end.

(** * The vocabulary of the properties *)

(** ** Listeners *)

(** The frames the events route replays to a new listener of the job. *)
Definition replay_of (job : Job) : list SseEvent :=
  map LogEvent (slice_last REPLAY_TAIL (lines job)).

(** A response is attached when some job of the registry lists it. *)
Definition attached (s : Server) (c : nat) : Prop :=
  ∃ j job, jobs s !! j = Some job ∧ c ∈ sseClients job.

(** What holds of the listeners in every state the server reaches: an
    attached response was handed out earlier, is still open, has not been
    sent a terminal event, and is attached to one job only; a finished job
    has no listeners. *)
Record wf (s : Server) : Prop := mk_wf {
  wf_fresh : ∀ c, attached s c → c < next_res s;
  wf_open : ∀ c, attached s c → c ∉ ended s;
  wf_no_done : ∀ c code, attached s c → DoneEvent code ∉ received s c;
  wf_unique : ∀ j1 j2 job1 job2 c,
    jobs s !! j1 = Some job1 → jobs s !! j2 = Some job2 →
    c ∈ sseClients job1 → c ∈ sseClients job2 → j1 = j2;
  wf_terminal : ∀ j job,
    jobs s !! j = Some job → done job ≠ None → sseClients job = ∅;
  wf_ended : ∀ c, c ∈ ended s → c < next_res s;
}.

(** A response that was handed out and is attached nowhere. *)
Definition detached (s : Server) (c : nat) : Prop :=
  c < next_res s ∧ ¬ attached s c.

(** The listeners of a job, as a set that is empty for an unknown id. *)
Definition listeners (s : Server) (j : string) : gset nat :=
  from_option sseClients ∅ (jobs s !! j).

(** ** The paths through the download handler *)

(** The job as it stands in the map once [create_job] is through. *)
Definition new_job (cfg : Config) (env : DownloadEnv) : Job :=
  {| job_id := env_jobId env; createdAt := env_now env; lines := [];
     sseClients := ∅; done := None;
     downloadsDir := Some (job_dir cfg (env_jobId env)) |}.

(** A step that leaves the frames, the ended responses and the response
    counter alone and at most puts a job without listeners, with a log
    within the cap, into the map. *)
Definition adds_quiet_job (jobId : string) (s s' : Server) : Prop :=
  sse s' = sse s ∧ ended s' = ended s ∧ next_res s' = next_res s ∧
  (jobs s' = jobs s ∨
   ∃ job', jobs s' = <[jobId := job']> (jobs s) ∧ sseClients job' = ∅ ∧
           length (lines job') ≤ LOG_CAP).

(** The job in the map after a launch that threw. *)
Definition failed_job (job : Job) (line : string) : Job :=
  set_sseClients ∅ (set_done (Some (-1)%Z)
    (set_lines (push_capped (lines job) line) job)).

(** The frame is a terminal event. *)
Definition is_done_event (ev : SseEvent) : bool :=
  match ev with DoneEvent _ => true | LogEvent _ => false end.

(** The identifiers of the request that pass [isValidYtId], and whether
    there is one. *)
Definition validIds_of (req : DownloadRequest) : list JsValue :=
  List.filter isValidYtId (req_ids req).

Definition is_bulk (req : DownloadRequest) : bool :=
  0 <? length (validIds_of req).

(** The request names something to download. *)
Definition has_target (req : DownloadRequest) : Prop :=
  is_bulk req = true ∨ Js.trim (req_url req) ≠ "".

(** The temporary id list, when one is needed, could be written. *)
Definition list_written (env : DownloadEnv) (req : DownloadRequest) : Prop :=
  is_bulk req = true → env_writeFile env = None.

(** The cookie source is absent, empty, or one of the three browsers. *)
Definition cookies_accepted (req : DownloadRequest) : Prop :=
  match req_cookiesFromBrowser req with
  | Some cookie => cookie = "" ∨ cookie ∈ COOKIE_BROWSERS
  | None => True
  end.

(** The path of the temporary id list, for a bulk request. *)
Definition request_tmp (cfg : Config) (env : DownloadEnv) (req : DownloadRequest)
    : option string :=
  if is_bulk req then Some (tmp_list_path cfg (env_jobId env)) else None.

(** The item count of the response. *)
Definition request_count (req : DownloadRequest) : nat :=
  if is_bulk req then length (validIds_of req) else 1.

(** The argument list before the cookie flag is put in front. *)
Definition request_args (cfg : Config) (env : DownloadEnv) (req : DownloadRequest)
    : list string :=
  base_args (path.join [baseDownloadsDir cfg; "ytdlp-ui"; ".ytdlp-archive.txt"])
            (job_dir cfg (env_jobId env)) req
  ++ (if is_bulk req then ["-a"; tmp_list_path cfg (env_jobId env)]
      else [Js.trim (req_url req)]).

(** The state in which the cookie source is checked. *)
Definition state_at_check (cfg : Config) (env : DownloadEnv) (req : DownloadRequest)
    (s : Server) : Server :=
  if is_bulk req then
    with_files <[tmp_list_path cfg (env_jobId env) :=
                   FsFile (urls_list (validIds_of req))]> (create_job cfg env s)
  else create_job cfg env s.

(** The job is in the map and has no terminal result. *)
Definition running (s : Server) (j : string) : Prop :=
  ∃ job, jobs s !! j = Some job ∧ done job = None.

(** No installed child handler closes over the job id. *)
Definition no_child_of (s : Server) (j : string) : Prop :=
  ∀ ch, ch ∈ children s → child_jobId ch ≠ j.

(** The event is a download request to which the runtime hands the job id
    [j] again. *)
Definition reuses_id (j : string) (e : Event) : Prop :=
  match e with
  | PostDownload env _ => env_jobId env = j
  | _ => False
  end.

(** ** Concrete requests *)

Module Sample.

(** A server whose downloads go below /home/u/Downloads. *)
Definition cfg : Config :=
  {| ytDlpCommand := "yt-dlp";
     baseDownloadsDir := "/home/u/Downloads";
     tmpdir := "/tmp" |}.

(** The sixteen hexadecimal digits the runtime draws for the job. *)
Definition jobId : string := "ab12cd34ef567890".

(** A request during which the id list can be written. *)
Definition env (spawn : SpawnResult) : DownloadEnv :=
  {| env_jobId := jobId; env_now := 1700000000000;
     env_writeFile := None; env_spawn := spawn |}.

(** The output directory of that job. *)
Definition jobDir : string := "/home/u/Downloads/ytdlp-ui/ab12cd34ef567890".

(** The body of the test of the video-only download. *)
Definition video_only_720 : DownloadRequest :=
  {| req_ids := [];
     req_url := "https://example.com/watch?v=f4g1xtyY3uo";
     req_quality := Some (Finite (720 # 1));
     req_mp3 := false;
     req_videoOnly := true;
     req_cookiesFromBrowser := None |}.

(** A bulk request with a cookie source of the given name. *)
Definition bulk (cookie : option string) : DownloadRequest :=
  {| req_ids := [VString "f4g1xtyY3uo"; VString "gAnS4WTgeIE"; VOther];
     req_url := "";
     req_quality := None;
     req_mp3 := false;
     req_videoOnly := false;
     req_cookiesFromBrowser := cookie |}.

(** The server after one accepted single-url download. *)
Definition started : Server :=
  (handle_download cfg (env SpawnReturns) (BodyJson video_only_720) initial).1.1.

(** The same server with one listener attached to the job. *)
Definition listening : Server :=
  run cfg initial [PostDownload (env SpawnReturns) (BodyJson video_only_720);
               GetEvents jobId].

End Sample.

(** A path lies inside a directory when it continues the directory's path
    behind a separator. *)
Definition inside (dir p : string) : bool := Js.startsWith (dir +:+ "/") p.

(** The request with its video-only field set to [b]. *)
Definition with_videoOnly (b : bool) (req : DownloadRequest) : DownloadRequest :=
  {| req_ids := req_ids req; req_url := req_url req;
     req_quality := req_quality req; req_mp3 := req_mp3 req;
     req_videoOnly := b;
     req_cookiesFromBrowser := req_cookiesFromBrowser req |}.

(** The job of [Sample.listening]: one listener, the response 0. *)
Definition listening_job : Job :=
  {| job_id := Sample.jobId; createdAt := 1700000000000; lines := [];
     sseClients := {[0]}; done := None; downloadsDir := Some Sample.jobDir |}.

(** The job of [Sample.started]. *)
Definition started_job : Job :=
  {| job_id := Sample.jobId; createdAt := 1700000000000; lines := [];
     sseClients := ∅; done := None; downloadsDir := Some Sample.jobDir |}.

(** The server after 251 lines of output of the child. *)
Definition busy : Server :=
  foldl (λ st line, jobAppend Sample.jobId line st) Sample.started
        (replicate 251 "[download] 50%").

(** The job of [busy]. *)
Definition busy_job : Job :=
  {| job_id := Sample.jobId; createdAt := 1700000000000;
     lines := replicate 251 "[download] 50%";
     sseClients := ∅; done := None; downloadsDir := Some Sample.jobDir |}.

(** The server after the job directory was removed behind its back. *)
Definition dir_removed : Server := with_files (λ _, ∅) Sample.started.

(** ** Line framing *)

(** The text a sequence of chunks carries. *)
Definition text_of (chunks : list string) : string :=
  foldr String.append "" chunks.

(** Putting a character in front of the first piece. *)
Definition prepend (c : ascii) (pieces : list string) : list string :=
  match pieces with
  | l :: ls => String c l :: ls
  | [] => [String c ""]
  end.

(** The unfinished piece the listener keeps in [buffer]. *)
Definition held (pieces : list string) : string := default "" (last pieces).

(** ** The cap *)

(** Every job of the registry retains at most 2000 lines. *)
Definition log_bounded (s : Server) : Prop :=
  ∀ j job, jobs s !! j = Some job → length (lines job) ≤ LOG_CAP.

(** ** Finished jobs *)

(** The job is in the map and has a terminal result. *)
Definition finished (s : Server) (j : string) : Prop :=
  ∃ job code, jobs s !! j = Some job ∧ done job = Some code.

(** ** Plain paths *)

(** The character is not the path separator. *)
Definition not_sep (c : ascii) : bool := negb (bool_decide (c = path.SEP)).

(** A path segment that normalisation keeps as it is: not empty, not the
    dot or the dot-dot segment, and free of separators. *)
Definition plain_segment (seg : string) : bool :=
  Js.truthy seg && negb (bool_decide (seg = ".")) &&
  negb (bool_decide (seg = "..")) && Js.all_chars not_sep seg.

(** The absolute path with the given segments. *)
Definition abs_path (segs : list string) : string :=
  "/" +:+ Js.join "/" segs.

(** The state after the child of a job has written a regular file into
    the job directory. *)
Definition with_output (dir name content : string) (s : Server) : Server :=
  with_files <[dir +:+ "/" +:+ name := FsFile content]> s.

(** ** Registered jobs *)

(** The id is a key of the job map. *)
Definition registered (s : Server) (j : string) : Prop :=
  is_Some (jobs s !! j).

(** Every installed child handler closes over the id of a job that is in
    the map. *)
Definition children_known (s : Server) : Prop :=
  ∀ ch, ch ∈ children s → registered s (child_jobId ch).

(** ** Texts and parsers of the list route *)

(** The text contains no line feed. *)
Definition no_line_feed (t : string) : bool :=
  Js.all_chars (λ c, negb (bool_decide (c = Js.LF))) t.

(** A parser that reads every line as an object whose id is the line. *)
Definition id_per_line (line : string) : option ListEntry :=
  Some {| entry_id := VString line; entry_title := "" |}.

(** ** Lists of heights *)

(** Every number is greater than the numbers after it. *)
Definition descending (xs : list Q) : Prop :=
  StronglySorted (λ a b, (b < a)%Q) xs.

(** No two numbers of the list are equal. *)
Definition distinct (xs : list Q) : Prop :=
  StronglySorted (λ a b, ¬ (a == b)%Q) xs.

(** The number is in the list. *)
Definition has_height (q : Q) (xs : list Q) : Prop :=
  Exists (λ h, (h == q)%Q) xs.

(** ** What the command line asked for *)

(** Every field of [out] that is set goes back to an argument of [args]:
    the help flag to one of its two spellings, the open flag to the
    spelling of its value, the host to an argument or to the rest of an
    argument that starts with the host option and an equals sign, and
    the port, unless it is NaN, to the conversion of such a text. *)
Definition asked_for (Number : string → JsNumber) (args : list string)
    (out : Opts) : Prop :=
  (opt_help out = true → "--help" ∈ args ∨ "-h" ∈ args) ∧
  (∀ b, opt_open out = Some b →
        (if b : bool then "--open" else "--no-open") ∈ args) ∧
  (∀ h, opt_host out = Some h → h ∈ args ∨ "--host=" +:+ h ∈ args) ∧
  (∀ p, opt_port out = Some p →
        p = NaN ∨ ∃ v, p = Number v ∧ (v ∈ args ∨ "--port=" +:+ v ∈ args)).

(** ** The files the server leaves alone *)

(** The path is not the temporary id list of any of the job ids [ids]
    the runtime hands out. *)
Definition foreign (cfg : Config) (ids : string → Prop) (p : string) : Prop :=
  ∀ jobId, ids jobId → p ≠ tmp_list_path cfg jobId.

(** Every installed child handler that holds a path holds the path of the
    temporary id list of one of the job ids. *)
Definition own_tmp (cfg : Config) (ids : string → Prop) (s : Server) : Prop :=
  ∀ ch t, ch ∈ children s → child_tmpListPath ch = Some t →
          ∃ jobId, ids jobId ∧ t = tmp_list_path cfg jobId.

(** The job id of a download request is one of [ids]. *)
Definition draws_from (ids : string → Prop) (e : Event) : Prop :=
  match e with
  | PostDownload env _ => ids (env_jobId env)
  | _ => True
  end.

(** ** Logs without empty lines *)

Definition no_empty_line (s : Server) : Prop :=
  ∀ j job, jobs s !! j = Some job → Forall (λ line, line ≠ "") (lines job).

(** ** The temporary id list *)

(** The text contains neither a line feed nor a carriage return. *)
Definition no_line_break (t : string) : bool :=
  Js.all_chars (λ c, negb (bool_decide (c = Js.LF)) && negb (bool_decide (c = Js.CR))) t.

(** ** Plain configurations *)

(** The base directory of the downloads and the directory of temporary
    files are plain absolute paths with the given segments. *)
Definition plain_dirs (cfg : Config) (segs tsegs : list string) : Prop :=
  baseDownloadsDir cfg = abs_path segs ∧ tmpdir cfg = abs_path tsegs ∧
  segs ≠ [] ∧ tsegs ≠ [] ∧
  Forall (λ seg, plain_segment seg = true) segs ∧
  Forall (λ seg, plain_segment seg = true) tsegs.

(** ** Bytes that are no white space *)

(** An ASCII byte other than the six white-space bytes: it is no white
    space and starts no white-space character of two or three bytes. *)
Definition solid (c : ascii) : bool :=
  negb (Ascii.is_space c) && (nat_of_ascii c <? 128).

(** The text holds ASCII bytes only. *)
Definition ascii_text (s : string) : bool :=
  Js.all_chars (λ c, nat_of_ascii c <? 128) s.

(** The no-break space U+00A0 in its two bytes. *)
Definition NBSP : string := String "194" (String "160" "").

(** A request without ids whose url is one no-break space. *)
Definition nbsp_request : DownloadRequest :=
  {| req_ids := []; req_url := NBSP; req_quality := None; req_mp3 := false;
     req_videoOnly := false; req_cookiesFromBrowser := Some "safari" |}.

(** * Properties *)

Global Arguments jobAppend : simpl never.
Global Arguments jobDone : simpl never.
Global Arguments create_job : simpl never.
Global Arguments launch : simpl never.
Global Arguments check_cookies_and_launch : simpl never.
Global Arguments handle_events : simpl never.

(** ** Projections of the state through the primitive updates *)

Lemma foldl_preserves {A B C} (f : A → B → A) (g : A → C) :
  (∀ a b, g (f a b) = g a) → ∀ l a, g (foldl f a l) = g a.
Proof.
  intros Hf l. induction l as [|b l IH]; intros a; simpl; [done|].
  by rewrite IH, Hf.
Qed.

Lemma received_sseSend (s : Server) (c res : nat) (ev : SseEvent) :
  received (sseSend res ev s) c =
  if decide (res = c) then received s c ++ [ev] else received s c.
Proof.
  unfold received, sseSend; simpl. rewrite lookup_insert.
  by destruct (decide (res = c)) as [->|].
Qed.

(** Sending one frame to each response of a list without repetition. *)
Lemma received_broadcast (ev : SseEvent) (l : list nat) (s : Server) (c : nat) :
  NoDup l →
  received (foldl (λ st client, sseSend client ev st) s l) c =
  if decide (c ∈ l) then received s c ++ [ev] else received s c.
Proof.
  intros Hnd. revert s. induction Hnd as [|x l Hx Hnd IH]; intros s; cbn [foldl].
  - destruct (decide (c ∈ [])) as [Hin|Hin]; [set_solver|done].
  - rewrite IH, received_sseSend.
    destruct (decide (x = c)) as [->|Hne], (decide (c ∈ l)) as [Hin|Hin];
      match goal with
      | |- context [decide (?a ∈ ?b :: ?k)] =>
          destruct (decide (a ∈ b :: k)) as [Hin'|Hin']
      end; set_solver.
Qed.

Lemma received_broadcast_end (ev : SseEvent) (l : list nat) (s : Server) (c : nat) :
  NoDup l →
  received (foldl (λ st client, res_end client (sseSend client ev st)) s l) c =
  if decide (c ∈ l) then received s c ++ [ev] else received s c.
Proof.
  intros Hnd. revert s. induction Hnd as [|x l Hx Hnd IH]; intros s; cbn [foldl].
  - destruct (decide (c ∈ [])) as [Hin|Hin]; [set_solver|done].
  - rewrite IH. unfold res_end, received; simpl. rewrite lookup_insert.
    destruct (decide (x = c)) as [->|Hne], (decide (c ∈ l)) as [Hin|Hin];
      match goal with
      | |- context [decide (?a ∈ ?b :: ?k)] =>
          destruct (decide (a ∈ b :: k)) as [Hin'|Hin']
      end; set_solver.
Qed.

Lemma ended_broadcast_end (ev : SseEvent) (l : list nat) (s : Server) (c : nat) :
  c ∈ ended (foldl (λ st client, res_end client (sseSend client ev st)) s l)
  ↔ c ∈ l ∨ c ∈ ended s.
Proof.
  revert s. induction l as [|x l IH]; intros s; simpl.
  - set_solver.
  - rewrite IH. unfold res_end, sseSend; simpl. set_solver.
Qed.

Lemma jobs_jobAppend (jobId line : string) (s : Server) :
  jobs (jobAppend jobId line s) =
  match jobs s !! jobId with
  | Some job => <[jobId := set_lines (push_capped (lines job) line) job]> (jobs s)
  | None => jobs s
  end.
Proof.
  unfold jobAppend. destruct (jobs s !! jobId) as [job|]; [|done].
  rewrite (foldl_preserves _ jobs); [done|intros; reflexivity].
Qed.

Lemma jobs_jobDone (jobId : string) (exitCode : Z) (s : Server) :
  jobs (jobDone jobId exitCode s) =
  match jobs s !! jobId with
  | Some job =>
      <[jobId := set_sseClients ∅ (set_done (Some exitCode) job)]> (jobs s)
  | None => jobs s
  end.
Proof.
  unfold jobDone. destruct (jobs s !! jobId) as [job|] eqn:Hj; [|done].
  simpl. rewrite (foldl_preserves _ jobs); [|intros; reflexivity]. simpl.
  apply map_eq; intros k. rewrite lookup_alter, !lookup_insert.
  by repeat case_decide; simplify_eq.
Qed.

Lemma received_jobAppend (jobId line : string) (s : Server) (c : nat) :
  received (jobAppend jobId line s) c =
  match jobs s !! jobId with
  | Some job =>
      if decide (c ∈ sseClients job) then received s c ++ [LogEvent line]
      else received s c
  | None => received s c
  end.
Proof.
  unfold jobAppend. destruct (jobs s !! jobId) as [job|]; [|done].
  rewrite received_broadcast by apply NoDup_elements.
  destruct (decide (c ∈ elements (sseClients job))) as [Hin|Hin];
    rewrite elem_of_elements in Hin.
  - by rewrite decide_True.
  - by rewrite decide_False.
Qed.

Lemma received_jobDone (jobId : string) (exitCode : Z) (s : Server) (c : nat) :
  received (jobDone jobId exitCode s) c =
  match jobs s !! jobId with
  | Some job =>
      if decide (c ∈ sseClients job) then received s c ++ [DoneEvent exitCode]
      else received s c
  | None => received s c
  end.
Proof.
  unfold jobDone. destruct (jobs s !! jobId) as [job|]; [|done].
  change (received (with_jobs ?f ?st) c) with (received st c).
  rewrite received_broadcast_end by apply NoDup_elements.
  destruct (decide (c ∈ elements (sseClients job))) as [Hin|Hin];
    rewrite elem_of_elements in Hin.
  - by rewrite decide_True.
  - by rewrite decide_False.
Qed.

(** ** The bounded log *)

Section bounded_log.

Local Opaque LOG_CAP.

Lemma push_capped_slice (l : list string) (line : string) :
  push_capped l line = slice_last LOG_CAP (l ++ [line]).
Proof.
  unfold push_capped, slice_last.
  destruct (Nat.ltb_spec LOG_CAP (length (l ++ [line]))) as [Hlt|Hle]; [done|].
  by replace (length (l ++ [line]) - LOG_CAP) with 0 by lia.
Qed.

Lemma length_slice_last {A} (n : nat) (l : list A) :
  length (slice_last n l) = length l `min` n.
Proof. unfold slice_last. rewrite length_drop. lia. Qed.

Lemma slice_last_snoc {A} (n : nat) (l : list A) (x : A) :
  slice_last n (slice_last n l ++ [x]) = slice_last n (l ++ [x]).
Proof.
  unfold slice_last at 1 3. rewrite !length_app, length_slice_last. simpl.
  destruct (decide (length l ≤ n)) as [Hle|Hgt].
  - unfold slice_last. replace (length l - n) with 0 by lia. simpl.
    by replace (length l `min` n) with (length l) by lia.
  - unfold slice_last. rewrite <- (drop_app_le l [x]) by lia.
    rewrite drop_drop. f_equal. lia.
Qed.

Lemma foldl_push_capped (l0 ls : list string) :
  ls ≠ [] → foldl push_capped l0 ls = slice_last LOG_CAP (l0 ++ ls).
Proof.
  induction ls as [|x ls IH] using rev_ind; [done|]. intros _.
  rewrite foldl_snoc, push_capped_slice.
  destruct ls as [|y ls'].
  - done.
  - rewrite IH by done. by rewrite slice_last_snoc, app_assoc.
Qed.

Lemma length_foldl_push_capped (l0 ls : list string) :
  length l0 ≤ LOG_CAP → length (foldl push_capped l0 ls) ≤ LOG_CAP.
Proof.
  intros Hl0. destruct ls as [|x ls]; [done|].
  rewrite foldl_push_capped by done. rewrite length_slice_last. lia.
Qed.

Lemma set_lines_id (job : Job) : set_lines (lines job) job = job.
Proof. by destruct job. Qed.

Lemma jobs_append_all (jobId : string) (ls : list string) :
  ∀ (s : Server) (job : Job),
    jobs s !! jobId = Some job →
    jobs (foldl (λ st line, jobAppend jobId line st) s ls) !! jobId =
    Some (set_lines (foldl push_capped (lines job) ls) job).
Proof.
  induction ls as [|x ls IH]; intros s job Hjob; simpl.
  - by rewrite set_lines_id.
  - rewrite (IH (jobAppend jobId x s) (set_lines (push_capped (lines job) x) job)).
    + done.
    + by rewrite jobs_jobAppend, Hjob, lookup_insert_eq.
Qed.

(** C3.  When more than 2000 lines are appended to a job, the log the job
    retains is exactly the last 2000 of them, in their order; after any
    number of the appends the log holds at most 2000 lines. *)
Theorem retained_log_is_last_2000 (s : Server) (jobId : string) (job : Job)
    (appended : list string) :
  jobs s !! jobId = Some job →
  length (lines job) ≤ LOG_CAP →
  LOG_CAP < length appended →
  let after k :=
    foldl (λ st line, jobAppend jobId line st) s (take k appended) in
  (∃ job', jobs (after (length appended)) !! jobId = Some job' ∧
           lines job' = drop (length appended - LOG_CAP) appended ∧
           length (lines job') = LOG_CAP) ∧
  (∀ k, ∃ job_k, jobs (after k) !! jobId = Some job_k ∧
                 length (lines job_k) ≤ LOG_CAP).
Proof.
  intros Hjob Hlen Hmany after. split.
  - eexists. split; [unfold after; by apply jobs_append_all|].
    rewrite firstn_all. simpl.
    assert (appended ≠ []) as Hne by (intros ->; simpl in Hmany; lia).
    rewrite foldl_push_capped by done.
    assert (slice_last LOG_CAP (lines job ++ appended) =
            drop (length appended - LOG_CAP) appended) as ->.
    { unfold slice_last. rewrite length_app, drop_app_ge by lia.
      f_equal. lia. }
    split; [done|]. rewrite length_drop. lia.
  - intros k. eexists. split; [unfold after; by apply jobs_append_all|].
    simpl. by apply length_foldl_push_capped.
Qed.

End bounded_log.

(** ** Attaching a listener *)

Lemma received_replay (res : nat) (ls : list string) :
  ∀ (s : Server) (c : nat),
    received (foldl (λ st line, sseSend res (LogEvent line) st) s ls) c =
    if decide (c = res) then received s c ++ map LogEvent ls else received s c.
Proof.
  induction ls as [|x ls IH]; intros s c; simpl.
  - case_decide; [by rewrite app_nil_r|done].
  - rewrite IH, received_sseSend.
    destruct (decide (c = res)) as [->|Hne].
    + rewrite decide_True by done. by rewrite <- app_assoc.
    + by rewrite decide_False by done.
Qed.

Lemma handle_events_running (s : Server) (jobId : string) (job : Job) :
  jobs s !! jobId = Some job → done job = None →
  let s' := (handle_events jobId s).1 in
  (handle_events jobId s).2 = {| status := 200; body := EventStream (next_res s) |} ∧
  jobs s' = <[jobId := set_sseClients ({[next_res s]} ∪ sseClients job) job]> (jobs s) ∧
  (∀ c, received s' c =
        if decide (c = next_res s) then replay_of job else received s c) ∧
  ended s' = ended s ∧ next_res s' = S (next_res s) ∧
  files s' = files s ∧ children s' = children s.
Proof.
  intros Hjob Hdone. unfold handle_events. rewrite Hjob, Hdone. simpl.
  repeat split.
  - rewrite (foldl_preserves _ jobs); [|intros; reflexivity]. simpl.
    apply map_eq; intros k. rewrite lookup_alter, lookup_insert.
    case_decide; [by rewrite Hjob|done].
  - intros c. change (received (with_jobs ?f ?st) c) with (received st c).
    rewrite received_replay. unfold received at 1 2; simpl. rewrite lookup_insert.
    destruct (decide (c = next_res s)) as [->|Hne].
    + by rewrite decide_True by done.
    + by rewrite decide_False by done.
  - by rewrite (foldl_preserves _ ended); [|intros; reflexivity].
  - by rewrite (foldl_preserves _ next_res); [|intros; reflexivity].
  - by rewrite (foldl_preserves _ files); [|intros; reflexivity].
  - by rewrite (foldl_preserves _ children); [|intros; reflexivity].
Qed.

Lemma handle_events_terminal (s : Server) (jobId : string) (job : Job) (code : Z) :
  jobs s !! jobId = Some job → done job = Some code →
  let s' := (handle_events jobId s).1 in
  (handle_events jobId s).2 = {| status := 200; body := EventStream (next_res s) |} ∧
  jobs s' = jobs s ∧
  (∀ c, received s' c =
        if decide (c = next_res s) then replay_of job ++ [DoneEvent code]
        else received s c) ∧
  ended s' = {[next_res s]} ∪ ended s ∧ next_res s' = S (next_res s) ∧
  files s' = files s ∧ children s' = children s.
Proof.
  intros Hjob Hdone. unfold handle_events. rewrite Hjob, Hdone. simpl.
  repeat split.
  - by rewrite (foldl_preserves _ jobs); [|intros; reflexivity].
  - intros c. change (received (res_end ?r ?st) c) with (received st c).
    rewrite received_sseSend, received_replay.
    unfold received; simpl. rewrite lookup_insert.
    repeat case_decide; simplify_eq; done.
  - by rewrite (foldl_preserves _ ended); [|intros; reflexivity].
  - by rewrite (foldl_preserves _ next_res); [|intros; reflexivity].
  - by rewrite (foldl_preserves _ files); [|intros; reflexivity].
  - by rewrite (foldl_preserves _ children); [|intros; reflexivity].
Qed.

Lemma handle_events_unknown (s : Server) (jobId : string) :
  jobs s !! jobId = None →
  handle_events jobId s = (s, badRequest "Unknown jobId").
Proof. intros Hjob. unfold handle_events. by rewrite Hjob. Qed.

(** C4.  Attaching a listener to a running job that retains more than 250
    lines sends that listener exactly the last 250 retained lines, in their
    order, and registers it: a line appended afterwards arrives after the
    replay, the terminal event of the job arrives after it and is the end,
    and once the listener has detached nothing further reaches it. *)
Theorem attach_replays_last_250 (s : Server) (jobId : string) (job : Job) :
  jobs s !! jobId = Some job →
  done job = None →
  REPLAY_TAIL < length (lines job) →
  let res := next_res s in
  let replay :=
    map LogEvent (drop (length (lines job) - REPLAY_TAIL) (lines job)) in
  let s' := (handle_events jobId s).1 in
  (handle_events jobId s).2 = {| status := 200; body := EventStream res |} ∧
  received s' res = replay ∧
  length replay = REPLAY_TAIL ∧
  (∃ job', jobs s' !! jobId = Some job' ∧ res ∈ sseClients job') ∧
  (∀ line, received (jobAppend jobId line s') res = replay ++ [LogEvent line]) ∧
  (∀ code line,
     received (jobDone jobId code s') res = replay ++ [DoneEvent code] ∧
     received (jobAppend jobId line (jobDone jobId code s')) res =
       replay ++ [DoneEvent code]) ∧
  (∀ line,
     received (jobAppend jobId line (onRequestClose jobId res s')) res = replay).
Proof.
  intros Hjob Hdone Hlen res replay s'.
  destruct (handle_events_running s jobId job Hjob Hdone)
    as (Hresp & Hjobs & Hrecv & _).
  fold s' in Hjobs, Hrecv.
  assert (received s' res = replay) as Hres.
  { rewrite Hrecv. by rewrite decide_True by done. }
  assert (jobs s' !! jobId =
          Some (set_sseClients ({[res]} ∪ sseClients job) job)) as Hjob'.
  { by rewrite Hjobs, lookup_insert_eq. }
  split; [done|]. split; [done|]. split.
  { unfold replay. rewrite length_map, length_drop. lia. }
  split.
  { eexists. split; [done|]. simpl. set_solver. }
  split.
  { intros line. rewrite received_jobAppend, Hjob'. simpl.
    rewrite decide_True by set_solver. by rewrite Hres. }
  split.
  { intros code line.
    assert (received (jobDone jobId code s') res = replay ++ [DoneEvent code]) as Hd.
    { rewrite received_jobDone, Hjob'. simpl.
      rewrite decide_True by set_solver. by rewrite Hres. }
    split; [done|].
    rewrite received_jobAppend, jobs_jobDone, Hjob', lookup_insert_eq. simpl.
    by rewrite decide_False by set_solver. }
  intros line. rewrite received_jobAppend. unfold onRequestClose. simpl.
  rewrite lookup_alter, decide_True by done. rewrite Hjob'. simpl.
  rewrite decide_False by set_solver. done.
Qed.

(** ** The listener invariant *)

Lemma wf_initial : wf initial.
Proof.
  split; unfold attached; simpl; intros; try set_solver.
  all: repeat match goal with H : ∃ _, _ |- _ => destruct H end;
       destruct_and?; simplify_map_eq.
Qed.

Lemma attached_listeners (s : Server) (c : nat) :
  attached s c ↔ ∃ j, c ∈ listeners s j.
Proof.
  unfold attached, listeners. split.
  - intros (j & job & Hj & Hc). exists j. by rewrite Hj.
  - intros (j & Hc). destruct (jobs s !! j) as [job|] eqn:Hj; [|set_solver].
    by exists j, job.
Qed.

(** A transition that adds no listener, keeps the responses of the
    remaining listeners open and free of terminal events, and leaves
    finished jobs without listeners, preserves the invariant. *)
Lemma wf_shrink (s s' : Server) :
  wf s →
  next_res s ≤ next_res s' →
  (∀ j, listeners s' j ⊆ listeners s j) →
  (∀ c, attached s' c → c ∈ ended s' → c ∈ ended s) →
  (∀ c code, attached s' c →
             DoneEvent code ∈ received s' c → DoneEvent code ∈ received s c) →
  (∀ j job, jobs s' !! j = Some job → done job ≠ None → sseClients job = ∅) →
  (∀ c, c ∈ ended s' → c < next_res s') →
  wf s'.
Proof.
  intros [Hfresh Hopen Hnodone Huniq Hterm Hold] Hnext Hsub Hended Hrecv Hterm'
    Hold'.
  assert (∀ c, attached s' c → attached s c) as Hatt.
  { intros c. rewrite !attached_listeners. intros [j Hc]. exists j. by apply Hsub. }
  split.
  - intros c Hc. specialize (Hfresh c (Hatt c Hc)). lia.
  - intros c Hc Hin. by apply (Hopen c (Hatt c Hc)), Hended.
  - intros c code Hc Hin. by apply (Hnodone c code (Hatt c Hc)), Hrecv.
  - intros j1 j2 job1 job2 c Hj1 Hj2 Hc1 Hc2.
    pose proof (Hsub j1 c) as H1. pose proof (Hsub j2 c) as H2.
    unfold listeners in H1, H2. rewrite Hj1 in H1. rewrite Hj2 in H2.
    simpl in H1, H2. specialize (H1 Hc1). specialize (H2 Hc2).
    destruct (jobs s !! j1) as [job1'|] eqn:E1; [|set_solver].
    destruct (jobs s !! j2) as [job2'|] eqn:E2; [|set_solver].
    by apply (Huniq j1 j2 job1' job2' c).
  - done.
  - done.
Qed.

Lemma detached_shrink (s s' : Server) (c : nat) :
  detached s c →
  next_res s ≤ next_res s' →
  (∀ j, listeners s' j ⊆ listeners s j) →
  detached s' c.
Proof.
  intros [Hlt Hna] Hnext Hsub. split; [lia|].
  rewrite attached_listeners. intros [j Hc]. apply Hna.
  rewrite attached_listeners. exists j. by apply Hsub.
Qed.

Lemma listeners_jobAppend (jobId line : string) (s : Server) (j : string) :
  listeners (jobAppend jobId line s) j = listeners s j.
Proof.
  unfold listeners. rewrite jobs_jobAppend.
  destruct (jobs s !! jobId) as [job|] eqn:Hjob; [|done].
  rewrite lookup_insert. case_decide; [|done]. subst. by rewrite Hjob.
Qed.

Lemma listeners_jobDone (jobId : string) (code : Z) (s : Server) (j : string) :
  listeners (jobDone jobId code s) j =
  if decide (jobId = j) then ∅ else listeners s j.
Proof.
  unfold listeners. rewrite jobs_jobDone.
  destruct (jobs s !! jobId) as [job|] eqn:Hjob.
  - rewrite lookup_insert. by case_decide.
  - case_decide; [|done]. subst. by rewrite Hjob.
Qed.

Lemma ended_jobAppend (jobId line : string) (s : Server) :
  ended (jobAppend jobId line s) = ended s.
Proof.
  unfold jobAppend. destruct (jobs s !! jobId); [|done].
  by rewrite (foldl_preserves _ ended); [|intros; reflexivity].
Qed.

Lemma next_res_jobAppend (jobId line : string) (s : Server) :
  next_res (jobAppend jobId line s) = next_res s.
Proof.
  unfold jobAppend. destruct (jobs s !! jobId); [|done].
  by rewrite (foldl_preserves _ next_res); [|intros; reflexivity].
Qed.

Lemma files_jobAppend (jobId line : string) (s : Server) :
  files (jobAppend jobId line s) = files s.
Proof.
  unfold jobAppend. destruct (jobs s !! jobId); [|done].
  by rewrite (foldl_preserves _ files); [|intros; reflexivity].
Qed.

Lemma children_jobAppend (jobId line : string) (s : Server) :
  children (jobAppend jobId line s) = children s.
Proof.
  unfold jobAppend. destruct (jobs s !! jobId); [|done].
  by rewrite (foldl_preserves _ children); [|intros; reflexivity].
Qed.

Lemma ended_jobDone (jobId : string) (code : Z) (s : Server) (c : nat) :
  c ∈ ended (jobDone jobId code s) ↔ c ∈ listeners s jobId ∨ c ∈ ended s.
Proof.
  unfold jobDone, listeners. destruct (jobs s !! jobId) as [job|]; simpl.
  - rewrite ended_broadcast_end, elem_of_elements. done.
  - set_solver.
Qed.

Lemma next_res_jobDone (jobId : string) (code : Z) (s : Server) :
  next_res (jobDone jobId code s) = next_res s.
Proof.
  unfold jobDone. destruct (jobs s !! jobId); [|done]. simpl.
  by rewrite (foldl_preserves _ next_res); [|intros; reflexivity].
Qed.

Lemma files_jobDone (jobId : string) (code : Z) (s : Server) :
  files (jobDone jobId code s) = files s.
Proof.
  unfold jobDone. destruct (jobs s !! jobId); [|done]. simpl.
  by rewrite (foldl_preserves _ files); [|intros; reflexivity].
Qed.

Lemma children_jobDone (jobId : string) (code : Z) (s : Server) :
  children (jobDone jobId code s) = children s.
Proof.
  unfold jobDone. destruct (jobs s !! jobId); [|done]. simpl.
  by rewrite (foldl_preserves _ children); [|intros; reflexivity].
Qed.

Lemma wf_unique_listeners (s : Server) (c : nat) (j1 j2 : string) :
  wf s → c ∈ listeners s j1 → c ∈ listeners s j2 → j1 = j2.
Proof.
  intros Hwf. unfold listeners.
  destruct (jobs s !! j1) as [job1|] eqn:E1; [|set_solver].
  destruct (jobs s !! j2) as [job2|] eqn:E2; [|set_solver].
  simpl. by apply (wf_unique s Hwf j1 j2 job1 job2 c).
Qed.

Lemma listeners_lookup (s : Server) (j : string) (job : Job) :
  jobs s !! j = Some job → listeners s j = sseClients job.
Proof. intros Hj. unfold listeners. by rewrite Hj. Qed.

Lemma received_jobAppend_listeners (jobId line : string) (s : Server) (c : nat) :
  received (jobAppend jobId line s) c =
  if decide (c ∈ listeners s jobId) then received s c ++ [LogEvent line]
  else received s c.
Proof.
  rewrite received_jobAppend. unfold listeners.
  destruct (jobs s !! jobId); simpl; [done|].
  by rewrite decide_False by set_solver.
Qed.

Lemma received_jobDone_listeners (jobId : string) (code : Z) (s : Server) (c : nat) :
  received (jobDone jobId code s) c =
  if decide (c ∈ listeners s jobId) then received s c ++ [DoneEvent code]
  else received s c.
Proof.
  rewrite received_jobDone. unfold listeners.
  destruct (jobs s !! jobId); simpl; [done|].
  by rewrite decide_False by set_solver.
Qed.

Lemma wf_jobAppend (jobId line : string) (s : Server) :
  wf s → wf (jobAppend jobId line s).
Proof.
  intros Hwf. apply (wf_shrink s); [done|..].
  - by rewrite next_res_jobAppend.
  - intros j. by rewrite listeners_jobAppend.
  - intros c _. by rewrite ended_jobAppend.
  - intros c code _. rewrite received_jobAppend_listeners.
    case_decide; [|done]. rewrite elem_of_app, list_elem_of_singleton.
    by intros [?|?].
  - intros j job. rewrite jobs_jobAppend.
    destruct (jobs s !! jobId) as [job0|] eqn:Hjob; [|by apply wf_terminal].
    rewrite lookup_insert. case_decide as Heq; [subst j|by apply wf_terminal].
    intros [= <-]. simpl. by apply (wf_terminal s Hwf jobId).
  - intros c. rewrite ended_jobAppend, next_res_jobAppend. by apply wf_ended.
Qed.

Lemma wf_jobDone (jobId : string) (code : Z) (s : Server) :
  wf s → wf (jobDone jobId code s).
Proof.
  intros Hwf.
  assert (∀ c, attached (jobDone jobId code s) c → c ∉ listeners s jobId) as Hout.
  { intros c. rewrite attached_listeners. intros [j Hc] Hin.
    rewrite listeners_jobDone in Hc. case_decide; [set_solver|].
    by pose proof (wf_unique_listeners s c jobId j Hwf Hin Hc). }
  apply (wf_shrink s); [done|..].
  - by rewrite next_res_jobDone.
  - intros j. rewrite listeners_jobDone. case_decide; set_solver.
  - intros c Hatt. rewrite ended_jobDone. intros [Hin|Hin]; [|done].
    by destruct (Hout c Hatt).
  - intros c code' Hatt. rewrite received_jobDone_listeners.
    by rewrite decide_False by by apply Hout.
  - intros j job. rewrite jobs_jobDone.
    destruct (jobs s !! jobId) as [job0|] eqn:Hjob; [|by apply wf_terminal].
    rewrite lookup_insert. case_decide; [|by apply wf_terminal].
    by intros [= <-].
  - intros c. rewrite ended_jobDone, next_res_jobDone. intros [Hin|Hin].
    + apply (wf_fresh s Hwf). rewrite attached_listeners. eauto.
    + by apply wf_ended.
Qed.

Lemma detached_jobAppend (jobId line : string) (s : Server) (c : nat) :
  detached s c →
  detached (jobAppend jobId line s) c ∧
  received (jobAppend jobId line s) c = received s c.
Proof.
  intros Hd. split.
  - apply (detached_shrink s); [done|by rewrite next_res_jobAppend|].
    intros j. by rewrite listeners_jobAppend.
  - rewrite received_jobAppend_listeners. case_decide as Hin; [|done].
    destruct Hd as [_ Hna]. destruct Hna. rewrite attached_listeners. eauto.
Qed.

Lemma detached_jobDone (jobId : string) (code : Z) (s : Server) (c : nat) :
  detached s c →
  detached (jobDone jobId code s) c ∧
  received (jobDone jobId code s) c = received s c.
Proof.
  intros Hd. split.
  - apply (detached_shrink s); [done|by rewrite next_res_jobDone|].
    intros j. rewrite listeners_jobDone. case_decide; set_solver.
  - rewrite received_jobDone_listeners. case_decide as Hin; [|done].
    destruct Hd as [_ Hna]. destruct Hna. rewrite attached_listeners. eauto.
Qed.

(** The loop of [onData]. *)
Lemma wf_append_all (jobId : string) (ls : list string) (s : Server) :
  wf s → wf (foldl (λ st line, jobAppend jobId line st) s ls).
Proof.
  revert s. induction ls as [|x ls IH]; intros s Hwf; simpl; [done|].
  by apply IH, wf_jobAppend.
Qed.

Lemma detached_append_all (jobId : string) (ls : list string) (s : Server) (c : nat) :
  detached s c →
  detached (foldl (λ st line, jobAppend jobId line st) s ls) c ∧
  received (foldl (λ st line, jobAppend jobId line st) s ls) c = received s c.
Proof.
  revert s. induction ls as [|x ls IH]; intros s Hd; simpl; [done|].
  destruct (detached_jobAppend jobId x s c Hd) as [Hd' Hr'].
  destruct (IH _ Hd') as [Hd'' Hr'']. split; [done|congruence].
Qed.

(** Updates of the file system and of the list of children do not touch
    the listeners. *)
Lemma wf_same_listeners (s s' : Server) :
  jobs s' = jobs s → sse s' = sse s → ended s' = ended s →
  next_res s' = next_res s → wf s → wf s'.
Proof.
  intros Hj Hs He Hn [H1 H2 H3 H4 H5 H6].
  split; unfold attached, received in *; rewrite ?Hj, ?Hs, ?He, ?Hn; done.
Qed.

Lemma detached_same_listeners (s s' : Server) (c : nat) :
  jobs s' = jobs s → sse s' = sse s → next_res s' = next_res s →
  detached s c → detached s' c ∧ received s' c = received s c.
Proof.
  intros Hj Hs Hn [H1 H2]. unfold detached, attached, received in *.
  by rewrite Hj, Hs, Hn.
Qed.

Lemma listeners_alter (f : Job → Job) (jobId : string) (s : Server) (j : string) :
  listeners (with_jobs (alter f jobId) s) j =
  if decide (jobId = j) then from_option (λ job, sseClients (f job)) ∅ (jobs s !! j)
  else listeners s j.
Proof.
  unfold listeners; simpl. rewrite lookup_alter.
  case_decide; [subst|done]. by destruct (jobs s !! j).
Qed.

Lemma wf_onRequestClose (jobId : string) (res : nat) (s : Server) :
  wf s → wf (onRequestClose jobId res s).
Proof.
  intros Hwf. unfold onRequestClose. apply (wf_shrink s); try done.
  - intros j. rewrite listeners_alter. case_decide; [|done].
    unfold listeners. destruct (jobs s !! j); simpl; set_solver.
  - intros j job. simpl. rewrite lookup_alter. case_decide; [|by apply wf_terminal].
    subst. destruct (jobs s !! j) as [job0|] eqn:Hj; [|done].
    intros [= <-]. simpl. intros Hd.
    rewrite (wf_terminal s Hwf j job0 Hj Hd). set_solver.
  - apply (wf_ended s Hwf).
Qed.

Lemma detached_onRequestClose (jobId : string) (res : nat) (s : Server) (c : nat) :
  detached s c →
  detached (onRequestClose jobId res s) c ∧
  received (onRequestClose jobId res s) c = received s c.
Proof.
  intros Hd. split; [|done]. apply (detached_shrink s); [done..|].
  intros j. unfold onRequestClose. rewrite listeners_alter. case_decide; [|done].
  unfold listeners. destruct (jobs s !! j); simpl; set_solver.
Qed.

Lemma wf_handle_events (jobId : string) (s : Server) :
  wf s → wf (handle_events jobId s).1.
Proof.
  intros Hwf.
  destruct (jobs s !! jobId) as [job|] eqn:Hjob;
    [|by rewrite handle_events_unknown].
  assert (¬ attached s (next_res s)) as Hnew.
  { intros Hatt. pose proof (wf_fresh s Hwf _ Hatt). lia. }
  destruct (done job) as [code|] eqn:Hdone.
  - destruct (handle_events_terminal s jobId job code Hjob Hdone)
      as (_ & Hjobs & Hrecv & Hended & Hnext & _).
    assert (∀ c, attached (handle_events jobId s).1 c ↔ attached s c) as Hatt.
    { intros c. unfold attached. by rewrite Hjobs. }
    apply (wf_shrink s); [done|lia|..].
    + intros j. unfold listeners. by rewrite Hjobs.
    + intros c Hc. rewrite Hended. rewrite Hatt in Hc.
      rewrite elem_of_union, elem_of_singleton. intros [->|?]; [done|done].
    + intros c code' Hc. rewrite Hrecv. rewrite Hatt in Hc.
      case_decide; [by subst|done].
    + rewrite Hjobs. by apply wf_terminal.
    + intros c. rewrite Hended, Hnext, elem_of_union, elem_of_singleton.
      intros [->|Hc]; [lia|]. pose proof (wf_ended s Hwf c Hc). lia.
  - destruct (handle_events_running s jobId job Hjob Hdone)
      as (_ & Hjobs & Hrecv & Hended & Hnext & _).
    assert (∀ c j, c ∈ listeners (handle_events jobId s).1 j →
                   (c = next_res s ∧ j = jobId) ∨
                   (c ≠ next_res s ∧ c ∈ listeners s j)) as Hl.
    { intros c j. unfold listeners. rewrite Hjobs, lookup_insert.
      case_decide as Heq.
      - subst j. simpl. rewrite Hjob. simpl.
        rewrite elem_of_union, elem_of_singleton. intros [->|Hc]; [by left|].
        right. split; [|done]. intros ->. apply Hnew. by exists jobId, job.
      - intros Hc. right. split; [|done]. intros ->. apply Hnew.
        rewrite attached_listeners. eauto. }
    assert (∀ c, attached (handle_events jobId s).1 c →
                 c = next_res s ∨ (c ≠ next_res s ∧ attached s c)) as Hatt.
    { intros c. rewrite !attached_listeners. intros [j Hc].
      destruct (Hl c j Hc) as [[-> _]|[? ?]]; eauto. }
    split.
    + intros c Hc. rewrite Hnext. destruct (Hatt c Hc) as [->|[_ Hc']]; [lia|].
      pose proof (wf_fresh s Hwf c Hc'). lia.
    + intros c Hc. rewrite Hended. destruct (Hatt c Hc) as [->|[_ Hc']].
      * intros Hin. pose proof (wf_ended s Hwf _ Hin). lia.
      * by apply wf_open.
    + intros c code Hc. rewrite Hrecv. destruct (Hatt c Hc) as [->|[Hne Hc']].
      * rewrite decide_True by done. unfold replay_of.
        rewrite list_elem_of_fmap. by intros (? & ? & ?).
      * rewrite decide_False by done. by apply wf_no_done.
    + intros j1 j2 job1 job2 c Hj1 Hj2 Hc1 Hc2.
      rewrite <- (listeners_lookup _ _ _ Hj1) in Hc1.
      rewrite <- (listeners_lookup _ _ _ Hj2) in Hc2.
      destruct (Hl c j1 Hc1) as [[Hc Hj]|[Hne H1]];
        destruct (Hl c j2 Hc2) as [[Hc' Hj']|[Hne' H2]]; try congruence.
      by apply (wf_unique_listeners s c).
    + intros j job'. rewrite Hjobs, lookup_insert. case_decide.
      * intros [= <-]. simpl. by rewrite Hdone.
      * by apply wf_terminal.
    + intros c. rewrite Hended, Hnext. intros Hc.
      pose proof (wf_ended s Hwf c Hc). lia.
Qed.

Lemma detached_handle_events (jobId : string) (s : Server) (c : nat) :
  wf s → detached s c →
  detached (handle_events jobId s).1 c ∧
  received (handle_events jobId s).1 c = received s c.
Proof.
  intros Hwf [Hlt Hna].
  destruct (jobs s !! jobId) as [job|] eqn:Hjob;
    [|by rewrite handle_events_unknown].
  destruct (done job) as [code|] eqn:Hdone.
  - destruct (handle_events_terminal s jobId job code Hjob Hdone)
      as (_ & Hjobs & Hrecv & Hended & Hnext & _).
    split; [split|].
    + lia.
    + unfold attached. by rewrite Hjobs.
    + rewrite Hrecv. by rewrite decide_False by lia.
  - destruct (handle_events_running s jobId job Hjob Hdone)
      as (_ & Hjobs & Hrecv & Hended & Hnext & _).
    split; [split|].
    + lia.
    + rewrite attached_listeners. intros [j Hc]. apply Hna.
      rewrite attached_listeners. exists j. revert Hc.
      unfold listeners. rewrite Hjobs, lookup_insert. case_decide; [|done].
      subst j. rewrite Hjob. simpl. rewrite elem_of_union, elem_of_singleton.
      intros [->|?]; [lia|done].
    + rewrite Hrecv. by rewrite decide_False by lia.
Qed.

(** ** The download handler and the listeners *)

Lemma jobs_create_job (cfg : Config) (env : DownloadEnv) (s : Server) :
  jobs (create_job cfg env s) = <[env_jobId env := new_job cfg env]> (jobs s).
Proof.
  unfold create_job; simpl. apply map_eq; intros k.
  rewrite lookup_alter, !lookup_insert. by repeat case_decide; simplify_eq.
Qed.

Lemma sse_jobAppend_no_listeners (jobId line : string) (s : Server) :
  listeners s jobId = ∅ → sse (jobAppend jobId line s) = sse s.
Proof.
  unfold listeners, jobAppend. destruct (jobs s !! jobId) as [job|]; [|done].
  simpl. intros ->. by rewrite elements_empty.
Qed.

Lemma jobDone_no_listeners (jobId : string) (code : Z) (s : Server) :
  listeners s jobId = ∅ →
  sse (jobDone jobId code s) = sse s ∧ ended (jobDone jobId code s) = ended s.
Proof.
  unfold listeners, jobDone. destruct (jobs s !! jobId) as [job|]; [|done].
  simpl. intros ->. by rewrite elements_empty.
Qed.

Lemma adds_quiet_job_listeners (jobId : string) (s s' : Server) (j : string) :
  adds_quiet_job jobId s s' → listeners s' j ⊆ listeners s j.
Proof.
  intros (_ & _ & _ & [Hj|(job' & Hj & Hempty & _)]); unfold listeners; rewrite Hj.
  - done.
  - rewrite lookup_insert. case_decide; [|done]. simpl. set_solver.
Qed.

Lemma wf_adds_quiet_job (jobId : string) (s s' : Server) :
  adds_quiet_job jobId s s' → wf s → wf s'.
Proof.
  intros Hq Hwf. pose proof (λ j, adds_quiet_job_listeners jobId s s' j Hq) as Hsub.
  destruct Hq as (Hsse & Hended & Hnext & Hjobs).
  apply (wf_shrink s); [done|lia|done|..].
  - intros c _. by rewrite Hended.
  - intros c code _. unfold received. by rewrite Hsse.
  - destruct Hjobs as [Hj|(job' & Hj & Hempty & _)]; rewrite Hj.
    + by apply wf_terminal.
    + intros j job. rewrite lookup_insert. case_decide; [by intros [= <-]|].
      by apply wf_terminal.
  - rewrite Hended, Hnext. by apply wf_ended.
Qed.

Lemma detached_adds_quiet_job (jobId : string) (s s' : Server) (c : nat) :
  adds_quiet_job jobId s s' → detached s c →
  detached s' c ∧ received s' c = received s c.
Proof.
  intros Hq Hd. pose proof (λ j, adds_quiet_job_listeners jobId s s' j Hq) as Hsub.
  destruct Hq as (Hsse & Hended & Hnext & Hjobs). split.
  - apply (detached_shrink s); [done|lia|done].
  - unfold received. by rewrite Hsse.
Qed.

Lemma launch_throws (cfg : Config) (env : DownloadEnv) (jobId jobDir : string)
    (count : nat) (tmpListPath : option string) (args : list string)
    (s : Server) (job : Job) (message : string) :
  env_spawn env = SpawnThrows message →
  jobs s !! jobId = Some job →
  sseClients job = ∅ →
  let r := launch cfg env jobId jobDir count tmpListPath args s in
  r.1.2 = json 200 (DownloadBody jobId count None) ∧
  r.2 = args ∧
  jobs r.1.1 =
    <[jobId := failed_job job (launch_failure_line cfg message)]> (jobs s) ∧
  files r.1.1 = files (unlinkSync_quiet tmpListPath s) ∧
  children r.1.1 = children s ∧
  sse r.1.1 = sse s ∧ ended r.1.1 = ended s ∧ next_res r.1.1 = next_res s.
Proof.
  intros Hspawn Hjob Hempty. unfold launch. rewrite Hspawn. simpl.
  set (s0 := unlinkSync_quiet tmpListPath s).
  assert (jobs s0 = jobs s ∧ sse s0 = sse s ∧ ended s0 = ended s ∧
          next_res s0 = next_res s ∧ children s0 = children s)
    as (Hj0 & Hs0 & He0 & Hn0 & Hc0).
  { unfold s0. by destruct tmpListPath. }
  set (line := launch_failure_line cfg message).
  assert (listeners s0 jobId = ∅) as Hl0.
  { unfold listeners. by rewrite Hj0, Hjob. }
  assert (listeners (jobAppend jobId line s0) jobId = ∅) as Hl1.
  { by rewrite listeners_jobAppend. }
  destruct (jobDone_no_listeners jobId (-1) _ Hl1) as [Hs2 He2].
  repeat split.
  - rewrite jobs_jobDone, jobs_jobAppend, Hj0, Hjob, lookup_insert_eq.
    by rewrite insert_insert_eq.
  - by rewrite files_jobDone, files_jobAppend.
  - by rewrite children_jobDone, children_jobAppend.
  - by rewrite Hs2, sse_jobAppend_no_listeners.
  - by rewrite He2, ended_jobAppend.
  - by rewrite next_res_jobDone, next_res_jobAppend.
Qed.

Lemma launch_adds_quiet_job (cfg : Config) (env : DownloadEnv)
    (jobId jobDir : string) (count : nat) (tmpListPath : option string)
    (args : list string) (s : Server) (job : Job) :
  jobs s !! jobId = Some job → sseClients job = ∅ →
  adds_quiet_job jobId s (launch cfg env jobId jobDir count tmpListPath args s).1.1.
Proof.
  intros Hjob Hempty. destruct (env_spawn env) as [message|] eqn:Hspawn.
  - destruct (launch_throws cfg env jobId jobDir count tmpListPath args s job
                message Hspawn Hjob Hempty)
      as (_ & _ & Hjobs & _ & _ & Hsse & Hended & Hnext).
    repeat split; [done..|]. right. eexists. split; [done|]. split; [done|].
    simpl. rewrite push_capped_slice, length_slice_last. lia.
  - unfold launch. rewrite Hspawn. simpl. repeat split; by left.
Qed.

Lemma adds_quiet_job_trans (jobId : string) (s1 s2 s3 : Server) (job : Job) :
  sse s2 = sse s1 → ended s2 = ended s1 → next_res s2 = next_res s1 →
  jobs s2 = <[jobId := job]> (jobs s1) → sseClients job = ∅ →
  length (lines job) ≤ LOG_CAP →
  adds_quiet_job jobId s2 s3 → adds_quiet_job jobId s1 s3.
Proof.
  intros Hs He Hn Hj Hempty Hlen (Hs' & He' & Hn' & Hj').
  repeat split; [congruence..|]. right.
  destruct Hj' as [Hj'|(job' & Hj' & Hempty')].
  - exists job. split; [congruence|done].
  - exists job'. split; [|done]. by rewrite Hj', Hj, insert_insert_eq.
Qed.

Lemma handle_download_adds_quiet_job (cfg : Config) (env : DownloadEnv)
    (raw : RequestBody) (s : Server) :
  adds_quiet_job (env_jobId env) s (handle_download cfg env raw s).1.1.
Proof.
  assert (adds_quiet_job (env_jobId env) s s) as Hrefl by (repeat split; by left).
  destruct raw as [| |req]; simpl; [done..|].
  case_match; [done|].
  set (s1 := create_job cfg env s).
  assert (∀ fs s3, adds_quiet_job (env_jobId env) (with_files fs s1) s3 →
                   adds_quiet_job (env_jobId env) s s3) as Hvia.
  { intros fs s3. apply (adds_quiet_job_trans _ _ _ _ (new_job cfg env)); try done.
    - simpl. apply jobs_create_job.
    - simpl. lia. }
  assert (∀ fs count tmp args,
            adds_quiet_job (env_jobId env) s
              (check_cookies_and_launch cfg env req count tmp args
                 (with_files fs s1)).1.1) as Hcheck.
  { intros fs count tmp args. apply (Hvia fs).
    assert (jobs (with_files fs s1) !! env_jobId env = Some (new_job cfg env))
      as Hjob.
    { change (jobs (create_job cfg env s) !! env_jobId env = Some (new_job cfg env)).
      by rewrite jobs_create_job, lookup_insert_eq. }
    unfold check_cookies_and_launch.
    repeat case_match; simpl;
      first [ by eapply launch_adds_quiet_job | repeat split; by left ]. }
  case_match.
  - case_match.
    + simpl. apply (Hvia id). repeat split; by left.
    + apply (Hcheck _ _ _ _).
  - apply (Hcheck id).
Qed.

Lemma wf_handle_download (cfg : Config) (env : DownloadEnv) (raw : RequestBody)
    (s : Server) :
  wf s → wf (handle_download cfg env raw s).1.1.
Proof. apply wf_adds_quiet_job with (env_jobId env), handle_download_adds_quiet_job. Qed.

(** ** The invariant along a run *)

Lemma unlinkSync_quiet_same (p : option string) (s : Server) :
  jobs (unlinkSync_quiet p s) = jobs s ∧ sse (unlinkSync_quiet p s) = sse s ∧
  ended (unlinkSync_quiet p s) = ended s ∧
  next_res (unlinkSync_quiet p s) = next_res s ∧
  children (unlinkSync_quiet p s) = children s.
Proof. by destruct p. Qed.

Lemma wf_unlinkSync_quiet (p : option string) (s : Server) :
  wf s → wf (unlinkSync_quiet p s).
Proof.
  destruct (unlinkSync_quiet_same p s) as (? & ? & ? & ? & ?).
  by apply wf_same_listeners.
Qed.

Lemma detached_unlinkSync_quiet (p : option string) (s : Server) (c : nat) :
  detached s c →
  detached (unlinkSync_quiet p s) c ∧
  received (unlinkSync_quiet p s) c = received s c.
Proof.
  destruct (unlinkSync_quiet_same p s) as (? & ? & ? & ? & ?).
  by apply detached_same_listeners.
Qed.

Lemma wf_step (cfg : Config) (s : Server) (e : Event) :
  wf s → wf (step cfg s e).
Proof.
  intros Hwf. destruct e as [env raw|jobId|jobId res|pid chunk|pid code msg|pid code];
    simpl.
  - by apply wf_handle_download.
  - by apply wf_handle_events.
  - by apply wf_onRequestClose.
  - destruct (children s !! pid); [|done]. by apply wf_append_all.
  - destruct (children s !! pid); [|done].
    by apply wf_jobDone, wf_jobAppend, wf_unlinkSync_quiet.
  - destruct (children s !! pid); [|done].
    by apply wf_jobDone, wf_unlinkSync_quiet.
Qed.

Lemma wf_run (cfg : Config) (es : list Event) (s : Server) :
  wf s → wf (run cfg s es).
Proof.
  revert s. induction es as [|e es IH]; intros s Hwf; simpl; [done|].
  by apply IH, wf_step.
Qed.

(** Nothing is ever written again to a response that is attached nowhere. *)
Lemma detached_step (cfg : Config) (s : Server) (e : Event) (c : nat) :
  wf s → detached s c →
  detached (step cfg s e) c ∧ received (step cfg s e) c = received s c.
Proof.
  intros Hwf Hd.
  destruct e as [env raw|jobId|jobId res|pid chunk|pid code msg|pid code];
    simpl.
  - apply (detached_adds_quiet_job (env_jobId env)); [|done].
    apply handle_download_adds_quiet_job.
  - by apply detached_handle_events.
  - by apply detached_onRequestClose.
  - destruct (children s !! pid); [|done]. by apply detached_append_all.
  - destruct (children s !! pid) as [ch|]; [|done]. unfold onError.
    destruct (detached_unlinkSync_quiet (child_tmpListPath ch) s c Hd) as [H1 E1].
    destruct (detached_jobAppend (child_jobId ch)
                (Js.trim ("yt-dlp spawn error: " +:+ code +:+ " " +:+ msg))
                _ c H1) as [H2 E2].
    destruct (detached_jobDone (child_jobId ch) (-1) _ c H2) as [H3 E3].
    split; [done|congruence].
  - destruct (children s !! pid) as [ch|]; [|done]. unfold onClose.
    destruct (detached_unlinkSync_quiet (child_tmpListPath ch) s c Hd) as [H1 E1].
    destruct (detached_jobDone (child_jobId ch) (default (-1)%Z code) _ c H1)
      as [H2 E2].
    split; [done|congruence].
Qed.

Lemma detached_run (cfg : Config) (es : list Event) (s : Server) (c : nat) :
  wf s → detached s c →
  detached (run cfg s es) c ∧ received (run cfg s es) c = received s c.
Proof.
  revert s. induction es as [|e es IH]; intros s Hwf Hd; simpl; [done|].
  destruct (detached_step cfg s e c Hwf Hd) as [Hd' Hr'].
  destruct (IH _ (wf_step cfg s e Hwf) Hd') as [Hd'' Hr'']. split; [done|congruence].
Qed.

(** ** Completion *)

Lemma filter_no_done (l : list SseEvent) :
  (∀ code, DoneEvent code ∉ l) → List.filter is_done_event l = [].
Proof.
  induction l as [|ev l IH]; intros Hno; simpl; [done|].
  destruct ev as [line|code]; simpl.
  - apply IH. intros code Hin. apply (Hno code). by right.
  - destruct (Hno code). by left.
Qed.

(** C2.  When [jobDone] runs for a job, every listener attached at that
    moment is sent one terminal event with the exit code, after everything
    it was sent before, and its response is ended; whatever the server does
    afterwards, nothing further is written to that listener, so the
    terminal event is the only one it receives and the last event it
    receives.  A line appended to the job after completion is written to
    no response at all. *)
Theorem terminal_event_is_last (cfg : Config) (s : Server) (jobId : string)
    (job : Job) (exitCode : Z) (c : nat) (later : list Event) :
  wf s →
  jobs s !! jobId = Some job →
  c ∈ sseClients job →
  let s1 := jobDone jobId exitCode s in
  let s2 := run cfg s1 later in
  received s2 c = received s c ++ [DoneEvent exitCode] ∧
  List.filter is_done_event (received s2 c) = [DoneEvent exitCode] ∧
  last (received s2 c) = Some (DoneEvent exitCode) ∧
  c ∈ ended s1 ∧
  (∀ line, sse (jobAppend jobId line s1) = sse s1) ∧
  (∀ line job2, jobs s2 !! jobId = Some job2 → done job2 ≠ None →
                sse (jobAppend jobId line s2) = sse s2).
Proof.
  intros Hwf Hjob Hc s1 s2.
  assert (c ∈ listeners s jobId) as Hl by by rewrite (listeners_lookup s jobId job).
  assert (attached s c) as Hatt by by exists jobId, job.
  assert (wf s1) as Hwf1 by by apply wf_jobDone.
  assert (received s1 c = received s c ++ [DoneEvent exitCode]) as Hr1.
  { unfold s1. rewrite received_jobDone_listeners. by rewrite decide_True. }
  assert (detached s1 c) as Hd1.
  { split.
    - unfold s1. rewrite next_res_jobDone. by apply wf_fresh.
    - rewrite attached_listeners. intros [j Hj]. unfold s1 in Hj.
      rewrite listeners_jobDone in Hj. case_decide; [set_solver|].
      by pose proof (wf_unique_listeners s c jobId j Hwf Hl Hj). }
  destruct (detached_run cfg later s1 c Hwf1 Hd1) as [_ Hr2]. fold s2 in Hr2.
  assert (received s2 c = received s c ++ [DoneEvent exitCode]) as Hr by congruence.
  split; [done|]. rewrite Hr. split.
  { rewrite List.filter_app, filter_no_done; [done|].
    intros code. by apply wf_no_done. }
  split; [by rewrite last_snoc|]. split.
  { unfold s1. rewrite ended_jobDone. by left. }
  split.
  { intros line. apply sse_jobAppend_no_listeners. unfold s1.
    rewrite listeners_jobDone. by rewrite decide_True. }
  intros line job2 Hjob2 Hdone2. apply sse_jobAppend_no_listeners.
  rewrite (listeners_lookup s2 jobId job2 Hjob2).
  by apply (wf_terminal s2 (wf_run cfg later s1 Hwf1) jobId).
Qed.

(** ** Trimming keeps a leading text that neither starts nor ends in white
    space *)

Lemma startsWith_app (p s : string) : Js.startsWith p (p +:+ s) = true.
Proof.
  induction p as [|a p IH]; simpl; [done|].
  by rewrite bool_decide_eq_true_2, IH.
Qed.

Lemma ascii_is_solid_or_space (c : ascii) :
  (nat_of_ascii c <? 128) = true → Ascii.is_space c = false → solid c = true.
Proof. intros Hc Hs. unfold solid. by rewrite Hs, Hc. Qed.

Lemma solid_starts_no_space (c : ascii) :
  solid c = true →
  Ascii.is_space c = false ∧
  (∀ d, Js.space2 c d = false) ∧ (∀ d e, Js.space3 c d e = false).
Proof.
  intros H.
  destruct c as [[] [] [] [] [] [] [] []]; vm_compute in H; try discriminate;
    (split; [reflexivity|split; intros; reflexivity]).
Qed.

Lemma all_space_solid (c : ascii) (s : string) :
  solid c = true → Js.all_space (String c s) = false.
Proof.
  intros H. destruct (solid_starts_no_space c H) as (Hs & H2 & H3).
  destruct s as [|d [|e r]]; cbn [Js.all_space]; rewrite Hs; [done|..].
  - by rewrite H2.
  - by rewrite H2, H3.
Qed.

Lemma trimStart_solid (c : ascii) (s : string) :
  solid c = true → Js.trimStart (String c s) = String c s.
Proof.
  intros H. destruct (solid_starts_no_space c H) as (Hs & H2 & H3).
  destruct s as [|d [|e r]]; cbn [Js.trimStart]; rewrite Hs; [done|..].
  - by rewrite H2.
  - by rewrite H2, H3.
Qed.

Lemma all_space_ascii_prefix (p : string) (last : ascii) (s : string) :
  ascii_text p = true → solid last = true →
  Js.all_space (p +:+ String last s) = false.
Proof.
  intros Hp Hlast. induction p as [|c p IH]; [by apply all_space_solid|].
  unfold ascii_text in *. simpl in Hp. apply andb_prop in Hp as [Hc Hp].
  change (String c p +:+ String last s) with (String c (p +:+ String last s)).
  destruct (Ascii.is_space c) eqn:Hspace.
  - transitivity (Js.all_space (p +:+ String last s)); [|by apply IH].
    generalize (p +:+ String last s). intros rest.
    cbn [Js.all_space]. by rewrite Hspace.
  - by apply all_space_solid, ascii_is_solid_or_space.
Qed.

Lemma trimEnd_ascii_prefix (p : string) (last : ascii) (s : string) :
  ascii_text p = true → solid last = true →
  Js.trimEnd (p +:+ String last s) = p +:+ String last (Js.trimEnd s).
Proof.
  intros Hp Hlast. induction p as [|c p IH].
  - change (Js.trimEnd (String last s) = String last (Js.trimEnd s)).
    cbn [Js.trimEnd]. by rewrite all_space_solid.
  - pose proof (all_space_ascii_prefix (String c p) last s Hp Hlast) as Hno.
    unfold ascii_text in *. simpl in Hp. apply andb_prop in Hp as [Hc Hp].
    change (String c p +:+ String last s) with (String c (p +:+ String last s)) in *.
    change (String c p +:+ String last (Js.trimEnd s))
      with (String c (p +:+ String last (Js.trimEnd s))).
    cbn [Js.trimEnd]. rewrite Hno. by rewrite (IH Hp).
Qed.

Lemma launch_failure_line_descriptive (cfg : Config) (message : string) :
  Js.startsWith "Failed to start yt-dlp (" (launch_failure_line cfg message) = true.
Proof.
  unfold launch_failure_line, Js.trim.
  set (rest := ytDlpCommand cfg +:+ "). Set YTDLP_BIN to full path. " +:+ message).
  change ("Failed to start yt-dlp (" +:+ rest)
    with (String "F" ("ailed to start yt-dlp (" +:+ rest)).
  rewrite trimStart_solid by reflexivity.
  change (String "F" ("ailed to start yt-dlp (" +:+ rest))
    with ("Failed to start yt-dlp " +:+ String "(" rest).
  rewrite trimEnd_ascii_prefix by reflexivity.
  change ("Failed to start yt-dlp " +:+ String "(" (Js.trimEnd rest))
    with ("Failed to start yt-dlp (" +:+ Js.trimEnd rest).
  apply startsWith_app.
Qed.

(** ** The paths through the download handler *)

Lemma handle_download_reaches_check (cfg : Config) (env : DownloadEnv)
    (req : DownloadRequest) (s : Server) :
  has_target req → list_written env req →
  handle_download cfg env (BodyJson req) s =
  check_cookies_and_launch cfg env req (request_count req)
    (request_tmp cfg env req) (request_args cfg env req)
    (state_at_check cfg env req s).
Proof.
  intros Htarget Hwritten.
  unfold handle_download, request_count, request_tmp, request_args, state_at_check.
  fold (validIds_of req). fold (is_bulk req).
  assert (negb (is_bulk req) && negb (Js.truthy (Js.trim (req_url req))) = false)
    as ->.
  { destruct Htarget as [->|Hurl]; [done|].
    unfold Js.truthy. rewrite (bool_decide_eq_false_2 _ Hurl). simpl.
    by rewrite andb_false_r. }
  destruct (is_bulk req) eqn:Hbulk; [|done].
  by rewrite (Hwritten Hbulk).
Qed.

Lemma jobs_state_at_check (cfg : Config) (env : DownloadEnv)
    (req : DownloadRequest) (s : Server) :
  jobs (state_at_check cfg env req s) =
  <[env_jobId env := new_job cfg env]> (jobs s).
Proof.
  unfold state_at_check. destruct (is_bulk req); apply jobs_create_job.
Qed.

Lemma check_cookies_accepted (cfg : Config) (env : DownloadEnv)
    (req : DownloadRequest) (count : nat) (tmp : option string)
    (args : list string) (s : Server) :
  cookies_accepted req →
  ∃ args', check_cookies_and_launch cfg env req count tmp args s =
           launch cfg env (env_jobId env) (job_dir cfg (env_jobId env)) count tmp
             args' s.
Proof.
  unfold cookies_accepted, check_cookies_and_launch.
  destruct (req_cookiesFromBrowser req) as [cookie|]; [|by eauto].
  intros [->|Hin]; [by eauto|].
  destruct (Js.truthy cookie); [|by eauto].
  rewrite (bool_decide_eq_true_2 _ Hin). by eauto.
Qed.

Lemma check_cookies_rejected (cfg : Config) (env : DownloadEnv)
    (req : DownloadRequest) (count : nat) (tmp : option string)
    (args : list string) (s : Server) (cookie : string) :
  req_cookiesFromBrowser req = Some cookie → cookie ≠ "" →
  cookie ∉ COOKIE_BROWSERS →
  check_cookies_and_launch cfg env req count tmp args s =
  (s, badRequest "cookiesFromBrowser must be one of: chrome, edge, firefox", args).
Proof.
  intros Hc Hne Hout. unfold check_cookies_and_launch. rewrite Hc.
  unfold Js.truthy. rewrite (bool_decide_eq_false_2 _ Hne). simpl.
  by rewrite (bool_decide_eq_false_2 _ Hout).
Qed.

(** C8.  When an accepted download request reaches the launch and the
    spawn call throws, the response is still 200 and carries the job id;
    the job holds the failure line as its log, is terminal with exit code
    -1, and the temporary id list of a bulk request is gone.  The failure line starts with
    the text that names the failed launch. *)
Theorem launch_failure_is_reported_in_the_job (cfg : Config) (env : DownloadEnv)
    (req : DownloadRequest) (s : Server) (message : string) :
  has_target req →
  list_written env req →
  cookies_accepted req →
  env_spawn env = SpawnThrows message →
  let r := handle_download cfg env (BodyJson req) s in
  let jobId := env_jobId env in
  r.1.2 = {| status := 200;
             body := DownloadBody jobId (request_count req) None |} ∧
  (∃ job, jobs r.1.1 !! jobId = Some job ∧
          lines job = [launch_failure_line cfg message] ∧
          done job = Some (-1)%Z) ∧
  Js.startsWith "Failed to start yt-dlp (" (launch_failure_line cfg message) = true ∧
  (is_bulk req = true → files r.1.1 !! tmp_list_path cfg jobId = None) ∧
  children r.1.1 = children s.
Proof.
  intros Htarget Hwritten Hcookies Hspawn r jobId. subst r jobId.
  rewrite (handle_download_reaches_check cfg env req s Htarget Hwritten).
  destruct (check_cookies_accepted cfg env req (request_count req)
              (request_tmp cfg env req) (request_args cfg env req)
              (state_at_check cfg env req s) Hcookies) as [args' ->].
  assert (jobs (state_at_check cfg env req s) !! env_jobId env =
          Some (new_job cfg env))
    as Hjob by by rewrite jobs_state_at_check, lookup_insert_eq.
  destruct (launch_throws cfg env (env_jobId env) (job_dir cfg (env_jobId env))
              (request_count req) (request_tmp cfg env req) args'
              (state_at_check cfg env req s) (new_job cfg env) message
              Hspawn Hjob eq_refl)
    as (Hresp & _ & Hjobs & Hfiles & Hchildren & _).
  split; [done|]. split.
  { eexists. split; [by rewrite Hjobs, lookup_insert_eq|]. done. }
  split; [apply launch_failure_line_descriptive|]. split.
  - intros Hbulk. rewrite Hfiles. unfold request_tmp. rewrite Hbulk. simpl.
    apply lookup_delete_eq.
  - rewrite Hchildren. unfold state_at_check. by destruct (is_bulk req).
Qed.

(** ** A job nobody will ever complete *)

Lemma running_jobAppend (jobId line : string) (s : Server) (j : string) :
  running s j → running (jobAppend jobId line s) j.
Proof.
  intros (job & Hjob & Hdone). unfold running. rewrite jobs_jobAppend.
  destruct (jobs s !! jobId) as [job0|] eqn:Hjob0; [|by eauto].
  rewrite lookup_insert. case_decide; [|by eauto].
  subst j. eexists. split; [done|]. simpl. congruence.
Qed.

Lemma running_append_all (jobId : string) (ls : list string) (s : Server)
    (j : string) :
  running s j → running (foldl (λ st line, jobAppend jobId line st) s ls) j.
Proof.
  revert s. induction ls as [|x ls IH]; intros s Hr; simpl; [done|].
  by apply IH, running_jobAppend.
Qed.

Lemma children_append_all (jobId : string) (ls : list string) (s : Server) :
  children (foldl (λ st line, jobAppend jobId line st) s ls) = children s.
Proof.
  revert s. induction ls as [|x ls IH]; intros s; simpl; [done|].
  by rewrite IH, children_jobAppend.
Qed.

Lemma running_jobDone (jobId : string) (code : Z) (s : Server) (j : string) :
  jobId ≠ j → running s j → running (jobDone jobId code s) j.
Proof.
  intros Hne (job & Hjob & Hdone). unfold running. rewrite jobs_jobDone.
  destruct (jobs s !! jobId) as [job0|]; [|by eauto].
  rewrite lookup_insert_ne by done. by eauto.
Qed.

Lemma running_alter (f : Job → Job) (jobId : string) (s : Server) (j : string) :
  (∀ job, done (f job) = done job) →
  running s j → running (with_jobs (alter f jobId) s) j.
Proof.
  intros Hf (job & Hjob & Hdone). unfold running. simpl. rewrite lookup_alter.
  case_decide; [|by eauto]. subst j. rewrite Hjob. simpl.
  eexists. split; [done|]. by rewrite Hf.
Qed.

Lemma running_handle_events (jobId : string) (s : Server) (j : string) :
  running s j → running (handle_events jobId s).1 j.
Proof.
  intros Hr.
  destruct (jobs s !! jobId) as [job|] eqn:Hjob;
    [|by rewrite handle_events_unknown].
  destruct (done job) as [code|] eqn:Hdone.
  - destruct (handle_events_terminal s jobId job code Hjob Hdone)
      as (_ & Hjobs & _).
    unfold running. by rewrite Hjobs.
  - destruct (handle_events_running s jobId job Hjob Hdone) as (_ & Hjobs & _).
    destruct Hr as (job1 & Hjob1 & Hdone1). unfold running. rewrite Hjobs.
    rewrite lookup_insert. case_decide; [|by eauto].
    subst j. eexists. split; [done|]. done.
Qed.

Lemma children_handle_events (jobId : string) (s : Server) :
  children (handle_events jobId s).1 = children s.
Proof.
  destruct (jobs s !! jobId) as [job|] eqn:Hjob;
    [|by rewrite handle_events_unknown].
  destruct (done job) as [code|] eqn:Hdone.
  - destruct (handle_events_terminal s jobId job code Hjob Hdone)
      as (_ & _ & _ & _ & _ & _ & Hc). exact Hc.
  - destruct (handle_events_running s jobId job Hjob Hdone)
      as (_ & _ & _ & _ & _ & _ & Hc). exact Hc.
Qed.

Lemma running_handle_download (cfg : Config) (env : DownloadEnv)
    (raw : RequestBody) (s : Server) (j : string) :
  env_jobId env ≠ j → running s j → running (handle_download cfg env raw s).1.1 j.
Proof.
  intros Hne (job & Hjob & Hdone).
  destruct (handle_download_adds_quiet_job cfg env raw s)
    as (_ & _ & _ & [Hj|(job' & Hj & _)]); unfold running; rewrite Hj.
  - by eauto.
  - rewrite lookup_insert_ne by done. by eauto.
Qed.

Lemma children_launch (cfg : Config) (env : DownloadEnv) (jobId jobDir : string)
    (count : nat) (tmp : option string) (args : list string) (s : Server)
    (ch : Child) :
  ch ∈ children (launch cfg env jobId jobDir count tmp args s).1.1 →
  ch ∈ children s ∨ child_jobId ch = jobId.
Proof.
  unfold launch. destruct (env_spawn env); simpl.
  - rewrite children_jobDone, children_jobAppend.
    destruct tmp; simpl; by left.
  - rewrite elem_of_app, list_elem_of_singleton. intros [? | ->]; [by left|by right].
Qed.

Lemma children_handle_download (cfg : Config) (env : DownloadEnv)
    (raw : RequestBody) (s : Server) (ch : Child) :
  ch ∈ children (handle_download cfg env raw s).1.1 →
  ch ∈ children s ∨ child_jobId ch = env_jobId env.
Proof.
  destruct raw as [| |req]; simpl; [by left..|].
  case_match; [by left|].
  assert (∀ count tmp args s1,
            children s1 = children s →
            ch ∈ children
                   (check_cookies_and_launch cfg env req count tmp args s1).1.1 →
            ch ∈ children s ∨ child_jobId ch = env_jobId env) as Hcheck.
  { intros count tmp args s1 Hs1. unfold check_cookies_and_launch.
    repeat case_match; simpl; rewrite <- ?Hs1;
      first [ apply children_launch | by left ]. }
  case_match.
  - case_match; [by left|]. by apply Hcheck.
  - by apply Hcheck.
Qed.

Lemma orphan_step (cfg : Config) (s : Server) (e : Event) (j : string) :
  ¬ reuses_id j e →
  running s j → no_child_of s j →
  running (step cfg s e) j ∧ no_child_of (step cfg s e) j.
Proof.
  intros Hfresh Hr Hnc.
  destruct e as [env raw|jobId|jobId res|pid chunk|pid code msg|pid code];
    simpl in *.
  - split; [by apply running_handle_download|].
    intros ch Hch. destruct (children_handle_download _ _ _ _ _ Hch) as [? | ->];
      [by apply Hnc|done].
  - split; [by apply running_handle_events|].
    unfold no_child_of. by rewrite children_handle_events.
  - split; [|done]. by apply running_alter.
  - destruct (children s !! pid) as [ch|]; [|done]. unfold onData. split.
    + by apply running_append_all.
    + unfold no_child_of. by rewrite children_append_all.
  - destruct (children s !! pid) as [ch|] eqn:Hch; [|done]. unfold onError.
    assert (child_jobId ch ≠ j) as Hne.
    { apply Hnc. by apply list_elem_of_lookup_2 in Hch. }
    split.
    + apply running_jobDone; [done|]. apply running_jobAppend.
      destruct (child_tmpListPath ch); exact Hr.
    + unfold no_child_of. rewrite children_jobDone, children_jobAppend.
      by destruct (child_tmpListPath ch).
  - destruct (children s !! pid) as [ch|] eqn:Hch; [|done]. unfold onClose.
    assert (child_jobId ch ≠ j) as Hne.
    { apply Hnc. by apply list_elem_of_lookup_2 in Hch. }
    split.
    + apply running_jobDone; [done|]. destruct (child_tmpListPath ch); exact Hr.
    + unfold no_child_of. rewrite children_jobDone.
      by destruct (child_tmpListPath ch).
Qed.

Lemma orphan_run (cfg : Config) (es : list Event) (s : Server) (j : string) :
  Forall (λ e, ¬ reuses_id j e) es →
  running s j → no_child_of s j →
  running (run cfg s es) j ∧ no_child_of (run cfg s es) j.
Proof.
  intros Hes. revert s. induction Hes as [|e es He Hes IH]; intros s Hr Hnc;
    simpl; [done|].
  destruct (orphan_step cfg s e j He Hr Hnc) as [Hr' Hnc']. by apply IH.
Qed.

(** C10.  A download request that names a target and whose cookie source
    is present but none of chrome, edge and firefox is answered with 400;
    by then the new job is in the map (so a map without that id has
    changed), the temporary id list of a bulk request is in the file
    system, and no child was spawned.  As long as the runtime does not
    hand out the same job id again, the job stays in the map without a
    terminal result through everything the server does afterwards. *)
Theorem cookie_rejection_leaves_orphan_job (cfg : Config) (env : DownloadEnv)
    (req : DownloadRequest) (s : Server) (cookie : string) (later : list Event) :
  has_target req →
  list_written env req →
  req_cookiesFromBrowser req = Some cookie →
  cookie ≠ "" →
  cookie ∉ COOKIE_BROWSERS →
  no_child_of s (env_jobId env) →
  Forall (λ e, ¬ reuses_id (env_jobId env) e) later →
  let r := handle_download cfg env (BodyJson req) s in
  let jobId := env_jobId env in
  r.1.2 = {| status := 400;
             body := ErrorBody
               "cookiesFromBrowser must be one of: chrome, edge, firefox" |} ∧
  jobs r.1.1 !! jobId = Some (new_job cfg env) ∧
  (jobs s !! jobId = None → jobs r.1.1 ≠ jobs s) ∧
  (is_bulk req = true →
   files r.1.1 !! tmp_list_path cfg jobId =
     Some (FsFile (urls_list (validIds_of req)))) ∧
  children r.1.1 = children s ∧
  running (run cfg r.1.1 later) jobId.
Proof.
  intros Htarget Hwritten Hcookie Hne Hout Hnc Hlater r jobId. subst r jobId.
  rewrite (handle_download_reaches_check cfg env req s Htarget Hwritten).
  rewrite (check_cookies_rejected cfg env req _ _ _ _ cookie Hcookie Hne Hout).
  simpl.
  assert (jobs (state_at_check cfg env req s) !! env_jobId env =
          Some (new_job cfg env))
    as Hjob by by rewrite jobs_state_at_check, lookup_insert_eq.
  assert (children (state_at_check cfg env req s) = children s) as Hch.
  { unfold state_at_check. by destruct (is_bulk req). }
  split; [done|]. split; [done|]. split.
  { intros Hnone Heq. rewrite Heq in Hjob. congruence. }
  split.
  { intros Hbulk. unfold state_at_check. rewrite Hbulk. simpl.
    apply lookup_insert_eq. }
  split; [done|].
  apply orphan_run; [done| |].
  - by exists (new_job cfg env).
  - unfold no_child_of. by rewrite Hch.
Qed.

(** ** The file routes *)

Lemma replace_class_safe (s : string) :
  Js.all_chars (λ c, negb (unsafe_char c))
               (Js.replace_class unsafe_char "_"%char s) = true.
Proof.
  induction s as [|c s IH]; simpl; [done|].
  rewrite IH, andb_true_r. by destruct (unsafe_char c) eqn:Hc; [|rewrite Hc].
Qed.

(** The sanitised name holds no separator and no control character. *)
Lemma safeBasename_no_unsafe_char (name : string) :
  Js.all_chars (λ c, negb (unsafe_char c)) (safeBasename name) = true.
Proof. apply replace_class_safe. Qed.

(** C1.  The request for the name [x/..] (sent as x%2F..) to the job of an
    accepted download: the sanitised name is the dot-dot segment, the path
    the handler resolves is the parent of the job directory, which exists
    and is not inside the job directory, and the handler answers 200 with a
    stream of that path instead of 404. *)
Theorem file_route_resolves_parent_directory :
  route_id Sample.jobId = true ∧
  downloadsDir <$> jobs Sample.started !! Sample.jobId = Some (Some Sample.jobDir) ∧
  safeBasename "x/.." = ".." ∧
  path.join [Sample.jobDir; ".."] = "/home/u/Downloads/ytdlp-ui" ∧
  inside Sample.jobDir "/home/u/Downloads/ytdlp-ui" = false ∧
  existsSync "/home/u/Downloads/ytdlp-ui" Sample.started = true ∧
  handle_file Sample.jobId "x/.." Sample.started =
    {| status := 200; body := FileStream "/home/u/Downloads/ytdlp-ui" ".." |}.
Proof. vm_compute. repeat split; reflexivity. Qed.

(** C7, as the claim has it: an unknown job id is not answered with 200. *)
Lemma files_unknown_job_is_not_200 :
  jobs initial !! "deadbeef" = None ∧
  ¬ (status (get_files "deadbeef" initial) = 200 ∧
     body (get_files "deadbeef" initial) = FilesBody [] (Some [])).
Proof. split; [done|]. vm_compute. by intros [? _]. Qed.

(** C7, amended.  A job id that is not in the registry is answered with
    400 and the error text for an unknown job; a job of the registry whose
    directory cannot be read is answered with 200 and empty lists of files
    and of download links. *)
Theorem files_unknown_job_is_bad_request (s : Server) (jobId : string) :
  route_id jobId = true →
  (jobs s !! jobId = None →
   get_files jobId s = {| status := 400; body := ErrorBody "Unknown jobId" |}) ∧
  (∀ job dir,
     jobs s !! jobId = Some job → downloadsDir job = Some dir →
     readdirSync dir s = None →
     get_files jobId s = {| status := 200; body := FilesBody [] (Some []) |}).
Proof.
  intros Hroute. unfold get_files, handle_files. rewrite Hroute. split.
  - by intros ->.
  - intros job dir -> -> ->. done.
Qed.

(** ** The argument list of a video-only request *)

(** The handler never reads the field. *)
Lemma handle_download_ignores_videoOnly (cfg : Config) (env : DownloadEnv)
    (req : DownloadRequest) (b : bool) (s : Server) :
  handle_download cfg env (BodyJson (with_videoOnly b req)) s =
  handle_download cfg env (BodyJson req) s.
Proof. reflexivity. Qed.

(** C5.  The request of the repository's test, video only at quality 720:
    the argument list handed to the spawn holds the selector with the
    best-audio combinator and the merge flag, and no remux flag. *)
Theorem video_only_args_keep_bestaudio :
  let r := handle_download Sample.cfg (Sample.env SpawnReturns)
             (BodyJson Sample.video_only_720) initial in
  status r.1.2 = 200 ∧
  r.2 = ["-i"; "--yes-playlist"; "--newline"; "--no-warnings";
         "--download-archive"; "/home/u/Downloads/ytdlp-ui/.ytdlp-archive.txt";
         "-P"; "/home/u/Downloads/ytdlp-ui/ab12cd34ef567890";
         "-o"; "%(upload_date)s - %(title)s [%(id)s].%(ext)s";
         "--merge-output-format"; "mp4";
         "-f"; "bestvideo[height<=720]+bestaudio/best[height<=720]";
         "https://example.com/watch?v=f4g1xtyY3uo"] ∧
  existsb (Js.includes "+bestaudio") r.2 = true ∧
  existsb (String.eqb "--remux-video") r.2 = false.
Proof. vm_compute. repeat split; reflexivity. Qed.

(** ** The temporary id list of a rejected request *)

(** C6.  A bulk request whose cookie source is not one of the three
    browsers: the handler answers 400 after it wrote the temporary id list;
    the file is in the file system when the handler returns and no child
    was spawned, so no handler that would unlink it is installed. *)
Theorem rejected_bulk_request_keeps_id_list :
  let r := handle_download Sample.cfg (Sample.env SpawnReturns)
             (BodyJson (Sample.bulk (Some "safari"))) initial in
  status r.1.2 = 400 ∧
  tmp_list_path Sample.cfg Sample.jobId = "/tmp/ytdlp-ui-ab12cd34ef567890.txt" ∧
  files r.1.1 !! "/tmp/ytdlp-ui-ab12cd34ef567890.txt" =
    Some (FsFile (urls_list [VString "f4g1xtyY3uo"; VString "gAnS4WTgeIE"])) ∧
  children r.1.1 = [].
Proof. vm_compute. repeat split; reflexivity. Qed.

(** ** Chunks that end inside a line *)

(** C9.  The text [hello] with its line end, delivered to the download
    handler as the two chunks [hel] and [lo] with the line end, becomes
    two lines of the job log; delivered as one chunk it becomes one line.
    The listener of the list handler joins the same two chunks into the
    one line. *)
Theorem download_lines_depend_on_chunking :
  let nl := String Js.LF "" in
  lines <$> jobs (run Sample.cfg Sample.started
                    [ChildData 0 "hel"; ChildData 0 ("lo" +:+ nl)])
              !! Sample.jobId = Some ["hel"; "lo"] ∧
  lines <$> jobs (run Sample.cfg Sample.started [ChildData 0 ("hello" +:+ nl)])
              !! Sample.jobId = Some ["hello"] ∧
  list_feed ["hel"; "lo" +:+ nl] = (["hello"], "") ∧
  list_feed ["hello" +:+ nl] = (["hello"], "").
Proof. vm_compute. repeat split; reflexivity. Qed.

(** ** The theorems at concrete inputs *)

Lemma wf_listening : wf Sample.listening.
Proof. apply wf_run, wf_initial. Qed.

(** Completion of the job of the sample server with its one listener,
    followed by late output, a second listener and the close event. *)
Lemma terminal_event_is_last_witness :
  (wf Sample.listening ∧
   jobs Sample.listening !! Sample.jobId = Some listening_job ∧
   0 ∈ sseClients listening_job) ∧
  received
    (run Sample.cfg (jobDone Sample.jobId 0 Sample.listening)
         [ChildData 0 "late line"; GetEvents Sample.jobId; ChildClose 0 (Some 1%Z)])
    0
  = received Sample.listening 0 ++ [DoneEvent 0].
Proof.
  assert (jobs Sample.listening !! Sample.jobId = Some listening_job) as Hjob
    by (vm_compute; reflexivity).
  assert (0 ∈ sseClients listening_job) as Hin by (simpl; set_solver).
  split; [split; [apply wf_listening|split; assumption]|].
  apply (terminal_event_is_last Sample.cfg Sample.listening Sample.jobId
           listening_job 0 0
           [ChildData 0 "late line"; GetEvents Sample.jobId; ChildClose 0 (Some 1%Z)]
           wf_listening Hjob Hin).
Defined.

(** 2001 progress lines appended to the job of the sample server. *)
Lemma retained_log_is_last_2000_witness :
  let appended := replicate 2001 "[download] 50%" in
  (jobs Sample.started !! Sample.jobId = Some started_job ∧
   length (lines started_job) ≤ LOG_CAP ∧
   LOG_CAP < length appended) ∧
  (∀ k, ∃ job_k,
     jobs (foldl (λ st line, jobAppend Sample.jobId line st) Sample.started
                 (take k appended)) !! Sample.jobId = Some job_k ∧
     length (lines job_k) ≤ LOG_CAP).
Proof.
  intros appended.
  assert (jobs Sample.started !! Sample.jobId = Some started_job) as Hjob
    by (vm_compute; reflexivity).
  assert (length (lines started_job) ≤ LOG_CAP) as Hlen
    by (unfold LOG_CAP; simpl; lia).
  assert (LOG_CAP < length appended) as Hmany
    by (subst appended; rewrite length_replicate; unfold LOG_CAP; lia).
  split; [split; [assumption|split; assumption]|].
  apply (retained_log_is_last_2000 Sample.started Sample.jobId started_job
           appended Hjob Hlen Hmany).
Defined.

(** A listener attaches to the job that retains 251 lines. *)
Lemma attach_replays_last_250_witness :
  (jobs busy !! Sample.jobId = Some busy_job ∧
   done busy_job = None ∧
   REPLAY_TAIL < length (lines busy_job)) ∧
  received (handle_events Sample.jobId busy).1 (next_res busy) =
    map LogEvent (drop (length (lines busy_job) - REPLAY_TAIL) (lines busy_job)).
Proof.
  assert (jobs busy !! Sample.jobId = Some busy_job) as Hjob
    by (vm_compute; reflexivity).
  assert (REPLAY_TAIL < length (lines busy_job)) as Hlen
    by (unfold REPLAY_TAIL, busy_job, lines; rewrite length_replicate; lia).
  split; [split; [assumption|split; [reflexivity|assumption]]|].
  destruct (attach_replays_last_250 busy Sample.jobId busy_job Hjob eq_refl Hlen)
    as (_ & Hreplay & _).
  exact Hreplay.
Defined.

(** The file listing for an id no job has, and for the job whose
    directory is gone. *)
Lemma files_unknown_job_is_bad_request_witness :
  (route_id "deadbeef" = true ∧
   jobs initial !! "deadbeef" = None ∧
   get_files "deadbeef" initial =
     {| status := 400; body := ErrorBody "Unknown jobId" |}) ∧
  (route_id Sample.jobId = true ∧
   jobs dir_removed !! Sample.jobId = Some started_job ∧
   downloadsDir started_job = Some Sample.jobDir ∧
   readdirSync Sample.jobDir dir_removed = None ∧
   get_files Sample.jobId dir_removed =
     {| status := 200; body := FilesBody [] (Some []) |}).
Proof.
  assert (jobs initial !! "deadbeef" = None) as Hnone by reflexivity.
  assert (jobs dir_removed !! Sample.jobId = Some started_job) as Hjob
    by (vm_compute; reflexivity).
  assert (readdirSync Sample.jobDir dir_removed = None) as Hread
    by (vm_compute; reflexivity).
  split.
  - split; [reflexivity|]. split; [assumption|].
    apply (proj1 (files_unknown_job_is_bad_request initial "deadbeef" eq_refl)
                 Hnone).
  - split; [reflexivity|]. split; [assumption|]. split; [reflexivity|].
    split; [assumption|].
    apply (proj2 (files_unknown_job_is_bad_request dir_removed Sample.jobId
                    eq_refl)
                 started_job Sample.jobDir Hjob eq_refl Hread).
Defined.

Lemma bulk_is_bulk (cookie : option string) : is_bulk (Sample.bulk cookie) = true.
Proof. reflexivity. Qed.

(** A bulk request with cookies from chrome whose spawn throws. *)
Lemma launch_failure_is_reported_in_the_job_witness :
  let env := Sample.env (SpawnThrows "spawn yt-dlp ENOENT") in
  let req := Sample.bulk (Some "chrome") in
  (has_target req ∧ list_written env req ∧ cookies_accepted req ∧
   env_spawn env = SpawnThrows "spawn yt-dlp ENOENT") ∧
  (handle_download Sample.cfg env (BodyJson req) initial).1.2 =
    {| status := 200; body := DownloadBody Sample.jobId (request_count req) None |}.
Proof.
  intros env req.
  assert (has_target req) as Htarget by (left; reflexivity).
  assert (list_written env req) as Hwritten by (intros _; reflexivity).
  assert (cookies_accepted req) as Hcookies
    by (right; unfold COOKIE_BROWSERS; apply list_elem_of_here).
  split; [split; [assumption|split; [assumption|split; [assumption|reflexivity]]]|].
  apply (launch_failure_is_reported_in_the_job Sample.cfg env req initial
           "spawn yt-dlp ENOENT" Htarget Hwritten Hcookies eq_refl).
Defined.

Lemma safari_not_accepted : "safari" ∉ COOKIE_BROWSERS.
Proof.
  unfold COOKIE_BROWSERS. rewrite !not_elem_of_cons.
  repeat split; [discriminate..|apply not_elem_of_nil].
Qed.

(** A bulk request with cookies from safari, and what the server does
    afterwards. *)
Lemma cookie_rejection_leaves_orphan_job_witness :
  let env := Sample.env SpawnReturns in
  let req := Sample.bulk (Some "safari") in
  let later := [GetEvents Sample.jobId; ChildClose 0 (Some 0%Z);
                ChildData 0 "late line"] in
  (has_target req ∧ list_written env req ∧
   req_cookiesFromBrowser req = Some "safari" ∧ ("safari" ≠ "") ∧
   ("safari" ∉ COOKIE_BROWSERS) ∧ no_child_of initial (env_jobId env) ∧
   Forall (λ e, ¬ reuses_id (env_jobId env) e) later) ∧
  (handle_download Sample.cfg env (BodyJson req) initial).1.2 =
    {| status := 400;
       body := ErrorBody
         "cookiesFromBrowser must be one of: chrome, edge, firefox" |}.
Proof.
  intros env req later.
  assert (has_target req) as Htarget by (left; reflexivity).
  assert (list_written env req) as Hwritten by (intros _; reflexivity).
  assert ("safari" ≠ "") as Hne by discriminate.
  assert (no_child_of initial (env_jobId env)) as Hnc.
  { intros ch Hch. simpl in Hch. by apply not_elem_of_nil in Hch. }
  assert (Forall (λ e, ¬ reuses_id (env_jobId env) e) later) as Hlater.
  { unfold later. repeat constructor; simpl; tauto. }
  split.
  { repeat (split; [first [assumption|reflexivity|apply safari_not_accepted]|]).
    assumption. }
  apply (cookie_rejection_leaves_orphan_job Sample.cfg env req initial "safari"
           later Htarget Hwritten eq_refl Hne safari_not_accepted Hnc Hlater).
Defined.

(** ** The line buffer of the list handler *)

Lemma string_app_assoc (a b c : string) : (a +:+ b) +:+ c = a +:+ (b +:+ c).
Proof.
  induction a as [|x a IH]; [done|].
  change (String x ((a +:+ b) +:+ c) = String x (a +:+ (b +:+ c))).
  by rewrite IH.
Qed.

Lemma string_app_nil_r (a : string) : a +:+ "" = a.
Proof.
  induction a as [|x a IH]; [done|].
  change (String x (a +:+ "") = String x a). by rewrite IH.
Qed.

Lemma split_lines_nonempty (t : string) : Js.split_lines t ≠ [].
Proof.
  destruct t as [|c t]; [done|]. cbn.
  repeat case_bool_decide; repeat case_match; done.
Qed.

Lemma split_lines_LF (rest : string) :
  Js.split_lines (String Js.LF rest) = "" :: Js.split_lines rest.
Proof. done. Qed.

Lemma split_lines_CRLF (rest : string) :
  Js.split_lines (String Js.CR (String Js.LF rest)) = "" :: Js.split_lines rest.
Proof. done. Qed.

(** A character that starts no line terminator stays in its piece. *)
Lemma split_lines_keep (c : ascii) (rest : string) :
  c ≠ Js.LF →
  (c = Js.CR → ∀ rest', rest ≠ String Js.LF rest') →
  Js.split_lines (String c rest) = prepend c (Js.split_lines rest).
Proof.
  intros Hlf Hcr. cbn. rewrite (bool_decide_eq_false_2 _ Hlf).
  case_bool_decide as Hc; [|done].
  destruct rest as [|c' rest']; [done|].
  case_bool_decide as Hc'; [|done]. subst c'. by destruct (Hcr Hc rest').
Qed.

(** How a text can start: with a line feed, with a carriage return and a
    line feed, or with a character that stays in its piece. *)
Lemma terminator_cases (a : ascii) (t : string) :
  a = Js.LF ∨
  (a = Js.CR ∧ ∃ t', t = String Js.LF t') ∨
  (a ≠ Js.LF ∧ (a = Js.CR → ∀ rest', t ≠ String Js.LF rest')).
Proof.
  destruct (decide (a = Js.LF)) as [?|Hlf]; [by left|]. right.
  destruct (decide (a = Js.CR)) as [->|Hcr]; [|by right].
  destruct t as [|x t']; [by right|].
  destruct (decide (x = Js.LF)) as [->|Hx]; [left; eauto|].
  right. split; [done|]. intros _ rest'. congruence.
Qed.

Lemma split_lines_single_head (b : ascii) (t l : string) :
  b ≠ Js.LF → Js.split_lines (String b t) = [l] → ∃ l', l = String b l'.
Proof.
  intros Hb Hsplit.
  destruct (terminator_cases b t) as [?|[[-> [t' ->]]|[_ Hcr]]]; [done|..].
  - rewrite split_lines_CRLF in Hsplit. injection Hsplit as _ Hnil.
    by destruct (split_lines_nonempty t').
  - rewrite split_lines_keep in Hsplit; [|done..].
    unfold prepend in Hsplit. destruct (Js.split_lines t) as [|l0 ls].
    + injection Hsplit as <-. by eexists.
    + injection Hsplit as <- _. by eexists.
Qed.

Lemma prepend_split_app (a : ascii) (X : list string) (c : string) :
  X ≠ [] →
  a ≠ Js.LF →
  (a = Js.CR → ∀ l r, X = [l] → l +:+ c ≠ String Js.LF r) →
  prepend a (removelast X ++ Js.split_lines (held X +:+ c)) =
  removelast (prepend a X) ++ Js.split_lines (held (prepend a X) +:+ c).
Proof.
  intros HX Ha Hcr. destruct X as [|l [|l2 ls]]; [done|..].
  - change (prepend a (Js.split_lines (l +:+ c)) =
            Js.split_lines (String a (l +:+ c))).
    rewrite split_lines_keep; [done|done|].
    intros Hacr r Heq. by apply (Hcr Hacr l r).
  - change (removelast (l :: l2 :: ls)) with (l :: removelast (l2 :: ls)).
    change (prepend a (l :: l2 :: ls)) with (String a l :: l2 :: ls).
    change (removelast (String a l :: l2 :: ls))
      with (String a l :: removelast (l2 :: ls)).
    unfold held. by rewrite !last_cons_cons.
Qed.

Lemma split_lines_app_bounded (n : nat) :
  ∀ t c, String.length t ≤ n →
    Js.split_lines (t +:+ c) =
    removelast (Js.split_lines t) ++ Js.split_lines (held (Js.split_lines t) +:+ c).
Proof.
  induction n as [|n IH]; intros t c Hlen; destruct t as [|a t']; try done.
  { simpl in Hlen. lia. }
  simpl in Hlen.
  assert (∀ u, Js.split_lines (u +:+ c) =
               removelast (Js.split_lines u) ++
               Js.split_lines (held (Js.split_lines u) +:+ c) →
               "" :: Js.split_lines (u +:+ c) =
               removelast ("" :: Js.split_lines u) ++
               Js.split_lines (held ("" :: Js.split_lines u) +:+ c)) as Hbreak.
  { intros u Hu. pose proof (split_lines_nonempty u) as Hne.
    destruct (Js.split_lines u) as [|l ls]; [done|].
    change (removelast ("" :: l :: ls)) with ("" :: removelast (l :: ls)).
    unfold held in *. rewrite last_cons_cons. simpl. by rewrite Hu. }
  change (String a t' +:+ c) with (String a (t' +:+ c)).
  destruct (terminator_cases a t') as [->|[[-> [t'' ->]]|[Hlf Hcr]]].
  { rewrite !split_lines_LF. apply Hbreak, IH. lia. }
  { change (String Js.LF t'' +:+ c) with (String Js.LF (t'' +:+ c)).
    rewrite !split_lines_CRLF. apply Hbreak, IH. simpl in Hlen. lia. }
  rewrite (split_lines_keep a t' Hlf Hcr).
  destruct t' as [|b t''].
  { done. }
  assert (b ≠ Js.LF ∨ a ≠ Js.CR) as Hb.
  { destruct (decide (b = Js.LF)) as [->|?]; [|by left].
    right. intros ->. by apply (Hcr eq_refl t''). }
  rewrite split_lines_keep; [|done|].
  - rewrite (IH (String b t'') c) by lia.
    apply prepend_split_app; [apply split_lines_nonempty|done|].
    intros -> l r Hl Hr. destruct Hb as [Hb|Hb]; [|done].
    destruct (split_lines_single_head b t'' l Hb Hl) as [l' ->].
    change (String b l' +:+ c) with (String b (l' +:+ c)) in Hr. congruence.
  - intros -> rest' Heq.
    change (String b t'' +:+ c) with (String b (t'' +:+ c)) in Heq.
    injection Heq as -> _. by apply (Hcr eq_refl t'').
Qed.

Lemma split_lines_app (t c : string) :
  Js.split_lines (t +:+ c) =
  removelast (Js.split_lines t) ++ Js.split_lines (held (Js.split_lines t) +:+ c).
Proof. by apply (split_lines_app_bounded (String.length t)). Qed.

Lemma text_of_snoc (chunks : list string) (c : string) :
  text_of (chunks ++ [c]) = text_of chunks +:+ c.
Proof.
  unfold text_of. induction chunks as [|x xs IH]; simpl.
  - apply string_app_nil_r.
  - by rewrite IH, string_app_assoc.
Qed.

(** The listener of the list handler frames lines independently of the
    chunk borders: the finished lines and the held piece after a sequence
    of chunks are those of the whole text. *)
Lemma list_feed_whole_text (chunks : list string) :
  list_feed chunks =
  (removelast (Js.split_lines (text_of chunks)),
   held (Js.split_lines (text_of chunks))).
Proof.
  induction chunks as [|c chunks IH] using rev_ind; [done|].
  unfold list_feed in *. rewrite foldl_snoc, IH. unfold list_onData.
  rewrite text_of_snoc.
  rewrite (split_lines_app (text_of chunks) c).
  set (X := removelast (Js.split_lines (text_of chunks))).
  set (Y := Js.split_lines (held (Js.split_lines (text_of chunks)) +:+ c)).
  assert (Y ≠ []) as HY by apply split_lines_nonempty.
  f_equal.
  - by rewrite removelast_app.
  - unfold held. rewrite last_app. fold (held (Js.split_lines (text_of chunks))).
    destruct (last Y) eqn:E; [done|]. apply last_None in E. done.
Qed.

Lemma list_feed_chunk_invariant (chunks : list string) :
  list_feed chunks = list_feed [text_of chunks].
Proof.
  rewrite !list_feed_whole_text. simpl. by rewrite string_app_nil_r.
Qed.

(** ** The cap along a run *)

Lemma log_bounded_initial : log_bounded initial.
Proof. intros j job. simpl. by rewrite lookup_empty. Qed.

Lemma log_bounded_jobAppend (jobId line : string) (s : Server) :
  log_bounded s → log_bounded (jobAppend jobId line s).
Proof.
  intros Hb j job. rewrite jobs_jobAppend.
  destruct (jobs s !! jobId) as [job0|]; [|by apply Hb].
  rewrite lookup_insert. case_decide; [|by apply Hb].
  intros [= <-]. simpl. rewrite push_capped_slice, length_slice_last. lia.
Qed.

Lemma log_bounded_append_all (jobId : string) (ls : list string) (s : Server) :
  log_bounded s → log_bounded (foldl (λ st line, jobAppend jobId line st) s ls).
Proof.
  revert s. induction ls as [|x ls IH]; intros s Hb; simpl; [done|].
  by apply IH, log_bounded_jobAppend.
Qed.

Lemma log_bounded_jobDone (jobId : string) (code : Z) (s : Server) :
  log_bounded s → log_bounded (jobDone jobId code s).
Proof.
  intros Hb j job. rewrite jobs_jobDone.
  destruct (jobs s !! jobId) as [job0|] eqn:Hjob; [|by apply Hb].
  rewrite lookup_insert. case_decide; [|by apply Hb].
  intros [= <-]. simpl. by apply (Hb jobId).
Qed.

Lemma log_bounded_alter (f : Job → Job) (jobId : string) (s : Server) :
  (∀ job, lines (f job) = lines job) →
  log_bounded s → log_bounded (with_jobs (alter f jobId) s).
Proof.
  intros Hf Hb j job. simpl. rewrite lookup_alter. case_decide; [|by apply Hb].
  subst j. destruct (jobs s !! jobId) as [job0|] eqn:Hjob; [|done].
  intros [= <-]. rewrite Hf. by apply (Hb jobId).
Qed.

Lemma log_bounded_handle_events (jobId : string) (s : Server) :
  log_bounded s → log_bounded (handle_events jobId s).1.
Proof.
  intros Hb.
  destruct (jobs s !! jobId) as [job|] eqn:Hjob;
    [|by rewrite handle_events_unknown].
  destruct (done job) as [code|] eqn:Hdone.
  - destruct (handle_events_terminal s jobId job code Hjob Hdone)
      as (_ & Hjobs & _).
    unfold log_bounded. by rewrite Hjobs.
  - destruct (handle_events_running s jobId job Hjob Hdone) as (_ & Hjobs & _).
    intros j job'. rewrite Hjobs, lookup_insert. case_decide; [|by apply Hb].
    intros [= <-]. simpl. by apply (Hb jobId).
Qed.

Lemma log_bounded_handle_download (cfg : Config) (env : DownloadEnv)
    (raw : RequestBody) (s : Server) :
  log_bounded s → log_bounded (handle_download cfg env raw s).1.1.
Proof.
  intros Hb.
  destruct (handle_download_adds_quiet_job cfg env raw s)
    as (_ & _ & _ & [Hj|(job' & Hj & _ & Hlen)]); unfold log_bounded; rewrite Hj.
  - done.
  - intros j job. rewrite lookup_insert. case_decide; [|by apply Hb].
    by intros [= <-].
Qed.

Lemma log_bounded_step (cfg : Config) (s : Server) (e : Event) :
  log_bounded s → log_bounded (step cfg s e).
Proof.
  intros Hb.
  destruct e as [env raw|jobId|jobId res|pid chunk|pid code msg|pid code];
    simpl.
  - by apply log_bounded_handle_download.
  - by apply log_bounded_handle_events.
  - by apply log_bounded_alter.
  - destruct (children s !! pid); [|done]. by apply log_bounded_append_all.
  - destruct (children s !! pid) as [ch|]; [|done].
    apply log_bounded_jobDone, log_bounded_jobAppend.
    by destruct (child_tmpListPath ch).
  - destruct (children s !! pid) as [ch|]; [|done].
    apply log_bounded_jobDone. by destruct (child_tmpListPath ch).
Qed.

(** In every state the server reaches no job retains more than 2000
    lines. *)
Lemma log_bounded_run (cfg : Config) (es : list Event) (s : Server) :
  log_bounded s → log_bounded (run cfg s es).
Proof.
  revert s. induction es as [|e es IH]; intros s Hb; simpl; [done|].
  by apply IH, log_bounded_step.
Qed.

(** * Further properties of the job registry *)

(** ** Delivery to the listeners *)

Lemma received_append_all_attached (jobId : string) (ls : list string) :
  ∀ (s : Server) (c : nat),
    c ∈ listeners s jobId →
    received (foldl (λ st line, jobAppend jobId line st) s ls) c =
    received s c ++ map LogEvent ls.
Proof.
  induction ls as [|x ls IH]; intros s c Hc; simpl.
  - by rewrite app_nil_r.
  - rewrite IH by by rewrite listeners_jobAppend.
    rewrite received_jobAppend_listeners, decide_True by done.
    by rewrite <- app_assoc.
Qed.

Lemma received_append_all_unattached (jobId : string) (ls : list string) :
  ∀ (s : Server) (c : nat),
    ¬ attached s c →
    received (foldl (λ st line, jobAppend jobId line st) s ls) c = received s c.
Proof.
  induction ls as [|x ls IH]; intros s c Hna; simpl; [done|].
  rewrite IH.
  - rewrite received_jobAppend_listeners. rewrite decide_False; [done|].
    intros Hin. apply Hna. rewrite attached_listeners. eauto.
  - rewrite attached_listeners. intros [j Hj]. apply Hna.
    rewrite attached_listeners. exists j. by rewrite listeners_jobAppend in Hj.
Qed.

(** X1.  A chunk of child output reaches every listener attached to the
    job as one log frame per non-empty line of the chunk, in the order of
    the chunk and behind everything the listener was sent before; a
    response attached to no job is sent nothing. *)
Theorem chunk_reaches_listeners_in_order (s : Server) (jobId : string)
    (job : Job) (chunk : string) (c : nat) :
  jobs s !! jobId = Some job →
  (c ∈ sseClients job →
   received (onData jobId chunk s) c =
   received s c ++ map LogEvent (Js.filter_Boolean (Js.split_lines chunk))) ∧
  (¬ attached s c → received (onData jobId chunk s) c = received s c).
Proof.
  intros Hjob. unfold onData. split.
  - intros Hc. apply received_append_all_attached.
    by rewrite (listeners_lookup s jobId job).
  - apply received_append_all_unattached.
Qed.

Lemma chunk_reaches_listeners_in_order_witness :
  (jobs Sample.listening !! Sample.jobId = Some listening_job ∧
   0 ∈ sseClients listening_job) ∧
  received (onData Sample.jobId "one" Sample.listening) 0 =
  received Sample.listening 0 ++
  map LogEvent (Js.filter_Boolean (Js.split_lines "one")).
Proof.
  assert (jobs Sample.listening !! Sample.jobId = Some listening_job) as Hjob
    by (vm_compute; reflexivity).
  assert (0 ∈ sseClients listening_job) as Hin by (simpl; set_solver).
  split; [split; assumption|].
  exact (proj1 (chunk_reaches_listeners_in_order Sample.listening Sample.jobId
                  listening_job "one" 0 Hjob) Hin).
Defined.

(** X2.  A listener that attaches to a finished job is sent the last 250
    retained lines and then the terminal event with the recorded exit
    code; its response is ended at once and the registry is left as it
    was, so the response is never added to the listeners. *)
Theorem late_listener_gets_tail_and_done (s : Server) (jobId : string)
    (job : Job) (code : Z) :
  jobs s !! jobId = Some job →
  done job = Some code →
  let r := handle_events jobId s in
  status r.2 = 200 ∧
  received r.1 (next_res s) =
    map LogEvent (slice_last REPLAY_TAIL (lines job)) ++ [DoneEvent code] ∧
  next_res s ∈ ended r.1 ∧
  jobs r.1 = jobs s.
Proof.
  intros Hjob Hdone r.
  destruct (handle_events_terminal s jobId job code Hjob Hdone)
    as (Hresp & Hjobs & Hrecv & Hended & _).
  subst r. rewrite Hresp. split; [done|]. split.
  - rewrite Hrecv. by rewrite decide_True.
  - split; [|done]. rewrite Hended. set_solver.
Qed.

(** The sample server after its child closed with code 0. *)
Lemma late_listener_gets_tail_and_done_witness :
  let s := jobDone Sample.jobId 0 Sample.started in
  let job := set_sseClients ∅ (set_done (Some 0%Z) started_job) in
  (jobs s !! Sample.jobId = Some job ∧ done job = Some 0%Z) ∧
  received (handle_events Sample.jobId s).1 (next_res s) =
    map LogEvent (slice_last REPLAY_TAIL (lines job)) ++ [DoneEvent 0].
Proof.
  intros s job.
  assert (jobs s !! Sample.jobId = Some job) as Hjob by (vm_compute; reflexivity).
  split; [split; [assumption|reflexivity]|].
  destruct (late_listener_gets_tail_and_done s Sample.jobId job 0 Hjob eq_refl)
    as (_ & H & _).
  exact H.
Defined.

(** ** Completion, twice and for good *)

Lemma received_unlinkSync_quiet (p : option string) (s : Server) (c : nat) :
  received (unlinkSync_quiet p s) c = received s c.
Proof. by destruct p. Qed.

Lemma listeners_unlinkSync_quiet (p : option string) (s : Server) (j : string) :
  listeners (unlinkSync_quiet p s) j = listeners s j.
Proof. by destruct p. Qed.

(** X3.  When the error event of a child is followed by its close event,
    the listeners of the job are sent the error line and one terminal
    event with exit code -1, and nothing at the close; the registry,
    however, ends up with the exit code of the close event, which is what
    a listener attaching later is told. *)
Theorem close_after_error_overwrites_exit_code (s : Server) (ch : Child)
    (job : Job) (errcode message : string) (code : option Z) (c : nat) :
  jobs s !! child_jobId ch = Some job →
  c ∈ sseClients job →
  let line := Js.trim ("yt-dlp spawn error: " +:+ errcode +:+ " " +:+ message) in
  let s2 := onClose ch code (onError ch errcode message s) in
  received s2 c = received s c ++ [LogEvent line; DoneEvent (-1)] ∧
  done <$> jobs s2 !! child_jobId ch = Some (Some (default (-1)%Z code)).
Proof.
  intros Hjob Hc line s2. subst s2. unfold onClose, onError. fold line.
  clearbody line. revert line.
  generalize dependent (child_jobId ch). intros j Hjob line.
  generalize (child_tmpListPath ch). intros p.
  assert (c ∈ listeners s j) as Hl by by rewrite (listeners_lookup s j job).
  split.
  - assert (∀ st, listeners (jobDone j (-1) st) j = ∅) as Hgone.
    { intros st. rewrite listeners_jobDone. by rewrite decide_True. }
    rewrite received_jobDone_listeners, listeners_unlinkSync_quiet, Hgone.
    rewrite decide_False by set_solver.
    rewrite received_unlinkSync_quiet, received_jobDone_listeners,
      listeners_jobAppend, listeners_unlinkSync_quiet.
    rewrite decide_True by done.
    rewrite received_jobAppend_listeners, listeners_unlinkSync_quiet.
    rewrite decide_True by done.
    rewrite received_unlinkSync_quiet. by rewrite <- app_assoc.
  - rewrite jobs_jobDone.
    destruct (unlinkSync_quiet_same p
                (jobDone j (-1) (jobAppend j line (unlinkSync_quiet p s))))
      as (-> & _).
    rewrite jobs_jobDone, jobs_jobAppend.
    destruct (unlinkSync_quiet_same p s) as (-> & _).
    by rewrite Hjob, !lookup_insert_eq.
Qed.

(** The listener of the sample server, an error of the child and its
    close with code 7. *)
Lemma close_after_error_overwrites_exit_code_witness :
  let ch := {| child_jobId := Sample.jobId; child_tmpListPath := None |} in
  (jobs Sample.listening !! child_jobId ch = Some listening_job ∧
   0 ∈ sseClients listening_job) ∧
  done <$> jobs (onClose ch (Some 7%Z) (onError ch "ENOENT" "boom" Sample.listening))
             !! child_jobId ch = Some (Some 7%Z).
Proof.
  intros ch.
  assert (jobs Sample.listening !! child_jobId ch = Some listening_job) as Hjob
    by (vm_compute; reflexivity).
  assert (0 ∈ sseClients listening_job) as Hin by (simpl; set_solver).
  split; [split; assumption|].
  exact (proj2 (close_after_error_overwrites_exit_code Sample.listening ch
                  listening_job "ENOENT" "boom" (Some 7%Z) 0 Hjob Hin)).
Defined.

Lemma finished_jobAppend (jobId line : string) (s : Server) (j : string) :
  finished s j → finished (jobAppend jobId line s) j.
Proof.
  intros (job & code & Hjob & Hdone). unfold finished. rewrite jobs_jobAppend.
  destruct (jobs s !! jobId) as [job0|] eqn:Hjob0; [|by eauto].
  rewrite lookup_insert. case_decide; [|by eauto].
  subst j. eexists _, code. split; [done|]. simpl. congruence.
Qed.

Lemma finished_append_all (jobId : string) (ls : list string) (s : Server)
    (j : string) :
  finished s j → finished (foldl (λ st line, jobAppend jobId line st) s ls) j.
Proof.
  revert s. induction ls as [|x ls IH]; intros s Hf; simpl; [done|].
  by apply IH, finished_jobAppend.
Qed.

Lemma finished_jobDone (jobId : string) (code : Z) (s : Server) (j : string) :
  finished s j → finished (jobDone jobId code s) j.
Proof.
  intros (job & code0 & Hjob & Hdone). unfold finished. rewrite jobs_jobDone.
  destruct (jobs s !! jobId) as [job0|] eqn:Hjob0; [|by eauto].
  rewrite lookup_insert. case_decide; [|by eauto].
  eexists _, code. by split.
Qed.

Lemma finished_same_jobs (s s' : Server) (j : string) :
  jobs s' = jobs s → finished s j → finished s' j.
Proof. intros Hj. unfold finished. by rewrite Hj. Qed.

Lemma finished_alter (f : Job → Job) (jobId : string) (s : Server) (j : string) :
  (∀ job, done (f job) = done job) →
  finished s j → finished (with_jobs (alter f jobId) s) j.
Proof.
  intros Hf (job & code & Hjob & Hdone). unfold finished. simpl.
  rewrite lookup_alter. case_decide; [|by eauto]. subst j. rewrite Hjob. simpl.
  eexists _, code. split; [done|]. by rewrite Hf.
Qed.

Lemma finished_step (cfg : Config) (s : Server) (e : Event) (j : string) :
  ¬ reuses_id j e → finished s j → finished (step cfg s e) j.
Proof.
  intros Hfresh Hf.
  destruct e as [env raw|jobId|jobId res|pid chunk|pid code msg|pid code];
    simpl in *.
  - destruct Hf as (job & code & Hjob & Hdone).
    destruct (handle_download_adds_quiet_job cfg env raw s)
      as (_ & _ & _ & [Hj|(job' & Hj & _)]); unfold finished; rewrite Hj.
    + by eauto.
    + rewrite lookup_insert_ne by done. by eauto.
  - destruct (jobs s !! jobId) as [job|] eqn:Hjob;
      [|by rewrite handle_events_unknown].
    destruct (done job) as [code|] eqn:Hdone.
    + destruct (handle_events_terminal s jobId job code Hjob Hdone)
        as (_ & Hjobs & _).
      by apply (finished_same_jobs s).
    + destruct (handle_events_running s jobId job Hjob Hdone) as (_ & Hjobs & _).
      destruct Hf as (job1 & code1 & Hjob1 & Hdone1). unfold finished.
      rewrite Hjobs, lookup_insert. case_decide; [|by eauto].
      subst j. congruence.
  - by apply finished_alter.
  - destruct (children s !! pid) as [ch|]; [|done]. by apply finished_append_all.
  - destruct (children s !! pid) as [ch|]; [|done]. unfold onError.
    apply finished_jobDone, finished_jobAppend.
    by destruct (child_tmpListPath ch).
  - destruct (children s !! pid) as [ch|]; [|done]. unfold onClose.
    apply finished_jobDone. by destruct (child_tmpListPath ch).
Qed.

(** X4.  A job that has a terminal result keeps one through everything the
    server does afterwards, as long as the runtime does not hand out its
    id to a new download: no job goes back to running. *)
Theorem finished_job_stays_finished (cfg : Config) (s : Server) (j : string)
    (later : list Event) :
  finished s j →
  Forall (λ e, ¬ reuses_id j e) later →
  finished (run cfg s later) j.
Proof.
  intros Hf Hlater. revert s Hf.
  induction Hlater as [|e es He Hes IH]; intros s Hf; simpl; [done|].
  by apply IH, finished_step.
Qed.

(** The job of the sample server after its child closed, then late output
    of the child, a new listener and a second close event. *)
Lemma finished_job_stays_finished_witness :
  let s := run Sample.cfg Sample.started [ChildClose 0 (Some 0%Z)] in
  let later := [ChildData 0 "late"; GetEvents Sample.jobId;
                ChildClose 0 None] in
  (finished s Sample.jobId ∧
   Forall (λ e, ¬ reuses_id Sample.jobId e) later) ∧
  finished (run Sample.cfg s later) Sample.jobId.
Proof.
  intros s later.
  assert (finished s Sample.jobId) as Hf.
  { exists (set_sseClients ∅ (set_done (Some 0%Z) started_job)), 0%Z.
    split; [vm_compute; reflexivity|reflexivity]. }
  assert (Forall (λ e, ¬ reuses_id Sample.jobId e) later) as Hl.
  { unfold later. repeat constructor; simpl; tauto. }
  split; [split; assumption|].
  exact (finished_job_stays_finished Sample.cfg s Sample.jobId later Hf Hl).
Defined.

(** ** What every reachable state satisfies *)

(** X5.  In every state the server reaches from its start, a response is
    attached to at most one job, every attached response was handed out
    earlier, is not ended and has not been sent a terminal event, and a
    finished job has no listeners. *)
Theorem reachable_states_keep_listener_invariant (cfg : Config)
    (es : list Event) :
  wf (run cfg initial es).
Proof. apply wf_run, wf_initial. Qed.

(** X6.  In every state the server reaches from its start, no job retains
    more than 2000 lines. *)
Theorem reachable_logs_stay_within_cap (cfg : Config) (es : list Event)
    (j : string) (job : Job) :
  jobs (run cfg initial es) !! j = Some job → length (lines job) ≤ 2000.
Proof. apply (log_bounded_run cfg es initial log_bounded_initial). Qed.

(** The job of the sample server after one chunk of output. *)
Lemma reachable_logs_stay_within_cap_witness :
  let es := [PostDownload (Sample.env SpawnReturns) (BodyJson Sample.video_only_720);
             ChildData 0 "one"] in
  let job := set_lines ["one"] started_job in
  jobs (run Sample.cfg initial es) !! Sample.jobId = Some job ∧
  length (lines job) ≤ 2000.
Proof.
  intros es job.
  assert (jobs (run Sample.cfg initial es) !! Sample.jobId = Some job) as Hjob
    by (vm_compute; reflexivity).
  split; [assumption|].
  exact (reachable_logs_stay_within_cap Sample.cfg es Sample.jobId job Hjob).
Defined.

(** ** What a download request leaves alone *)

(** X7.  Whatever a download request holds and however it ends, the handler
    writes to no event stream, ends no response and changes no job other
    than the one of the id the runtime drew for the request. *)
Theorem download_request_leaves_other_jobs_alone (cfg : Config)
    (env : DownloadEnv) (raw : RequestBody) (s : Server) :
  let s' := (handle_download cfg env raw s).1.1 in
  sse s' = sse s ∧ ended s' = ended s ∧ next_res s' = next_res s ∧
  ∀ j, j ≠ env_jobId env → jobs s' !! j = jobs s !! j.
Proof.
  destruct (handle_download_adds_quiet_job cfg env raw s)
    as (Hsse & Hended & Hnext & Hjobs).
  repeat split; [done..|]. intros j Hj.
  destruct Hjobs as [->|(job' & -> & _)]; [done|].
  by rewrite lookup_insert_ne.
Qed.

(** ** Detaching *)

Lemma alter_fixed (f : Job → Job) (j : string) (m : gmap string Job) :
  (∀ job, m !! j = Some job → f job = job) → alter f j m = m.
Proof.
  intros Hf. apply map_eq; intros k. rewrite lookup_alter.
  case_decide; [subst k|done].
  destruct (m !! j) as [job|] eqn:Hj; [|done]. simpl. by rewrite (Hf job).
Qed.

Lemma with_jobs_fixed (f : gmap string Job → gmap string Job) (s : Server) :
  f (jobs s) = jobs s → with_jobs f s = s.
Proof. intros Hf. destruct s. unfold with_jobs. simpl in *. by rewrite Hf. Qed.

(** X8.  The listener of a request's close event can run any number of
    times: the second run changes nothing, the response is not among the
    listeners afterwards, and run after the job completed it changes
    nothing at all. *)
Theorem detach_is_idempotent (jobId : string) (res : nat) (s : Server) :
  onRequestClose jobId res (onRequestClose jobId res s) =
    onRequestClose jobId res s ∧
  (res ∉ listeners (onRequestClose jobId res s) jobId) ∧
  (∀ code, onRequestClose jobId res (jobDone jobId code s) = jobDone jobId code s).
Proof.
  split; [|split].
  - unfold onRequestClose at 1. apply with_jobs_fixed, alter_fixed.
    intros job. unfold onRequestClose. simpl. rewrite lookup_alter_eq.
    destruct (jobs s !! jobId) as [job0|]; [|done]. intros [= <-]. simpl.
    unfold set_sseClients. simpl. f_equal. set_solver.
  - unfold onRequestClose. rewrite listeners_alter, decide_True by done.
    destruct (jobs s !! jobId); simpl; set_solver.
  - intros code. unfold onRequestClose. apply with_jobs_fixed, alter_fixed.
    intros job. rewrite jobs_jobDone.
    destruct (jobs s !! jobId) as [job0|] eqn:Hjob.
    + rewrite lookup_insert_eq. intros [= <-]. unfold set_sseClients. simpl.
      f_equal. set_solver.
    + by rewrite Hjob.
Qed.

(** * Further properties of names and paths *)

(** ** Reversal of strings *)

Lemma rev_app_rev_app (p a b : string) :
  String.rev_app (String.rev_app p a) b = String.rev_app a (p +:+ b).
Proof.
  revert a b. induction p as [|c p IH]; intros a b; [done|].
  simpl. by rewrite IH.
Qed.

Lemma string_rev_involutive (p : string) : String.rev (String.rev p) = p.
Proof.
  unfold String.rev. rewrite rev_app_rev_app. simpl. apply string_app_nil_r.
Qed.

Lemma all_chars_rev_app (P : ascii → bool) (p a : string) :
  Js.all_chars P (String.rev_app p a) = Js.all_chars P p && Js.all_chars P a.
Proof.
  revert a. induction p as [|c p IH]; intros a; [done|].
  simpl. rewrite IH. simpl.
  by destruct (P c), (Js.all_chars P p), (Js.all_chars P a).
Qed.

Lemma all_chars_rev (P : ascii → bool) (p : string) :
  Js.all_chars P (String.rev p) = Js.all_chars P p.
Proof. unfold String.rev. rewrite all_chars_rev_app. simpl. apply andb_true_r. Qed.

Lemma all_chars_app (P : ascii → bool) (a b : string) :
  Js.all_chars P (a +:+ b) = Js.all_chars P a && Js.all_chars P b.
Proof.
  induction a as [|c a IH]; [done|].
  change (String c a +:+ b) with (String c (a +:+ b)). simpl. rewrite IH.
  apply andb_assoc.
Qed.

(** ** The base name *)

Lemma basename_scan_no_sep (m : bool) (r acc : string) :
  Js.all_chars not_sep acc = true →
  Js.all_chars not_sep (path.basename_scan m r acc) = true.
Proof.
  revert m acc. induction r as [|c r IH]; intros m acc Hacc; simpl; [done|].
  case_bool_decide as Hc.
  - destruct m; [by apply IH|done].
  - apply IH. simpl. unfold not_sep at 1. by rewrite bool_decide_eq_false_2.
Qed.

Lemma basename_scan_all (m : bool) (r acc : string) :
  Js.all_chars not_sep r = true →
  path.basename_scan m r acc = String.rev_app r acc.
Proof.
  revert m acc. induction r as [|c r IH]; intros m acc Hr; simpl in *; [done|].
  apply andb_prop in Hr as [Hc Hr]. unfold not_sep in Hc.
  apply negb_true_iff, bool_decide_eq_false in Hc.
  rewrite bool_decide_eq_false_2 by done. by apply IH.
Qed.

Lemma basename_no_sep (p : string) :
  Js.all_chars not_sep (path.basename p) = true.
Proof. by apply basename_scan_no_sep. Qed.

Lemma basename_fixed (p : string) :
  Js.all_chars not_sep p = true → path.basename p = p.
Proof.
  intros Hp. unfold path.basename.
  rewrite basename_scan_all by by rewrite all_chars_rev.
  apply string_rev_involutive.
Qed.

(** X9.  The base name of a path never holds a separator, a name without
    separators is its own base name, and so taking the base name twice
    gives what taking it once gives. *)
Theorem basename_has_no_separator (p : string) :
  Js.all_chars not_sep (path.basename p) = true ∧
  (Js.all_chars not_sep p = true → path.basename p = p) ∧
  path.basename (path.basename p) = path.basename p.
Proof.
  split; [apply basename_no_sep|]. split; [apply basename_fixed|].
  apply basename_fixed, basename_no_sep.
Qed.

Lemma replace_class_id (s : string) :
  Js.all_chars (λ c, negb (unsafe_char c)) s = true →
  Js.replace_class unsafe_char "_"%char s = s.
Proof.
  induction s as [|c s IH]; simpl; [done|]. intros H.
  apply andb_prop in H as [Hc Hs]. apply negb_true_iff in Hc.
  by rewrite Hc, IH.
Qed.

Lemma safe_chars_no_sep (s : string) :
  Js.all_chars (λ c, negb (unsafe_char c)) s = true →
  Js.all_chars not_sep s = true.
Proof.
  induction s as [|c s IH]; simpl; [done|]. intros H.
  apply andb_prop in H as [Hc Hs]. rewrite (IH Hs), andb_true_r.
  unfold not_sep. apply negb_true_iff, bool_decide_eq_false. intros ->.
  by vm_compute in Hc.
Qed.

(** A name free of the characters of the sanitising class is left as it
    is. *)
Lemma safeBasename_fixed (name : string) :
  Js.all_chars (λ c, negb (unsafe_char c)) name = true →
  safeBasename name = name.
Proof.
  intros Hsafe. unfold safeBasename.
  rewrite basename_fixed by by apply safe_chars_no_sep.
  by apply replace_class_id.
Qed.

(** X10.  Sanitising a name twice gives what sanitising it once gives, so
    the attachment name the file route puts into the response head is the
    very name it resolved inside the job directory. *)
Theorem safeBasename_is_idempotent (name : string) :
  safeBasename (safeBasename name) = safeBasename name ∧
  ∀ (s : Server) (jobId fullPath attachment : string),
    handle_file jobId name s =
      {| status := 200; body := FileStream fullPath attachment |} →
    attachment = safeBasename name.
Proof.
  assert (safeBasename (safeBasename name) = safeBasename name) as Hid
    by apply safeBasename_fixed, safeBasename_no_unsafe_char.
  split; [done|]. intros s jobId fullPath attachment. unfold handle_file.
  destruct (jobs s !! jobId) as [job|]; [|done].
  destruct (downloadsDir job) as [dir|]; [|done].
  case_match; [done|]. intros [= _ <-]. done.
Qed.

(** ** Joining plain paths *)

Lemma plain_segment_spec (seg : string) :
  plain_segment seg = true →
  seg ≠ "" ∧ seg ≠ "." ∧ seg ≠ ".." ∧ Js.all_chars not_sep seg = true.
Proof.
  unfold plain_segment, Js.truthy. intros H.
  repeat (apply andb_prop in H as [H ?]).
  repeat match goal with
         | H : negb _ = true |- _ => apply negb_true_iff, bool_decide_eq_false in H
         end.
  done.
Qed.

Lemma segments_nonempty (p : string) : path.segments p ≠ [].
Proof.
  destruct p as [|c p]; [done|]. simpl. case_bool_decide; [done|].
  by destruct (path.segments p).
Qed.

Lemma segments_no_sep (seg : string) :
  Js.all_chars not_sep seg = true → path.segments seg = [seg].
Proof.
  induction seg as [|c seg IH]; [done|]. simpl. intros H.
  apply andb_prop in H as [Hc Hs]. unfold not_sep in Hc.
  apply negb_true_iff, bool_decide_eq_false in Hc.
  rewrite bool_decide_eq_false_2 by done. by rewrite (IH Hs).
Qed.

Lemma segments_app_sep (p q : string) :
  path.segments (p +:+ String path.SEP q) = path.segments p ++ path.segments q.
Proof.
  induction p as [|c p IH].
  - done.
  - change (String c p +:+ String path.SEP q)
      with (String c (p +:+ String path.SEP q)).
    simpl. rewrite IH. case_bool_decide; [done|].
    pose proof (segments_nonempty p). by destruct (path.segments p).
Qed.

Lemma join_cons_cons (x y : string) (ys : list string) :
  Js.join "/" (x :: y :: ys) = x +:+ String path.SEP (Js.join "/" (y :: ys)).
Proof. done. Qed.

Lemma segments_join (segs : list string) :
  segs ≠ [] →
  Forall (λ seg, Js.all_chars not_sep seg = true) segs →
  path.segments (Js.join "/" segs) = segs.
Proof.
  intros Hne Hall. induction Hall as [|x xs Hx Hxs IH]; [done|].
  destruct xs as [|y ys].
  - by apply segments_no_sep.
  - rewrite join_cons_cons, segments_app_sep, segments_no_sep by done.
    by rewrite IH.
Qed.

Lemma join_app (a b : list string) :
  a ≠ [] → b ≠ [] →
  Js.join "/" (a ++ b) = Js.join "/" a +:+ String path.SEP (Js.join "/" b).
Proof.
  intros Ha Hb. induction a as [|x xs IH]; [done|].
  destruct xs as [|y ys].
  - destruct b as [|z zs]; [done|]. done.
  - change ((x :: y :: ys) ++ b) with (x :: y :: (ys ++ b)).
    rewrite !join_cons_cons.
    change (y :: ys ++ b) with ((y :: ys) ++ b). rewrite IH by done.
    by rewrite string_app_assoc.
Qed.

Lemma normalizeSegments_plain (b : bool) (segs : list string) :
  Forall (λ seg, plain_segment seg = true) segs →
  ∀ res, path.normalizeSegments b res segs = reverse res ++ segs.
Proof.
  induction 1 as [|x xs Hx Hxs IH]; intros res; simpl.
  - by rewrite app_nil_r.
  - apply plain_segment_spec in Hx as (H1 & H2 & H3 & _).
    rewrite !bool_decide_eq_false_2 by done. simpl.
    rewrite IH, reverse_cons. by rewrite <- app_assoc.
Qed.

Lemma rev_app_app (a b acc : string) :
  String.rev_app (a +:+ b) acc = String.rev_app b (String.rev_app a acc).
Proof.
  revert acc. induction a as [|c a IH]; intros acc; [done|].
  change (String c a +:+ b) with (String c (a +:+ b)). simpl. by rewrite IH.
Qed.

(** The first character of a reversal is the last character of the text,
    whatever the reversal is put in front of. *)
Lemma rev_app_head (b : string) :
  b ≠ "" → ∃ c, ∀ acc, ∃ t, String.rev_app b acc = String c t.
Proof.
  induction b as [|c b IH]; [done|]. intros _.
  destruct b as [|c' b'].
  - exists c. intros acc. by eexists.
  - destruct IH as [c0 Hc0]; [done|]. exists c0. intros acc.
    apply (Hc0 (String c acc)).
Qed.

Lemma endsWithSep_app (a b : string) :
  b ≠ "" → path.endsWithSep (a +:+ b) = path.endsWithSep b.
Proof.
  intros Hb. unfold path.endsWithSep, String.rev. rewrite rev_app_app.
  destruct (rev_app_head b Hb) as [c Hc].
  destruct (Hc (String.rev_app a "")) as [t1 ->].
  by destruct (Hc "") as [t2 ->].
Qed.

Lemma endsWithSep_no_sep (b : string) :
  Js.all_chars not_sep b = true → path.endsWithSep b = false.
Proof.
  intros Hb. unfold path.endsWithSep.
  pose proof (all_chars_rev not_sep b) as Hr. rewrite Hb in Hr.
  destruct (String.rev b) as [|c t]; [done|]. simpl in Hr.
  apply andb_prop in Hr as [Hc _]. unfold not_sep in Hc.
  by apply negb_true_iff in Hc.
Qed.

Lemma endsWithSep_join (segs : list string) :
  segs ≠ [] →
  Forall (λ seg, plain_segment seg = true) segs →
  ∀ pre, path.endsWithSep (pre +:+ Js.join "/" segs) = false.
Proof.
  intros Hne Hall. induction Hall as [|x xs Hx Hxs IH]; [done|]. intros pre.
  apply plain_segment_spec in Hx as (Hx1 & _ & _ & Hx4).
  destruct xs as [|y ys].
  - simpl. rewrite endsWithSep_app by done. by apply endsWithSep_no_sep.
  - rewrite join_cons_cons.
    change (String path.SEP (Js.join "/" (y :: ys)))
      with ("/" +:+ Js.join "/" (y :: ys)).
    rewrite <- !string_app_assoc. by apply IH.
Qed.

Lemma join_plain_nonempty (segs : list string) :
  segs ≠ [] →
  Forall (λ seg, plain_segment seg = true) segs →
  Js.join "/" segs ≠ "".
Proof.
  intros Hne Hall. destruct Hall as [|x xs Hx Hxs]; [done|].
  apply plain_segment_spec in Hx as (Hx1 & _).
  destruct x as [|c x]; [done|]. by destruct xs.
Qed.

Lemma plain_all_no_sep (segs : list string) :
  Forall (λ seg, plain_segment seg = true) segs →
  Forall (λ seg, Js.all_chars not_sep seg = true) segs.
Proof.
  intros Hall. eapply Forall_impl; [exact Hall|].
  intros seg H. by apply plain_segment_spec in H as (_ & _ & _ & ?).
Qed.

(** A plain absolute path is its own normal form. *)
Lemma normalize_abs_path (segs : list string) :
  segs ≠ [] →
  Forall (λ seg, plain_segment seg = true) segs →
  path.normalize (abs_path segs) = abs_path segs.
Proof.
  intros Hne Hall. unfold path.normalize, abs_path.
  change ("/" +:+ Js.join "/" segs) with (String path.SEP (Js.join "/" segs)).
  rewrite bool_decide_eq_false_2 by done.
  change (path.isAbsolute (String path.SEP (Js.join "/" segs))) with true.
  change (path.segments (String path.SEP (Js.join "/" segs)))
    with ("" :: path.segments (Js.join "/" segs)).
  rewrite segments_join by (done || by apply plain_all_no_sep).
  change (path.normalizeSegments (negb true) [] ("" :: segs))
    with (path.normalizeSegments false [] segs).
  rewrite normalizeSegments_plain by done.
  change (reverse [] ++ segs) with segs.
  rewrite (bool_decide_eq_false_2 _ (join_plain_nonempty segs Hne Hall)).
  change (String path.SEP (Js.join "/" segs)) with ("/" +:+ Js.join "/" segs).
  by rewrite (endsWithSep_join segs Hne Hall "/").
Qed.

Lemma filter_Boolean_all (l : list string) :
  Forall (λ x, x ≠ "") l → Js.filter_Boolean l = l.
Proof.
  unfold Js.filter_Boolean. induction 1 as [|x xs Hx Hxs IH]; [done|].
  rewrite filter_cons_True by done. by rewrite IH.
Qed.

Lemma path_join_abs_plain (segs names : list string) :
  segs ≠ [] →
  Forall (λ seg, plain_segment seg = true) segs →
  Forall (λ seg, plain_segment seg = true) names →
  path.join (abs_path segs :: names) = abs_path (segs ++ names).
Proof.
  intros Hne Hsegs Hnames. unfold path.join.
  rewrite filter_Boolean_all.
  2:{ constructor; [done|]. eapply Forall_impl; [exact Hnames|].
      intros seg H. by apply plain_segment_spec in H as (? & _). }
  assert (Js.join "/" (abs_path segs :: names) = abs_path (segs ++ names)) as ->.
  { destruct names as [|n ns]; [by rewrite app_nil_r|].
    rewrite join_cons_cons. unfold abs_path.
    rewrite (join_app segs (n :: ns)) by done.
    by rewrite string_app_assoc. }
  rewrite bool_decide_eq_false_2 by done.
  apply normalize_abs_path.
  - by destruct segs.
  - by apply Forall_app.
Qed.

(** ** Where a job keeps its files *)

Lemma route_id_char_spec (c : ascii) :
  route_id_char c = true → c ≠ path.SEP ∧ c ≠ "."%char.
Proof.
  intros H. split; intros ->; by vm_compute in H.
Qed.

Lemma route_id_plain (jobId : string) :
  route_id jobId = true → plain_segment jobId = true.
Proof.
  unfold route_id, plain_segment. intros H. apply andb_prop in H as [Ht Hall].
  rewrite Ht. simpl.
  assert (Js.all_chars not_sep jobId = true) as ->.
  { clear Ht. induction jobId as [|c t IH]; [done|]. simpl in *.
    apply andb_prop in Hall as [Hc Ht]. rewrite (IH Ht), andb_true_r.
    unfold not_sep. apply negb_true_iff, bool_decide_eq_false.
    by apply route_id_char_spec in Hc as [? _]. }
  destruct jobId as [|c t]; [done|]. simpl in Hall.
  apply andb_prop in Hall as [Hc _]. apply route_id_char_spec in Hc as [_ Hdot].
  rewrite !bool_decide_eq_false_2; [done|congruence..].
Qed.

Lemma abs_path_snoc (segs : list string) (name : string) :
  segs ≠ [] → abs_path (segs ++ [name]) = abs_path segs +:+ "/" +:+ name.
Proof.
  intros Hne. unfold abs_path. rewrite join_app by done. simpl.
  by rewrite string_app_assoc.
Qed.

Lemma inside_child (dir name : string) :
  inside dir (dir +:+ "/" +:+ name) = true.
Proof.
  unfold inside. rewrite <- string_app_assoc. apply startsWith_app.
Qed.

(** X11.  For a base directory that is a plain absolute path and a job id
    of lower-case letters and digits, the job directory is the base
    directory followed by the segments ytdlp-ui and the job id, and it
    lies inside the directory that holds the download archive. *)
Theorem job_directory_is_below_base (cfg : Config) (jobId : string)
    (segs : list string) :
  baseDownloadsDir cfg = abs_path segs →
  segs ≠ [] →
  Forall (λ seg, plain_segment seg = true) segs →
  route_id jobId = true →
  job_dir cfg jobId = abs_path (segs ++ ["ytdlp-ui"; jobId]) ∧
  job_dir cfg jobId = baseDownloadsDir cfg +:+ "/ytdlp-ui/" +:+ jobId ∧
  path.join [baseDownloadsDir cfg; "ytdlp-ui"; ".ytdlp-archive.txt"] =
    baseDownloadsDir cfg +:+ "/ytdlp-ui/.ytdlp-archive.txt" ∧
  inside (baseDownloadsDir cfg +:+ "/ytdlp-ui") (job_dir cfg jobId) = true.
Proof.
  intros Hbase Hne Hall Hid. unfold job_dir. rewrite Hbase.
  pose proof (route_id_plain jobId Hid) as Hplain.
  assert (path.join [abs_path segs; "ytdlp-ui"; jobId] =
          abs_path segs +:+ "/ytdlp-ui/" +:+ jobId) as Hdir.
  { rewrite path_join_abs_plain by (done || by repeat constructor).
    change (segs ++ ["ytdlp-ui"; jobId]) with (segs ++ ["ytdlp-ui"] ++ [jobId]).
    rewrite app_assoc, abs_path_snoc by by destruct segs.
    rewrite abs_path_snoc by done. by rewrite !string_app_assoc. }
  split; [by apply path_join_abs_plain; [..|repeat constructor]|].
  split; [done|]. split.
  - rewrite path_join_abs_plain by (done || by repeat constructor).
    change (segs ++ ["ytdlp-ui"; ".ytdlp-archive.txt"])
      with (segs ++ ["ytdlp-ui"] ++ [".ytdlp-archive.txt"]).
    rewrite app_assoc, abs_path_snoc by by destruct segs.
    rewrite abs_path_snoc by done. by rewrite !string_app_assoc.
  - rewrite Hdir.
    replace (abs_path segs +:+ "/ytdlp-ui/" +:+ jobId)
      with ((abs_path segs +:+ "/ytdlp-ui") +:+ "/" +:+ jobId)
      by (by rewrite string_app_assoc).
    apply inside_child.
Qed.

Lemma job_directory_is_below_base_witness :
  (baseDownloadsDir Sample.cfg = abs_path ["home"; "u"; "Downloads"] ∧
   ["home"; "u"; "Downloads"] ≠ [] ∧
   Forall (λ seg, plain_segment seg = true) ["home"; "u"; "Downloads"] ∧
   route_id Sample.jobId = true) ∧
  job_dir Sample.cfg Sample.jobId =
    abs_path (["home"; "u"; "Downloads"] ++ ["ytdlp-ui"; Sample.jobId]).
Proof.
  assert (Forall (λ seg, plain_segment seg = true) ["home"; "u"; "Downloads"])
    as Hall by (repeat constructor).
  assert (["home"; "u"; "Downloads"] ≠ ([] : list string)) as Hne by discriminate.
  split; [split; [reflexivity|split; [assumption|split; [assumption|reflexivity]]]|].
  exact (proj1 (job_directory_is_below_base Sample.cfg Sample.jobId
                  ["home"; "u"; "Downloads"] eq_refl Hne Hall eq_refl)).
Defined.

Lemma safeBasename_plain (rawName : string) :
  safeBasename rawName ≠ "" → safeBasename rawName ≠ "." →
  safeBasename rawName ≠ ".." →
  plain_segment (safeBasename rawName) = true.
Proof.
  intros H1 H2 H3. unfold plain_segment, Js.truthy.
  rewrite !bool_decide_eq_false_2 by done. simpl.
  apply safe_chars_no_sep, safeBasename_no_unsafe_char.
Qed.

(** X12.  For a job whose directory is a plain absolute path and a
    requested name whose sanitised form is neither empty nor the dot nor
    the dot-dot segment, the file route resolves the sanitised name
    directly inside the job directory: it serves that path when it exists
    and answers 404 when it does not. *)
Theorem file_route_stays_inside_for_plain_names (s : Server)
    (jobId rawName : string) (job : Job) (segs : list string) :
  jobs s !! jobId = Some job →
  downloadsDir job = Some (abs_path segs) →
  segs ≠ [] →
  Forall (λ seg, plain_segment seg = true) segs →
  safeBasename rawName ≠ "" →
  safeBasename rawName ≠ "." →
  safeBasename rawName ≠ ".." →
  let fullPath := abs_path segs +:+ "/" +:+ safeBasename rawName in
  inside (abs_path segs) fullPath = true ∧
  handle_file jobId rawName s =
    if existsSync fullPath s
    then {| status := 200; body := FileStream fullPath (safeBasename rawName) |}
    else notFound.
Proof.
  intros Hjob Hdir Hne Hall H1 H2 H3 fullPath. split; [apply inside_child|].
  unfold handle_file. rewrite Hjob, Hdir.
  rewrite (path_join_abs_plain segs [safeBasename rawName]) by
    (done || by repeat constructor; apply safeBasename_plain).
  rewrite abs_path_snoc by done. fold fullPath.
  destruct (existsSync fullPath s); simpl; [|done].
  by rewrite safeBasename_fixed by apply safeBasename_no_unsafe_char.
Qed.

Lemma file_route_stays_inside_for_plain_names_witness :
  let segs := ["home"; "u"; "Downloads"; "ytdlp-ui"; Sample.jobId] in
  (jobs Sample.started !! Sample.jobId = Some started_job ∧
   downloadsDir started_job = Some (abs_path segs) ∧
   segs ≠ [] ∧ Forall (λ seg, plain_segment seg = true) segs ∧
   safeBasename "../../etc/passwd" ≠ "" ∧
   safeBasename "../../etc/passwd" ≠ "." ∧
   safeBasename "../../etc/passwd" ≠ "..") ∧
  inside (abs_path segs)
    (abs_path segs +:+ "/" +:+ safeBasename "../../etc/passwd") = true.
Proof.
  intros segs.
  assert (jobs Sample.started !! Sample.jobId = Some started_job) as Hjob
    by (vm_compute; reflexivity).
  assert (segs ≠ []) as Hne by discriminate.
  assert (Forall (λ seg, plain_segment seg = true) segs) as Hall
    by (repeat constructor).
  assert (safeBasename "../../etc/passwd" ≠ "") as H1 by (vm_compute; discriminate).
  assert (safeBasename "../../etc/passwd" ≠ ".") as H2 by (vm_compute; discriminate).
  assert (safeBasename "../../etc/passwd" ≠ "..") as H3 by (vm_compute; discriminate).
  split; [repeat (split; [first [assumption|reflexivity]|]); assumption|].
  exact (proj1 (file_route_stays_inside_for_plain_names Sample.started
                  Sample.jobId "../../etc/passwd" started_job segs
                  Hjob eq_refl Hne Hall H1 H2 H3)).
Defined.

(** ** The listing and the file route *)

Lemma strip_prefix_Some (pre p r : string) :
  strip_prefix pre p = Some r → p = pre +:+ r.
Proof.
  revert p. induction pre as [|a pre IH]; intros p; simpl.
  - by intros [= ->].
  - destruct p as [|b p]; [done|]. case_bool_decide; [|done]. subst b.
    intros H. apply IH in H. subst p. done.
Qed.

Lemma strip_prefix_app (pre r : string) :
  strip_prefix pre (pre +:+ r) = Some r.
Proof.
  induction pre as [|a pre IH]; [done|].
  change (String a pre +:+ r) with (String a (pre +:+ r)). simpl.
  by rewrite bool_decide_eq_true_2.
Qed.

Lemma readdirSync_entry (dir : string) (s : Server) (entries : list Dirent)
    (e : Dirent) :
  readdirSync dir s = Some entries → e ∈ entries →
  dirent_name e ≠ "" ∧
  Js.includes "/" (dirent_name e) = false ∧
  ∃ node, files s !! (dir +:+ "/" +:+ dirent_name e) = Some node ∧
          dirent_isFile e = match node with FsFile _ => true | FsDir => false end.
Proof.
  unfold readdirSync. destruct (files s !! dir) as [[]|]; [done| |done].
  intros [= <-] He. apply list_elem_of_omap in He as ([p node] & Hin & Hf).
  apply elem_of_map_to_list in Hin.
  destruct (strip_prefix (dir +:+ "/") p) as [name|] eqn:Hstrip; [|done].
  destruct (Js.truthy name && negb (Js.includes "/" name)) eqn:Hok; [|done].
  injection Hf as <-. simpl. apply andb_prop in Hok as [Ht Hi].
  apply strip_prefix_Some in Hstrip. rewrite string_app_assoc in Hstrip. subst p.
  split; [|split].
  - unfold Js.truthy in Ht. by apply negb_true_iff, bool_decide_eq_false in Ht.
  - by apply negb_true_iff in Hi.
  - by exists node.
Qed.

Lemma readdirSync_lists (dir name : string) (node : FsNode) (s : Server) :
  files s !! dir = Some FsDir →
  files s !! (dir +:+ "/" +:+ name) = Some node →
  name ≠ "" → Js.includes "/" name = false →
  ∃ entries, readdirSync dir s = Some entries ∧
    {| dirent_name := name;
       dirent_isFile := match node with FsFile _ => true | FsDir => false end |}
    ∈ entries.
Proof.
  intros Hdir Hnode Hne Hinc. unfold readdirSync. rewrite Hdir.
  eexists. split; [done|]. apply list_elem_of_omap.
  exists (dir +:+ "/" +:+ name, node). split; [by apply elem_of_map_to_list|].
  rewrite <- string_app_assoc, strip_prefix_app.
  unfold Js.truthy. rewrite bool_decide_eq_false_2 by done. by rewrite Hinc.
Qed.

Lemma elem_of_List_filter {A} (f : A → bool) (l : list A) (x : A) :
  x ∈ List.filter f l ↔ x ∈ l ∧ f x = true.
Proof.
  rewrite !list_elem_of_In. apply List.filter_In.
Qed.

(** X13.  The listing of a job is exact: when the job directory exists,
    the names in the answer are the non-empty names without a separator of
    the regular files directly below the job directory, sub-directories are
    left out, and the answer carries one link per name. *)
Theorem listing_is_the_regular_files_below (s : Server) (jobId dir : string)
    (job : Job) :
  jobs s !! jobId = Some job →
  downloadsDir job = Some dir →
  files s !! dir = Some FsDir →
  ∃ names urls,
    handle_files jobId s = json 200 (FilesBody names (Some urls)) ∧
    length urls = length names ∧
    ∀ name, name ∈ names ↔
      name ≠ "" ∧ Js.includes "/" name = false ∧
      ∃ content, files s !! (dir +:+ "/" +:+ name) = Some (FsFile content).
Proof.
  intros Hjob Hdir Hfs. unfold handle_files. rewrite Hjob, Hdir.
  destruct (readdirSync dir s) as [entries|] eqn:Hread.
  2:{ unfold readdirSync in Hread. by rewrite Hfs in Hread. }
  eexists _, _. split; [done|]. split; [by rewrite length_map|].
  intros name. rewrite list_elem_of_fmap. split.
  - intros (e & -> & He). apply elem_of_List_filter in He as [He Hfile].
    destruct (readdirSync_entry dir s entries e Hread He)
      as (Hne & Hinc & node & Hnode & Hkind).
    split; [done|]. split; [done|]. rewrite Hfile in Hkind.
    destruct node as [content|]; [by exists content|done].
  - intros (Hne & Hinc & content & Hnode).
    destruct (readdirSync_lists dir name (FsFile content) s Hfs Hnode Hne Hinc)
      as (entries' & Hread' & Hin).
    rewrite Hread in Hread'. injection Hread' as <-.
    eexists. split; [|apply elem_of_List_filter; split; [exact Hin|done]]. done.
Qed.

Lemma listing_is_the_regular_files_below_witness :
  (jobs Sample.started !! Sample.jobId = Some started_job ∧
   downloadsDir started_job = Some Sample.jobDir ∧
   files Sample.started !! Sample.jobDir = Some FsDir) ∧
  ∃ names urls,
    handle_files Sample.jobId Sample.started = json 200 (FilesBody names (Some urls)) ∧
    length urls = length names.
Proof.
  assert (jobs Sample.started !! Sample.jobId = Some started_job) as Hjob
    by (vm_compute; reflexivity).
  assert (downloadsDir started_job = Some Sample.jobDir) as Hdir
    by (vm_compute; reflexivity).
  assert (files Sample.started !! Sample.jobDir = Some FsDir) as Hfs
    by (vm_compute; reflexivity).
  split; [split; [assumption|split; assumption]|].
  destruct (listing_is_the_regular_files_below Sample.started Sample.jobId
              Sample.jobDir started_job Hjob Hdir Hfs)
    as (names & urls & Hresp & Hlen & _).
  exists names, urls. split; assumption.
Defined.

(** X14.  A listed file can be fetched under its listed name: for a job
    whose directory is a plain absolute path, a name of the listing whose
    characters the sanitiser leaves alone, other than the dot and dot-dot
    segments, is served by the file route from the job directory with that
    name as the attachment name. *)
Theorem listed_file_is_served (s : Server) (jobId name : string) (job : Job)
    (segs names : list string) (urls : option (list string)) :
  jobs s !! jobId = Some job →
  downloadsDir job = Some (abs_path segs) →
  segs ≠ [] →
  Forall (λ seg, plain_segment seg = true) segs →
  handle_files jobId s = json 200 (FilesBody names urls) →
  name ∈ names →
  Js.all_chars (λ c, negb (unsafe_char c)) name = true →
  name ≠ "." → name ≠ ".." →
  handle_file jobId name s =
    {| status := 200;
       body := FileStream (abs_path segs +:+ "/" +:+ name) name |}.
Proof.
  intros Hjob Hdir Hne Hall Hlist Hin Hsafe Hdot Hdotdot.
  unfold handle_files in Hlist. rewrite Hjob, Hdir in Hlist.
  injection Hlist as Hnames _. subst names.
  destruct (readdirSync (abs_path segs) s) as [entries|] eqn:Hread;
    [|by apply elem_of_nil in Hin].
  apply list_elem_of_fmap in Hin as (e & -> & He).
  apply elem_of_List_filter in He as [He _].
  destruct (readdirSync_entry _ s entries e Hread He)
    as (Hnonempty & _ & node & Hnode & _).
  unfold handle_file. rewrite Hjob, Hdir.
  rewrite !safeBasename_fixed by done.
  assert (plain_segment (dirent_name e) = true) as Hplain.
  { unfold plain_segment, Js.truthy. rewrite !bool_decide_eq_false_2 by done.
    simpl. by apply safe_chars_no_sep. }
  rewrite (path_join_abs_plain segs [dirent_name e]) by (done || by repeat constructor).
  rewrite abs_path_snoc by done.
  unfold existsSync. rewrite Hnode. by rewrite bool_decide_eq_true_2.
Qed.

Lemma listed_file_is_served_witness :
  let s := with_output Sample.jobDir "clip.mp4" "data" Sample.started in
  let segs := ["home"; "u"; "Downloads"; "ytdlp-ui"; Sample.jobId] in
  (jobs s !! Sample.jobId = Some started_job ∧
   downloadsDir started_job = Some (abs_path segs) ∧
   segs ≠ [] ∧
   Forall (λ seg, plain_segment seg = true) segs ∧
   handle_files Sample.jobId s =
     json 200 (FilesBody ["clip.mp4"]
                 (Some ["/api/file/ab12cd34ef567890/clip.mp4"])) ∧
   "clip.mp4" ∈ ["clip.mp4"] ∧
   Js.all_chars (λ c, negb (unsafe_char c)) "clip.mp4" = true ∧
   "clip.mp4" ≠ "." ∧ "clip.mp4" ≠ "..") ∧
  handle_file Sample.jobId "clip.mp4" s =
    {| status := 200;
       body := FileStream (abs_path segs +:+ "/" +:+ "clip.mp4") "clip.mp4" |}.
Proof.
  intros s segs.
  assert (jobs s !! Sample.jobId = Some started_job) as Hjob
    by (vm_compute; reflexivity).
  assert (downloadsDir started_job = Some (abs_path segs)) as Hdir
    by (vm_compute; reflexivity).
  assert (segs ≠ []) as Hne by discriminate.
  assert (Forall (λ seg, plain_segment seg = true) segs) as Hall
    by (repeat constructor).
  assert (handle_files Sample.jobId s =
            json 200 (FilesBody ["clip.mp4"]
                        (Some ["/api/file/ab12cd34ef567890/clip.mp4"]))) as Hlist
    by (vm_compute; reflexivity).
  assert ("clip.mp4" ∈ ["clip.mp4"]) as Hin by (left).
  assert (Js.all_chars (λ c, negb (unsafe_char c)) "clip.mp4" = true) as Hsafe
    by (vm_compute; reflexivity).
  assert ("clip.mp4" ≠ ".") as Hdot by discriminate.
  assert ("clip.mp4" ≠ "..") as Hdotdot by discriminate.
  split; [repeat (split; [assumption|]); assumption|].
  exact (listed_file_is_served s Sample.jobId "clip.mp4" started_job segs
           ["clip.mp4"] (Some ["/api/file/ab12cd34ef567890/clip.mp4"])
           Hjob Hdir Hne Hall Hlist Hin Hsafe Hdot Hdotdot).
Defined.

(** ** Creating the job directory *)

Lemma mkdirs_keeps (ds : list string) (m : gmap string FsNode) (q : string)
    (n : FsNode) :
  m !! q = Some n → mkdirs ds m !! q = Some n.
Proof.
  revert m. induction ds as [|d ds IH]; intros m Hq; [done|]. simpl.
  destruct (m !! d) as [[content|]|] eqn:Hd; [done|by apply IH|].
  apply IH. rewrite lookup_insert_ne; [done|]. intros ->. by rewrite Hq in Hd.
Qed.

Lemma mkdirs_creates (ds : list string) (m : gmap string FsNode) :
  (∀ d content, d ∈ ds → m !! d ≠ Some (FsFile content)) →
  ∀ d, d ∈ ds → mkdirs ds m !! d = Some FsDir.
Proof.
  revert m. induction ds as [|d0 ds IH]; intros m Hfree d Hd.
  { by apply elem_of_nil in Hd. }
  simpl. destruct (m !! d0) as [[content|]|] eqn:Hd0.
  - exfalso. eapply (Hfree d0 content); [left|done].
  - apply elem_of_cons in Hd as [-> | Hd].
    + by apply mkdirs_keeps.
    + apply IH; [|done]. intros d' content' Hd'. apply Hfree. by right.
  - apply elem_of_cons in Hd as [-> | Hd].
    + apply mkdirs_keeps. by rewrite lookup_insert_eq.
    + apply IH; [|done]. intros d' content' Hd'.
      destruct (decide (d' = d0)) as [-> | Hneq].
      * by rewrite lookup_insert_eq.
      * rewrite lookup_insert_ne by done. apply Hfree. by right.
Qed.

Lemma mkdirs_only_adds_dirs (ds : list string) (m : gmap string FsNode)
    (q : string) (n : FsNode) :
  mkdirs ds m !! q = Some n → m !! q = Some n ∨ (n = FsDir ∧ q ∈ ds).
Proof.
  revert m. induction ds as [|d ds IH]; intros m Hq; [by left|]. simpl in Hq.
  destruct (m !! d) as [[content|]|] eqn:Hd; [by left| |].
  - apply IH in Hq as [? | [? ?]]; [by left|right; split; [done|by right]].
  - apply IH in Hq as [Hq | [? ?]]; [|right; split; [done|by right]].
    destruct (decide (q = d)) as [-> | Hneq].
    + rewrite lookup_insert_eq in Hq. injection Hq as <-. right. split; [done|left].
    + rewrite lookup_insert_ne in Hq by done. by left.
Qed.

Lemma prefixes_app (root : string) (a b : list string) :
  a ≠ [] →
  prefixes root (a ++ b) =
    prefixes root a ++ prefixes (root +:+ Js.join "/" a +:+ "/") b.
Proof.
  revert root. induction a as [|x xs IH]; intros root Hne; [done|].
  change (prefixes root ((x :: xs) ++ b))
    with ((root +:+ x) :: prefixes (root +:+ x +:+ "/") (xs ++ b)).
  change (prefixes root (x :: xs))
    with ((root +:+ x) :: prefixes (root +:+ x +:+ "/") xs).
  rewrite <- app_comm_cons. f_equal.
  destruct xs as [|y ys]; [done|].
  rewrite (IH (root +:+ x +:+ "/")) by done. do 2 f_equal.
  rewrite join_cons_cons.
  change (String path.SEP (Js.join "/" (y :: ys))) with ("/" +:+ Js.join "/" (y :: ys)).
  by rewrite !string_app_assoc.
Qed.

Lemma prefixes_last (root : string) (segs : list string) :
  segs ≠ [] → root +:+ Js.join "/" segs ∈ prefixes root segs.
Proof.
  revert root. induction segs as [|x xs IH]; intros root Hne; [done|].
  destruct xs as [|y ys]; [left|].
  change (prefixes root (x :: y :: ys))
    with ((root +:+ x) :: prefixes (root +:+ x +:+ "/") (y :: ys)).
  right. rewrite join_cons_cons.
  change (String path.SEP (Js.join "/" (y :: ys))) with ("/" +:+ Js.join "/" (y :: ys)).
  replace (root +:+ x +:+ "/" +:+ Js.join "/" (y :: ys))
    with ((root +:+ x +:+ "/") +:+ Js.join "/" (y :: ys))
    by (by rewrite !string_app_assoc).
  by apply IH.
Qed.

Lemma ancestors_abs_path (segs : list string) :
  segs ≠ [] →
  Forall (λ seg, plain_segment seg = true) segs →
  ancestors (abs_path segs) = prefixes "/" segs.
Proof.
  intros Hne Hall. unfold ancestors, abs_path.
  change ("/" +:+ Js.join "/" segs) with (String path.SEP (Js.join "/" segs)).
  cbn [path.isAbsolute]. rewrite bool_decide_eq_true_2 by done.
  change (path.segments (String path.SEP (Js.join "/" segs)))
    with ("" :: path.segments (Js.join "/" segs)).
  rewrite segments_join by (done || by apply plain_all_no_sep).
  unfold Js.filter_Boolean. rewrite filter_cons_False by (intros H; by apply H).
  f_equal. apply filter_Boolean_all. eapply Forall_impl; [exact Hall|].
  intros seg H. by apply plain_segment_spec in H as (? & _).
Qed.

Lemma ancestors_prefix (a b : list string) :
  a ≠ [] →
  Forall (λ seg, plain_segment seg = true) (a ++ b) →
  abs_path a ∈ ancestors (abs_path (a ++ b)).
Proof.
  intros Hne Hall.
  rewrite ancestors_abs_path by (done || by destruct a).
  rewrite prefixes_app by done. apply elem_of_app. left.
  by apply prefixes_last.
Qed.

(** X15.  Making the job directory never touches what is already there:
    every node of the file system before the call is the same node after
    it, and whatever the call adds is a directory on the way to the
    requested path. *)
Theorem mkdir_keeps_existing_nodes (p : string) (s : Server) (q : string) :
  (∀ node, files s !! q = Some node →
           files (mkdirSync_recursive p s) !! q = Some node) ∧
  (∀ node, files (mkdirSync_recursive p s) !! q = Some node →
           files s !! q = Some node ∨ (node = FsDir ∧ q ∈ ancestors p)).
Proof.
  split; intros node H.
  - by apply mkdirs_keeps.
  - by apply mkdirs_only_adds_dirs.
Qed.



(** ** The job map only grows *)

Lemma registered_jobAppend (jobId line : string) (s : Server) (j : string) :
  registered s j → registered (jobAppend jobId line s) j.
Proof.
  unfold registered. rewrite jobs_jobAppend.
  destruct (jobs s !! jobId) as [job0|]; [|done].
  rewrite lookup_insert. by case_decide.
Qed.

Lemma registered_append_all (jobId : string) (ls : list string) (s : Server)
    (j : string) :
  registered s j → registered (foldl (λ st line, jobAppend jobId line st) s ls) j.
Proof.
  revert s. induction ls as [|x ls IH]; intros s Hr; simpl; [done|].
  by apply IH, registered_jobAppend.
Qed.

Lemma registered_jobDone (jobId : string) (code : Z) (s : Server) (j : string) :
  registered s j → registered (jobDone jobId code s) j.
Proof.
  unfold registered. rewrite jobs_jobDone.
  destruct (jobs s !! jobId) as [job0|]; [|done].
  rewrite lookup_insert. by case_decide.
Qed.

Lemma registered_alter (f : Job → Job) (jobId : string) (s : Server) (j : string) :
  registered s j → registered (with_jobs (alter f jobId) s) j.
Proof.
  unfold registered. simpl. rewrite lookup_alter. case_decide; [|done].
  subst j. intros [job ->]. by eexists.
Qed.

Lemma registered_unlinkSync_quiet (p : option string) (s : Server) (j : string) :
  registered (unlinkSync_quiet p s) j ↔ registered s j.
Proof. by destruct p. Qed.

Lemma registered_launch (cfg : Config) (env : DownloadEnv) (jobId jobDir : string)
    (count : nat) (tmp : option string) (args : list string) (s : Server)
    (j : string) :
  registered s j → registered (launch cfg env jobId jobDir count tmp args s).1.1 j.
Proof.
  intros Hr. unfold launch. destruct (env_spawn env); simpl; [|done].
  apply registered_jobDone, registered_jobAppend.
  by apply registered_unlinkSync_quiet.
Qed.

Lemma registered_check (cfg : Config) (env : DownloadEnv) (req : DownloadRequest)
    (count : nat) (tmp : option string) (args : list string) (s : Server)
    (j : string) :
  registered s j →
  registered (check_cookies_and_launch cfg env req count tmp args s).1.1 j.
Proof.
  intros Hr. unfold check_cookies_and_launch.
  repeat case_match; simpl; first [ by apply registered_launch | done ].
Qed.

Lemma registered_create_job (cfg : Config) (env : DownloadEnv) (s : Server)
    (j : string) :
  registered s j ∨ j = env_jobId env → registered (create_job cfg env s) j.
Proof.
  unfold registered. rewrite jobs_create_job, lookup_insert.
  case_decide; [done|]. by intros [? | ?].
Qed.

Lemma registered_handle_download (cfg : Config) (env : DownloadEnv)
    (raw : RequestBody) (s : Server) (j : string) :
  registered s j → registered (handle_download cfg env raw s).1.1 j.
Proof.
  intros Hr. destruct raw as [| |req]; simpl; [done..|].
  case_match; [done|].
  assert (registered (create_job cfg env s) j) as Hc
    by (apply registered_create_job; by left).
  case_match.
  - case_match; [done|]. by apply registered_check.
  - by apply registered_check.
Qed.

Lemma new_child_is_registered (cfg : Config) (env : DownloadEnv)
    (raw : RequestBody) (s : Server) :
  children (handle_download cfg env raw s).1.1 = children s ∨
  registered (handle_download cfg env raw s).1.1 (env_jobId env).
Proof.
  destruct raw as [| |req]; simpl; [by left..|].
  case_match; [by left|]. right.
  assert (registered (create_job cfg env s) (env_jobId env)) as Hc
    by (apply registered_create_job; by right).
  case_match.
  - case_match; [done|]. by apply registered_check.
  - by apply registered_check.
Qed.

Lemma registered_handle_events (jobId : string) (s : Server) (j : string) :
  registered s j → registered (handle_events jobId s).1 j.
Proof.
  intros Hr. destruct (jobs s !! jobId) as [job|] eqn:Hjob;
    [|by rewrite handle_events_unknown].
  destruct (done job) as [code|] eqn:Hdone.
  - destruct (handle_events_terminal s jobId job code Hjob Hdone) as (_ & Hjobs & _).
    unfold registered. by rewrite Hjobs.
  - destruct (handle_events_running s jobId job Hjob Hdone) as (_ & Hjobs & _).
    unfold registered. rewrite Hjobs, lookup_insert. by case_decide.
Qed.

Lemma registered_step (cfg : Config) (s : Server) (e : Event) (j : string) :
  registered s j → registered (step cfg s e) j.
Proof.
  intros Hr.
  destruct e as [env raw|jobId|jobId res|pid chunk|pid code msg|pid code]; simpl.
  - by apply registered_handle_download.
  - by apply registered_handle_events.
  - by apply registered_alter.
  - destruct (children s !! pid) as [ch|]; [|done]. by apply registered_append_all.
  - destruct (children s !! pid) as [ch|]; [|done]. unfold onError.
    by apply registered_jobDone, registered_jobAppend, registered_unlinkSync_quiet.
  - destruct (children s !! pid) as [ch|]; [|done]. unfold onClose.
    by apply registered_jobDone, registered_unlinkSync_quiet.
Qed.

Lemma children_step (cfg : Config) (s : Server) (e : Event) (ch : Child) :
  ch ∈ children (step cfg s e) →
  ch ∈ children s ∨ registered (step cfg s e) (child_jobId ch).
Proof.
  destruct e as [env raw|jobId|jobId res|pid chunk|pid code msg|pid code]; simpl.
  - intros Hin. destruct (new_child_is_registered cfg env raw s) as [Hsame | Hreg].
    + left. by rewrite <- Hsame.
    + apply children_handle_download in Hin as [? | ->]; [by left|by right].
  - rewrite children_handle_events. by left.
  - by left.
  - destruct (children s !! pid) as [c|]; [|by left].
    unfold onData. rewrite children_append_all. by left.
  - destruct (children s !! pid) as [c|]; [|by left]. unfold onError.
    rewrite children_jobDone, children_jobAppend.
    destruct (child_tmpListPath c); by left.
  - destruct (children s !! pid) as [c|]; [|by left]. unfold onClose.
    rewrite children_jobDone. destruct (child_tmpListPath c); by left.
Qed.

Lemma children_known_step (cfg : Config) (s : Server) (e : Event) :
  children_known s → children_known (step cfg s e).
Proof.
  intros Hk ch Hin. apply children_step in Hin as [Hin | Hreg]; [|done].
  by apply registered_step, Hk.
Qed.

(** X17.  The server never forgets a job: an id that is a key of the job
    map stays one through every later request and child event, so the map
    only grows while the process lives. *)
Theorem job_is_never_removed (cfg : Config) (s : Server) (j : string)
    (later : list Event) :
  registered s j → registered (run cfg s later) j.
Proof.
  revert s. induction later as [|e es IH]; intros s Hr; simpl; [done|].
  by apply IH, registered_step.
Qed.

Lemma job_is_never_removed_witness :
  registered Sample.started Sample.jobId ∧
  registered (run Sample.cfg Sample.started
                [ChildClose 0 (Some 0%Z); RequestClose Sample.jobId 0])
             Sample.jobId.
Proof.
  assert (registered Sample.started Sample.jobId) as Hr
    by (exists started_job; vm_compute; reflexivity).
  split; [assumption|].
  exact (job_is_never_removed Sample.cfg Sample.started Sample.jobId
           [ChildClose 0 (Some 0%Z); RequestClose Sample.jobId 0] Hr).
Defined.

(** X18.  In every state the server reaches from its initial state, each
    handler installed on a child belongs to a job that is in the map: the
    output, error and close events of a child always find their job. *)
Theorem child_events_find_their_job (cfg : Config) (es : list Event) :
  children_known (run cfg initial es).
Proof.
  assert (∀ s, children_known s → children_known (run cfg s es)) as Hrun.
  { induction es as [|e es IH]; intros s Hk; simpl; [done|].
    by apply IH, children_known_step. }
  apply Hrun. intros ch Hin. by apply elem_of_nil in Hin.
Qed.

(** ** The videos of the list route *)

Lemma list_entries_app (parse : string → option ListEntry) (a b : list string) :
  list_entries parse (a ++ b) = list_entries parse a ++ list_entries parse b.
Proof. unfold list_entries. apply flat_map_app. Qed.

Lemma list_stdout_feed (parse : string → option ListEntry) (chunks : list string) :
  foldl (list_stdout parse) ([], "") chunks =
  (list_entries parse (list_feed chunks).1, (list_feed chunks).2).
Proof.
  induction chunks as [|c chunks IH] using rev_ind; [done|].
  unfold list_feed. rewrite !foldl_snoc. fold (list_feed chunks). rewrite IH.
  destruct (list_feed chunks) as [done_lines buffer].
  unfold list_stdout. cbn [fst snd].
  destruct (list_onData buffer c) as [ls buffer']. cbn [fst snd].
  by rewrite list_entries_app.
Qed.

Lemma list_videos_whole_text (parse : string → option ListEntry)
    (chunks : list string) :
  list_videos parse chunks =
  list_entries parse (removelast (Js.split_lines (text_of chunks))).
Proof.
  unfold list_videos. by rewrite list_stdout_feed, list_feed_whole_text.
Qed.

(** X19.  The videos of the list route depend on the text the child wrote
    and not on how the text was cut into chunks. *)
Theorem listed_videos_depend_only_on_text (parse : string → option ListEntry)
    (chunks1 chunks2 : list string) :
  text_of chunks1 = text_of chunks2 →
  list_videos parse chunks1 = list_videos parse chunks2.
Proof.
  intros Htext. by rewrite !list_videos_whole_text, Htext.
Qed.

Lemma listed_videos_depend_only_on_text_witness :
  let nl := String Js.LF "" in
  text_of ["dQw4w9"; "WgXcQ" +:+ nl] = text_of ["dQw4w9WgXcQ" +:+ nl] ∧
  list_videos id_per_line ["dQw4w9"; "WgXcQ" +:+ nl] =
  list_videos id_per_line ["dQw4w9WgXcQ" +:+ nl].
Proof.
  intros nl. split; [reflexivity|].
  exact (listed_videos_depend_only_on_text id_per_line
           ["dQw4w9"; "WgXcQ" +:+ nl] ["dQw4w9WgXcQ" +:+ nl] eq_refl).
Defined.

(** X20.  Every video of the list route carries an id of eleven characters
    of the id alphabet and the watch address of that id, whatever the
    child wrote and whatever the parser made of it. *)
Theorem listed_videos_are_valid (parse : string → option ListEntry)
    (chunks : list string) :
  Forall (λ v, isValidYtId (VString (video_id v)) = true ∧
               String.length (video_id v) = 11 ∧
               video_url v = "https://www.youtube.com/watch?v=" +:+ video_id v)
         (list_videos parse chunks).
Proof.
  rewrite list_videos_whole_text.
  induction (removelast (Js.split_lines (text_of chunks))) as [|line ls IH];
    [constructor|].
  change (line :: ls) with ([line] ++ ls). rewrite list_entries_app.
  apply Forall_app. split; [|done]. unfold list_entries. simpl.
  destruct (Js.truthy (Js.trim line)); simpl; [|constructor].
  destruct (parse (Js.trim line)) as [obj|]; [|constructor].
  destruct (isValidYtId (entry_id obj)) eqn:Hvalid; simpl; [|constructor].
  constructor; [|constructor]. simpl.
  destruct (entry_id obj) as [id|]; [|done]. simpl. split; [done|]. split; [|done].
  simpl in Hvalid. apply andb_prop in Hvalid as [Hlen _].
  by apply bool_decide_eq_true in Hlen.
Qed.

Lemma split_lines_no_line_feed (t : string) :
  no_line_feed t = true → Js.split_lines t = [t].
Proof.
  induction t as [|c t IH]; [done|]. unfold no_line_feed in *.
  intros H. simpl in H. apply andb_prop in H as [Hc Ht].
  apply negb_true_iff, bool_decide_eq_false in Hc.
  rewrite split_lines_keep; [by rewrite (IH Ht)|done|].
  intros _ rest' ->. by simpl in Ht.
Qed.

Lemma pieces_no_line_feed (t : string) :
  Forall (λ p, no_line_feed p = true) (Js.split_lines t).
Proof.
  induction t as [|c t IH]; [by repeat constructor|].
  destruct (terminator_cases c t) as [-> | [[-> [t' ->]] | [Hlf Hcr]]].
  - rewrite split_lines_LF. by constructor.
  - rewrite split_lines_CRLF. rewrite split_lines_LF in IH.
    constructor; [done|]. by apply Forall_inv_tail in IH.
  - rewrite split_lines_keep by done. unfold prepend.
    assert (∀ l, no_line_feed l = true → no_line_feed (String c l) = true) as Hcons.
    { intros l Hl. unfold no_line_feed in *. simpl.
      by rewrite Hl, bool_decide_eq_false_2. }
    destruct (Js.split_lines t) as [|l ls];
      [constructor; [by apply Hcons|constructor]|].
    apply Forall_cons in IH as [Hl Hls]. constructor; [by apply Hcons|done].
Qed.

Lemma held_no_line_feed (t : string) :
  no_line_feed (held (Js.split_lines t)) = true.
Proof.
  unfold held. destruct (last (Js.split_lines t)) as [l|] eqn:Hlast; [|done].
  simpl. pose proof (pieces_no_line_feed t) as Hall.
  rewrite Forall_forall in Hall. apply Hall.
  apply last_Some in Hlast as [l' ->]. apply elem_of_app. right. by left.
Qed.

(** X21.  Text after the last line feed is never listed: a final chunk
    without a line feed adds no video, so an entry the child did not
    terminate is left out of the answer. *)
Theorem unterminated_tail_is_not_listed (parse : string → option ListEntry)
    (chunks : list string) (tail : string) :
  no_line_feed tail = true →
  list_videos parse (chunks ++ [tail]) = list_videos parse chunks.
Proof.
  intros Htail. rewrite !list_videos_whole_text, text_of_snoc, split_lines_app.
  rewrite (split_lines_no_line_feed (held _ +:+ tail)).
  - by rewrite removelast_last.
  - unfold no_line_feed. rewrite all_chars_app.
    fold (no_line_feed (held (Js.split_lines (text_of chunks)))).
    fold (no_line_feed tail). by rewrite held_no_line_feed, Htail.
Qed.

Lemma unterminated_tail_is_not_listed_witness :
  no_line_feed "dQw4w9WgXcQ" = true ∧
  list_videos id_per_line [String Js.LF ""; "dQw4w9WgXcQ"] = [].
Proof.
  split; [reflexivity|].
  exact (unterminated_tail_is_not_listed id_per_line [String Js.LF ""]
           "dQw4w9WgXcQ" eq_refl).
Defined.

(** ** The size limit of a request body *)

Lemma readBody_from_chunks {U} (data : list U) (chunks : list (list U)) :
  (Z.of_nat (length data) ≤ BODY_LIMIT)%Z →
  readBody_from data (map ReqData chunks ++ [ReqEnd]) =
    if (Z.of_nat (length (data ++ concat chunks)) <=? BODY_LIMIT)%Z
    then BodyResolved (data ++ concat chunks)
    else BodyRejected "Request too large".
Proof.
  revert data. induction chunks as [|chunk chunks IH]; intros data Hdata.
  - simpl. rewrite app_nil_r. by rewrite (proj2 (Z.leb_le _ _) Hdata).
  - cbn [map app readBody_from concat].
    destruct (BODY_LIMIT <? Z.of_nat (length (data ++ chunk)))%Z eqn:Hover.
    + apply Z.ltb_lt in Hover.
      rewrite (proj2 (Z.leb_gt _ _)); [done|].
      rewrite !length_app in *. lia.
    + apply Z.ltb_ge in Hover. rewrite (IH _ Hover). by rewrite <- !app_assoc.
Qed.

Lemma readBody_from_over {U} (data : list U) (chunks : list (list U))
    (rest : list (ReqEvent U)) :
  (Z.of_nat (length data) ≤ BODY_LIMIT)%Z →
  (BODY_LIMIT < Z.of_nat (length (data ++ concat chunks)))%Z →
  readBody_from data (map ReqData chunks ++ rest) =
    BodyRejected "Request too large".
Proof.
  revert data. induction chunks as [|chunk chunks IH]; intros data Hdata Hover.
  - simpl in Hover. rewrite app_nil_r in Hover. lia.
  - cbn [map app readBody_from concat] in *.
    destruct (BODY_LIMIT <? Z.of_nat (length (data ++ chunk)))%Z eqn:Hnow; [done|].
    apply Z.ltb_ge in Hnow. apply IH; [done|]. by rewrite <- app_assoc.
Qed.

(** X22.  A request body whose stream ends is accepted exactly when the
    whole text has at most ten million code units, and is then the chunks
    put together; a longer one is rejected as too large, however it was
    cut into chunks, and nothing that arrives after the limit was crossed
    changes that. *)
Theorem body_is_accepted_up_to_the_limit {U} (chunks : list (list U)) :
  readBody (map ReqData chunks ++ [ReqEnd]) =
    (if (Z.of_nat (length (concat chunks)) <=? 10000000)%Z
     then BodyResolved (concat chunks)
     else BodyRejected "Request too large") ∧
  ∀ rest, (10000000 < Z.of_nat (length (concat chunks)))%Z →
          readBody (map ReqData chunks ++ rest) = BodyRejected "Request too large".
Proof.
  split.
  - unfold readBody. by rewrite readBody_from_chunks.
  - intros rest Hover. unfold readBody. by apply readBody_from_over.
Qed.

(** ** The port the server ends up on *)

Lemma tryListen_serving (listen : Z → ListenOutcome) (attemptsLeft : nat)
    (port p : Z) :
  tryListen listen attemptsLeft port = Serving p ↔
  (port ≤ p ≤ port + Z.of_nat attemptsLeft)%Z ∧
  listen p = Listening ∧
  ∀ q, (port ≤ q < p)%Z → listen q = ListenError "EADDRINUSE".
Proof.
  revert port. induction attemptsLeft as [|n IH]; intros port;
    cbn [tryListen]; destruct (listen port) as [|code] eqn:Hport.
  - split.
    + intros [= <-]. split; [lia|]. split; [done|]. intros q Hq. lia.
    + intros (Hrange & Hp & Hbusy). assert (p = port) as -> by lia. done.
  - assert (p = port → listen p ≠ Listening) as Hno by (intros ->; congruence).
    split.
    + by case_bool_decide.
    + intros (Hrange & Hp & Hbusy). assert (p = port) as Heq by lia.
      by destruct (Hno Heq).
  - split.
    + intros [= <-]. split; [lia|]. split; [done|]. intros q Hq. lia.
    + intros (Hrange & Hp & Hbusy).
      destruct (decide (p = port)) as [-> | Hne]; [done|].
      rewrite (Hbusy port) in Hport by lia. done.
  - case_bool_decide as Hcode.
    + subst code. rewrite IH. split.
      * intros (Hrange & Hp & Hbusy). split; [lia|]. split; [done|].
        intros q Hq. destruct (decide (q = port)) as [-> | Hne]; [done|].
        apply Hbusy. lia.
      * intros (Hrange & Hp & Hbusy).
        assert (p ≠ port) as Hne by (intros ->; congruence).
        split; [lia|]. split; [done|]. intros q Hq. apply Hbusy. lia.
    + split; [done|]. intros (Hrange & Hp & Hbusy).
      destruct (decide (p = port)) as [-> | Hne]; [congruence|].
      rewrite (Hbusy port) in Hport by lia. congruence.
Qed.

(** X23.  The server run directly ends up serving on a port exactly when
    that port is the first of the sixteen ports from the configured one
    that accepts the listener while every port before it answers that the
    address is in use. *)
Theorem startup_serves_on_first_free_port (listen : Z → ListenOutcome)
    (port p : Z) :
  startup listen port = Serving p ↔
  (port ≤ p ≤ port + 15)%Z ∧
  listen p = Listening ∧
  ∀ q, (port ≤ q < p)%Z → listen q = ListenError "EADDRINUSE".
Proof. unfold startup. by rewrite tryListen_serving. Qed.

(** ** The list of qualities *)

Lemma existsb_Qeq (h : Q) (hs : list Q) :
  existsb (Qeq_bool h) hs = true ↔ has_height h hs.
Proof.
  unfold has_height. rewrite existsb_exists, Exists_exists. split.
  - intros (x & Hin & Heq). exists x. split; [by apply list_elem_of_In|].
    apply Qeq_bool_iff in Heq. by symmetry.
  - intros (x & Hin & Heq). exists x. split; [by apply list_elem_of_In|].
    apply Qeq_bool_iff. by symmetry.
Qed.

Lemma has_height_proper (q q' : Q) (hs : list Q) :
  (q == q')%Q → has_height q hs → has_height q' hs.
Proof.
  intros Heq. unfold has_height. rewrite !Exists_exists.
  intros (x & Hin & Hx). exists x. split; [done|]. by rewrite Hx.
Qed.

Lemma StronglySorted_snoc {A} (R : A → A → Prop) (l : list A) (x : A) :
  StronglySorted R l → Forall (λ a, R a x) l → StronglySorted R (l ++ [x]).
Proof.
  induction 1 as [|a l Hl IH Ha]; intros Hx; simpl.
  - by repeat constructor.
  - apply Forall_cons in Hx as [Hax Hlx]. constructor; [by apply IH|].
    apply Forall_app. split; [done|]. by constructor.
Qed.

Lemma has_height_heights_add (q h : Q) (hs : list Q) :
  has_height q (heights_add h hs) ↔ has_height q hs ∨ (h == q)%Q.
Proof.
  unfold heights_add. destruct (existsb (Qeq_bool h) hs) eqn:Hseen.
  - split; [by left|]. intros [? | Heq]; [done|].
    apply existsb_Qeq in Hseen. by apply (has_height_proper h q).
  - unfold has_height. rewrite Exists_app, Exists_cons, Exists_nil. tauto.
Qed.

Lemma distinct_heights_add (h : Q) (hs : list Q) :
  distinct hs → distinct (heights_add h hs).
Proof.
  intros Hd. unfold heights_add. destruct (existsb (Qeq_bool h) hs) eqn:Hseen; [done|].
  apply StronglySorted_snoc; [done|]. apply Forall_forall. intros a Ha Heq.
  assert (existsb (Qeq_bool h) hs = true) as Hyes; [|congruence].
  apply existsb_Qeq, Exists_exists. by exists a.
Qed.

Lemma positive_test (h : Q) : negb (Qle_bool h 0) = true ↔ (0 < h)%Q.
Proof.
  rewrite negb_true_iff. split.
  - intros Hle. apply Qnot_le_lt. intros H. apply Qle_bool_iff in H. congruence.
  - intros Hlt. destruct (Qle_bool h 0) eqn:Hle; [|done].
    apply Qle_bool_iff in Hle. by destruct (Qlt_not_le _ _ Hlt).
Qed.

Lemma collect_distinct (formats : list (option JsNumber)) (hs : list Q) :
  distinct hs → distinct (foldl add_height hs formats).
Proof.
  revert hs. induction formats as [|f formats IH]; intros hs Hd; [done|].
  simpl. apply IH. unfold add_height.
  destruct f as [[| |h]|]; try done.
  destruct (negb (Qle_bool h 0)); [by apply distinct_heights_add|done].
Qed.

Lemma collect_has_height (formats : list (option JsNumber)) (hs : list Q) (q : Q) :
  has_height q (foldl add_height hs formats) ↔
  has_height q hs ∨
  ((0 < q)%Q ∧ ∃ h, Some (Finite h) ∈ formats ∧ (h == q)%Q).
Proof.
  revert hs. induction formats as [|f formats IH]; intros hs.
  - simpl. split; [by left|]. intros [? | (_ & h & Hin & _)]; [done|].
    by apply elem_of_nil in Hin.
  - simpl. rewrite IH. clear IH.
    assert (has_height q (add_height hs f) ↔
            has_height q hs ∨
            ((0 < q)%Q ∧ ∃ h, f = Some (Finite h) ∧ (h == q)%Q)) as ->.
    { unfold add_height. destruct f as [[| |h]|];
        try (split; [by left|]; by intros [? | (_ & h' & ? & _)]).
      destruct (negb (Qle_bool h 0)) eqn:Hpos.
      - apply positive_test in Hpos. rewrite has_height_heights_add. split.
        + intros [? | Heq]; [by left|]. right. split; [by rewrite <- Heq|by eauto].
        + intros [? | (_ & h' & [= <-] & Heq)]; [by left|by right].
      - split; [by left|]. intros [? | (Hq & h' & [= <-] & Heq)]; [done|].
        rewrite <- Heq in Hq. apply positive_test in Hq. congruence. }
    split.
    + intros [[? | (Hq & h & -> & Heq)] | (Hq & h & Hin & Heq)].
      * by left.
      * right. split; [done|]. exists h. split; [left|done].
      * right. split; [done|]. exists h. split; [by right|done].
    + intros [? | (Hq & h & Hin & Heq)]; [by left; left|].
      apply elem_of_cons in Hin as [<- | Hin].
      * left. right. by eauto.
      * right. by eauto.
Qed.

Lemma insert_desc_perm (x : Q) (xs : list Q) : insert_desc x xs ≡ₚ x :: xs.
Proof.
  induction xs as [|y xs IH]; [done|]. simpl.
  destruct (Qle_bool y x); [done|]. rewrite IH. apply Permutation_swap.
Qed.

Lemma sort_desc_perm (xs : list Q) : sort_desc xs ≡ₚ xs.
Proof.
  induction xs as [|x xs IH]; [done|].
  change (sort_desc (x :: xs)) with (insert_desc x (sort_desc xs)).
  by rewrite insert_desc_perm, IH.
Qed.

Lemma insert_descending (x : Q) (xs : list Q) :
  descending xs → Forall (λ y, ¬ (x == y)%Q) xs → descending (insert_desc x xs).
Proof.
  unfold descending. induction 1 as [|y xs Hxs IH Hy]; intros Hne; simpl.
  - by repeat constructor.
  - apply Forall_cons in Hne as [Hxy Hne].
    destruct (Qle_bool y x) eqn:Hle.
    + apply Qle_bool_iff in Hle.
      assert (y < x)%Q as Hlt.
      { apply Qle_lteq in Hle as [? | Heq]; [done|]. destruct Hxy. by symmetry. }
      constructor; [by constructor|]. constructor; [done|].
      eapply Forall_impl; [exact Hy|]. intros z Hz. simpl in *.
      by apply (Qlt_trans _ y).
    + assert (x < y)%Q as Hlt.
      { apply Qnot_le_lt. intros H. apply Qle_bool_iff in H. congruence. }
      constructor; [by apply IH|].
      rewrite insert_desc_perm. by constructor.
Qed.

Lemma sort_descending (xs : list Q) : distinct xs → descending (sort_desc xs).
Proof.
  unfold distinct. induction 1 as [|x xs Hxs IH Hx]; [constructor|].
  change (sort_desc (x :: xs)) with (insert_desc x (sort_desc xs)).
  apply insert_descending; [done|]. by rewrite sort_desc_perm.
Qed.

(** X24.  The qualities offered for a video are its positive finite
    heights, each one once, the largest first: the list is strictly
    descending, every member is positive, and a number is a member exactly
    when it is positive and the height of one of the formats. *)
Theorem qualities_are_the_distinct_heights_descending
    (formats : list (option JsNumber)) :
  descending (extractQualitiesFromYtDlpInfo formats) ∧
  Forall (λ q, (0 < q)%Q) (extractQualitiesFromYtDlpInfo formats) ∧
  ∀ q, has_height q (extractQualitiesFromYtDlpInfo formats) ↔
       (0 < q)%Q ∧ ∃ h, Some (Finite h) ∈ formats ∧ (h == q)%Q.
Proof.
  unfold extractQualitiesFromYtDlpInfo.
  assert (∀ q, has_height q (sort_desc (foldl add_height [] formats)) ↔
               (0 < q)%Q ∧ ∃ h, Some (Finite h) ∈ formats ∧ (h == q)%Q) as Hmem.
  { intros q. unfold has_height. rewrite sort_desc_perm.
    fold (has_height q (foldl add_height [] formats)).
    rewrite collect_has_height. unfold has_height. rewrite Exists_nil. tauto. }
  split; [|split; [|done]].
  - apply sort_descending, collect_distinct. constructor.
  - apply Forall_forall. intros q Hq.
    apply (Hmem q), Exists_exists. by exists q.
Qed.

(** ** The command line *)

Lemma startsWith_slice (p a : string) :
  Js.startsWith p a = true → a = p +:+ slice (String.length p) a.
Proof.
  revert a. induction p as [|c p IH]; intros a; [done|].
  destruct a as [|b a]; [done|]. simpl. intros H.
  apply andb_prop in H as [Hc Hp]. apply bool_decide_eq_true in Hc. subst b.
  change (String c p +:+ slice (String.length p) a)
    with (String c (p +:+ slice (String.length p) a)).
  by rewrite <- IH.
Qed.

Lemma parse_loop_asked_for (Number : string → JsNumber) (args0 : list string)
    (n : nat) (args : list string) (out : Opts) :
  length args ≤ n →
  (∀ x, x ∈ args → x ∈ args0) →
  asked_for Number args0 out →
  asked_for Number args0 (parse_loop Number args out).
Proof.
  revert args out. induction n as [|n IH]; intros args out Hlen Hsub Hout.
  { destruct args; [done|simpl in Hlen; lia]. }
  destruct args as [|a rest]; [done|].
  assert (a ∈ args0) as Ha by (apply Hsub; left).
  assert (∀ x, x ∈ rest → x ∈ args0) as Hrest by (intros x Hx; apply Hsub; by right).
  assert (length rest ≤ n) as Hlen' by (simpl in Hlen; lia).
  destruct Hout as (Hhelp & Hopen & Hhost & Hport).
  cbn [parse_loop].
  destruct (bool_decide (a = "--help") || bool_decide (a = "-h")) eqn:Hh.
  { apply IH; [done..|]. repeat split; try done. intros _.
    apply orb_prop in Hh as [Hh | Hh]; apply bool_decide_eq_true in Hh; subst a;
      [by left|by right]. }
  destruct (bool_decide (a = "--no-open")) eqn:Hno.
  { apply IH; [done..|]. repeat split; try done. intros b [= <-].
    apply bool_decide_eq_true in Hno. by subst a. }
  destruct (bool_decide (a = "--open")) eqn:Hyes.
  { apply IH; [done..|]. repeat split; try done. intros b [= <-].
    apply bool_decide_eq_true in Hyes. by subst a. }
  destruct (bool_decide (a = "--host")) eqn:Hhostflag.
  { destruct rest as [|v rest'].
    - repeat split; try done.
    - apply IH.
      + simpl in Hlen'. lia.
      + intros x Hx. apply Hrest. by right.
      + repeat split; try done. intros h [= <-]. left. apply Hrest. left. }
  destruct (Js.startsWith "--host=" a) eqn:Hhosteq.
  { apply IH; [done..|]. repeat split; try done. intros h [= <-]. right.
    apply startsWith_slice in Hhosteq.
    change (String.length "--host=") with 7 in Hhosteq.
    rewrite Hhosteq in Ha. exact Ha. }
  destruct (bool_decide (a = "--port")) eqn:Hportflag.
  { destruct rest as [|v rest'].
    - repeat split; try done. intros p [= <-]. by left.
    - apply IH.
      + simpl in Hlen'. lia.
      + intros x Hx. apply Hrest. by right.
      + repeat split; try done. intros p [= <-]. right. exists v.
        split; [done|]. left. apply Hrest. left. }
  destruct (Js.startsWith "--port=" a) eqn:Hporteq.
  { apply IH; [done..|]. repeat split; try done. intros p [= <-]. right.
    exists (slice 7 a). split; [done|]. right.
    apply startsWith_slice in Hporteq.
    change (String.length "--port=") with 7 in Hporteq.
    rewrite Hporteq in Ha. exact Ha. }
  by apply IH.
Qed.

(** X25.  The options read from the command line contain only what the
    arguments after the first two ask for: help only when one of its two
    spellings is there, the open flag only with the value of a spelling
    that is there, a host only when it is an argument or follows the host
    option and an equals sign inside one, and a port only when it is the
    number of such a text; a port is never NaN. *)
Theorem parseArgs_sets_only_what_was_asked (Number : string → JsNumber)
    (argv : list string) :
  let out := parseArgs Number argv in
  let args := drop 2 argv in
  (opt_help out = true → "--help" ∈ args ∨ "-h" ∈ args) ∧
  (∀ b, opt_open out = Some b →
        (if b : bool then "--open" else "--no-open") ∈ args) ∧
  (∀ h, opt_host out = Some h → h ∈ args ∨ "--host=" +:+ h ∈ args) ∧
  (∀ p, opt_port out = Some p →
        p ≠ NaN ∧ ∃ v, p = Number v ∧ (v ∈ args ∨ "--port=" +:+ v ∈ args)).
Proof.
  intros out args.
  assert (asked_for Number args (parse_loop Number args no_opts)) as Hloop.
  { apply (parse_loop_asked_for Number args (length args)); [done..|].
    repeat split; done. }
  destruct Hloop as (Hhelp & Hopen & Hhost & Hport).
  unfold out, parseArgs. fold args.
  destruct (opt_port (parse_loop Number args no_opts)) as [[|negative|q]|] eqn:Hp;
    simpl; (split; [done|]; split; [done|]; split; [done|]);
    try rewrite Hp; intros p [= <-].
  - split; [done|]. by destruct (Hport (Infinity negative) eq_refl) as [? | ?].
  - split; [done|]. by destruct (Hport (Finite q) eq_refl) as [? | ?].
Qed.

(** ** What the server does to the file system *)

Lemma files_handle_events (jobId : string) (s : Server) :
  files (handle_events jobId s).1 = files s.
Proof.
  unfold handle_events. destruct (jobs s !! jobId) as [job|]; [|done].
  destruct (done job); simpl;
    by rewrite (foldl_preserves _ files); [|intros; reflexivity].
Qed.

Lemma files_append_all (jobId : string) (ls : list string) (s : Server) :
  files (foldl (λ st line, jobAppend jobId line st) s ls) = files s.
Proof.
  revert s. induction ls as [|x ls IH]; intros s; simpl; [done|].
  by rewrite IH, files_jobAppend.
Qed.

Section foreign_files.
Variable cfg : Config.
Variable ids : string → Prop.
Variable p : string.
Variable node : FsNode.
Hypothesis Hforeign : foreign cfg ids p.

Lemma kept_unlink (s : Server) (t : option string) :
  (∀ t', t = Some t' → ∃ jobId, ids jobId ∧ t' = tmp_list_path cfg jobId) →
  files s !! p = Some node → files (unlinkSync_quiet t s) !! p = Some node.
Proof.
  intros Ht Hfile. destruct t as [t'|]; [|done].
  simpl. rewrite lookup_delete_ne; [done|].
  destruct (Ht t' eq_refl) as (jobId & Hid & ->). intros Heq.
  by apply (Hforeign jobId).
Qed.

Lemma kept_launch (env : DownloadEnv) (jobId jobDir : string) (count : nat)
    (tmp : option string) (args : list string) (s : Server) :
  (∀ t', tmp = Some t' → ∃ j, ids j ∧ t' = tmp_list_path cfg j) →
  files s !! p = Some node →
  files (launch cfg env jobId jobDir count tmp args s).1.1 !! p = Some node.
Proof.
  intros Htmp Hk. unfold launch. destruct (env_spawn env); simpl; [|done].
  rewrite files_jobDone, files_jobAppend. by apply kept_unlink.
Qed.

Lemma kept_check (env : DownloadEnv) (req : DownloadRequest) (count : nat)
    (tmp : option string) (args : list string) (s : Server) :
  (∀ t', tmp = Some t' → ∃ j, ids j ∧ t' = tmp_list_path cfg j) →
  files s !! p = Some node →
  files (check_cookies_and_launch cfg env req count tmp args s).1.1 !! p
    = Some node.
Proof.
  intros Htmp Hk. unfold check_cookies_and_launch.
  repeat case_match; simpl; first [ by apply kept_launch | done ].
Qed.

Lemma kept_handle_download (env : DownloadEnv) (raw : RequestBody) (s : Server) :
  ids (env_jobId env) →
  files s !! p = Some node →
  files (handle_download cfg env raw s).1.1 !! p = Some node.
Proof.
  intros Hid Hk. destruct raw as [| |req]; simpl; [done..|].
  case_match; [done|].
  assert (files (create_job cfg env s) !! p = Some node) as Hc.
  { unfold create_job. simpl. by apply mkdirs_keeps. }
  case_match.
  - case_match; [done|]. apply kept_check; [by intros t' [= <-]; eauto|].
    simpl. rewrite lookup_insert_ne; [done|].
    intros Heq. by apply (Hforeign (env_jobId env)).
  - by apply kept_check.
Qed.

Lemma kept_step (s : Server) (e : Event) :
  draws_from ids e → own_tmp cfg ids s →
  files s !! p = Some node → files (step cfg s e) !! p = Some node.
Proof.
  intros Hid Hown Hk.
  destruct e as [env raw|jobId|jobId res|pid chunk|pid code msg|pid code]; simpl.
  - by apply kept_handle_download.
  - by rewrite files_handle_events.
  - done.
  - destruct (children s !! pid) as [ch|]; [|done]. unfold onData.
    by rewrite files_append_all.
  - destruct (children s !! pid) as [ch|] eqn:Hch; [|done]. unfold onError.
    rewrite files_jobDone, files_jobAppend. apply kept_unlink; [|done].
    intros t' Ht. eapply Hown; [|done]. by eapply list_elem_of_lookup_2.
  - destruct (children s !! pid) as [ch|] eqn:Hch; [|done]. unfold onClose.
    rewrite files_jobDone. apply kept_unlink; [|done].
    intros t' Ht. eapply Hown; [|done]. by eapply list_elem_of_lookup_2.
Qed.

End foreign_files.

Lemma tmp_of_launch (cfg : Config) (env : DownloadEnv) (jobId jobDir : string)
    (count : nat) (tmp : option string) (args : list string) (s : Server)
    (ch : Child) :
  ch ∈ children (launch cfg env jobId jobDir count tmp args s).1.1 →
  ch ∈ children s ∨ child_tmpListPath ch = tmp.
Proof.
  unfold launch. destruct (env_spawn env); simpl.
  - rewrite children_jobDone, children_jobAppend.
    destruct tmp; simpl; by left.
  - rewrite elem_of_app, list_elem_of_singleton. intros [? | ->]; [by left|by right].
Qed.

Lemma tmp_of_handle_download (cfg : Config) (env : DownloadEnv)
    (raw : RequestBody) (s : Server) (ch : Child) :
  ch ∈ children (handle_download cfg env raw s).1.1 →
  ch ∈ children s ∨ child_tmpListPath ch = None ∨
  child_tmpListPath ch = Some (tmp_list_path cfg (env_jobId env)).
Proof.
  destruct raw as [| |req]; simpl; [by left..|].
  case_match; [by left|].
  assert (∀ count tmp args s1,
            children s1 = children s →
            ch ∈ children
                   (check_cookies_and_launch cfg env req count tmp args s1).1.1 →
            ch ∈ children s ∨ child_tmpListPath ch = tmp) as Hcheck.
  { intros count tmp args s1 Hs1. unfold check_cookies_and_launch.
    repeat case_match; simpl; rewrite <- ?Hs1;
      first [ apply tmp_of_launch | by left ]. }
  case_match.
  - case_match; [by left|]. intros Hin.
    apply Hcheck in Hin as [? | ?]; [by left|by right; right|done].
  - intros Hin. apply Hcheck in Hin as [? | ?]; [by left|by right; left|done].
Qed.

Lemma own_tmp_step (cfg : Config) (ids : string → Prop) (s : Server) (e : Event) :
  draws_from ids e → own_tmp cfg ids s → own_tmp cfg ids (step cfg s e).
Proof.
  intros Hid Hown.
  destruct e as [env raw|jobId|jobId res|pid chunk|pid code msg|pid code]; simpl.
  - intros ch t Hin Ht.
    apply tmp_of_handle_download in Hin as [Hin | [Hnone | Hsome]].
    + by eapply Hown.
    + congruence.
    + exists (env_jobId env). split; [done|congruence].
  - unfold own_tmp. by rewrite children_handle_events.
  - done.
  - destruct (children s !! pid) as [ch|]; [|done].
    unfold own_tmp, onData. by rewrite children_append_all.
  - destruct (children s !! pid) as [ch|]; [|done]. unfold own_tmp, onError.
    rewrite children_jobDone, children_jobAppend.
    by destruct (child_tmpListPath ch).
  - destruct (children s !! pid) as [ch|]; [|done]. unfold own_tmp, onClose.
    rewrite children_jobDone. by destruct (child_tmpListPath ch).
Qed.

Lemma own_tmp_run (cfg : Config) (ids : string → Prop) (es : list Event)
    (s : Server) :
  Forall (draws_from ids) es → own_tmp cfg ids s → own_tmp cfg ids (run cfg s es).
Proof.
  intros Hes. revert s. induction Hes as [|e es He Hes IH]; intros s Hown;
    simpl; [done|].
  by apply IH, own_tmp_step.
Qed.

Lemma own_tmp_initial (cfg : Config) (ids : string → Prop) :
  own_tmp cfg ids initial.
Proof. intros ch t Hin. by apply elem_of_nil in Hin. Qed.



(** ** Logs without empty lines *)

Lemma trim_solid_head (c : ascii) (s : string) :
  solid c = true → Js.trim (String c s) ≠ "".
Proof.
  intros Hc. unfold Js.trim. rewrite trimStart_solid by done.
  cbn [Js.trimEnd]. by rewrite all_space_solid.
Qed.

Lemma launch_failure_line_nonempty (cfg : Config) (message : string) :
  launch_failure_line cfg message ≠ "".
Proof.
  unfold launch_failure_line.
  set (rest := ytDlpCommand cfg +:+ "). Set YTDLP_BIN to full path. " +:+ message).
  change ("Failed to start yt-dlp (" +:+ rest)
    with (String "F" ("ailed to start yt-dlp (" +:+ rest)).
  by apply trim_solid_head.
Qed.

Lemma push_capped_Forall (P : string → Prop) (l : list string) (line : string) :
  Forall P l → P line → Forall P (push_capped l line).
Proof.
  intros Hl Hline. unfold push_capped.
  assert (Forall P (l ++ [line])) as Hall
    by (apply Forall_app; split; [done|by constructor]).
  destruct (LOG_CAP <? length (l ++ [line])); [by apply Forall_drop|done].
Qed.

Lemma no_empty_jobAppend (jobId line : string) (s : Server) :
  line ≠ "" → no_empty_line s → no_empty_line (jobAppend jobId line s).
Proof.
  intros Hline Hs j job. rewrite jobs_jobAppend.
  destruct (jobs s !! jobId) as [job0|] eqn:Hjob; [|by apply Hs].
  rewrite lookup_insert. case_decide; [|by apply Hs].
  intros [= <-]. simpl. apply push_capped_Forall; [by apply (Hs jobId)|done].
Qed.

Lemma no_empty_append_all (jobId : string) (ls : list string) (s : Server) :
  Forall (λ line, line ≠ "") ls →
  no_empty_line s →
  no_empty_line (foldl (λ st line, jobAppend jobId line st) s ls).
Proof.
  intros Hls. revert s. induction Hls as [|x ls Hx Hls IH]; intros s Hs; simpl;
    [done|].
  by apply IH, no_empty_jobAppend.
Qed.

Lemma no_empty_jobDone (jobId : string) (code : Z) (s : Server) :
  no_empty_line s → no_empty_line (jobDone jobId code s).
Proof.
  intros Hs j job. rewrite jobs_jobDone.
  destruct (jobs s !! jobId) as [job0|] eqn:Hjob; [|by apply Hs].
  rewrite lookup_insert. case_decide; [|by apply Hs].
  intros [= <-]. simpl. by apply (Hs jobId).
Qed.

Lemma no_empty_same_jobs (s s' : Server) :
  jobs s' = jobs s → no_empty_line s → no_empty_line s'.
Proof. intros Hj. unfold no_empty_line. by rewrite Hj. Qed.

Lemma no_empty_alter (f : Job → Job) (jobId : string) (s : Server) :
  (∀ job, lines (f job) = lines job) →
  no_empty_line s → no_empty_line (with_jobs (alter f jobId) s).
Proof.
  intros Hf Hs j job. simpl. rewrite lookup_alter. case_decide; [|by apply Hs].
  subst j. destruct (jobs s !! jobId) as [job0|] eqn:Hjob; [|done].
  intros [= <-]. rewrite Hf. by apply (Hs jobId).
Qed.

Lemma no_empty_handle_events (jobId : string) (s : Server) :
  no_empty_line s → no_empty_line (handle_events jobId s).1.
Proof.
  intros Hs.
  destruct (jobs s !! jobId) as [job|] eqn:Hjob;
    [|by rewrite handle_events_unknown].
  destruct (done job) as [code|] eqn:Hdone.
  - destruct (handle_events_terminal s jobId job code Hjob Hdone)
      as (_ & Hjobs & _).
    by apply (no_empty_same_jobs s).
  - destruct (handle_events_running s jobId job Hjob Hdone) as (_ & Hjobs & _).
    intros j job'. rewrite Hjobs, lookup_insert. case_decide; [|by apply Hs].
    intros [= <-]. simpl. by apply (Hs jobId).
Qed.

Lemma no_empty_launch (cfg : Config) (env : DownloadEnv) (jobId jobDir : string)
    (count : nat) (tmp : option string) (args : list string) (s : Server) :
  no_empty_line s →
  no_empty_line (launch cfg env jobId jobDir count tmp args s).1.1.
Proof.
  intros Hs. unfold launch. destruct (env_spawn env); simpl; [|done].
  apply no_empty_jobDone, no_empty_jobAppend;
    [apply launch_failure_line_nonempty|by destruct tmp].
Qed.

Lemma no_empty_check (cfg : Config) (env : DownloadEnv) (req : DownloadRequest)
    (count : nat) (tmp : option string) (args : list string) (s : Server) :
  no_empty_line s →
  no_empty_line (check_cookies_and_launch cfg env req count tmp args s).1.1.
Proof.
  intros Hs. unfold check_cookies_and_launch.
  repeat case_match; simpl; first [ by apply no_empty_launch | done ].
Qed.

Lemma no_empty_handle_download (cfg : Config) (env : DownloadEnv)
    (raw : RequestBody) (s : Server) :
  no_empty_line s → no_empty_line (handle_download cfg env raw s).1.1.
Proof.
  intros Hs. destruct raw as [| |req]; simpl; [done..|].
  case_match; [done|].
  assert (no_empty_line (create_job cfg env s)) as Hc.
  { intros j job. rewrite jobs_create_job, lookup_insert.
    case_decide; [|by apply Hs]. intros [= <-]. constructor. }
  case_match.
  - case_match; [done|]. by apply no_empty_check.
  - by apply no_empty_check.
Qed.

Lemma filter_Boolean_nonempty (l : list string) :
  Forall (λ line, line ≠ "") (Js.filter_Boolean l).
Proof.
  apply Forall_forall. intros x Hx. unfold Js.filter_Boolean in Hx.
  by apply list_elem_of_filter in Hx as [? _].
Qed.

Lemma no_empty_step (cfg : Config) (s : Server) (e : Event) :
  no_empty_line s → no_empty_line (step cfg s e).
Proof.
  intros Hs.
  destruct e as [env raw|jobId|jobId res|pid chunk|pid code msg|pid code]; simpl.
  - by apply no_empty_handle_download.
  - by apply no_empty_handle_events.
  - by apply no_empty_alter.
  - destruct (children s !! pid); [|done].
    apply no_empty_append_all; [apply filter_Boolean_nonempty|done].
  - destruct (children s !! pid) as [ch|]; [|done]. unfold onError.
    apply no_empty_jobDone, no_empty_jobAppend.
    + change ("yt-dlp spawn error: " +:+ code +:+ " " +:+ msg)
        with (String "y" ("t-dlp spawn error: " +:+ code +:+ " " +:+ msg)).
      by apply trim_solid_head.
    + by destruct (child_tmpListPath ch).
  - destruct (children s !! pid) as [ch|]; [|done]. unfold onClose.
    apply no_empty_jobDone. by destruct (child_tmpListPath ch).
Qed.

(** X27.  No job log ever holds an empty line: in every state the server
    reaches from its initial state, each retained line of each job has at
    least one character. *)
Theorem logs_have_no_empty_line (cfg : Config) (es : list Event)
    (j : string) (job : Job) :
  jobs (run cfg initial es) !! j = Some job →
  Forall (λ line, line ≠ "") (lines job).
Proof.
  assert (∀ s, no_empty_line s → no_empty_line (run cfg s es)) as Hrun.
  { induction es as [|e es IH]; intros s Hs; simpl; [done|].
    by apply IH, no_empty_step. }
  apply Hrun. intros j' job'. simpl. by rewrite lookup_empty.
Qed.

Lemma logs_have_no_empty_line_witness :
  let es := [PostDownload (Sample.env SpawnReturns)
               (BodyJson Sample.video_only_720);
             ChildData 0 (String Js.LF (String Js.LF "50%"))] in
  jobs (run Sample.cfg initial es) !! Sample.jobId =
    Some (set_lines ["50%"] started_job) ∧
  Forall (λ line, line ≠ "") (lines (set_lines ["50%"] started_job)).
Proof.
  intros es.
  assert (jobs (run Sample.cfg initial es) !! Sample.jobId =
            Some (set_lines ["50%"] started_job)) as Hjob
    by (vm_compute; reflexivity).
  split; [assumption|].
  exact (logs_have_no_empty_line Sample.cfg es Sample.jobId
           (set_lines ["50%"] started_job) Hjob).
Defined.

(** ** The temporary id list *)

Lemma all_chars_impl (P Q : ascii → bool) (s : string) :
  (∀ c, P c = true → Q c = true) →
  Js.all_chars P s = true → Js.all_chars Q s = true.
Proof.
  intros HPQ. induction s as [|c s IH]; simpl; [done|]. intros H.
  apply andb_prop in H as [Hc Hs]. by rewrite (HPQ c Hc), (IH Hs).
Qed.

Lemma yt_id_char_no_line_break (c : ascii) :
  yt_id_char c = true →
  negb (bool_decide (c = Js.LF)) && negb (bool_decide (c = Js.CR)) = true.
Proof.
  intros H. apply andb_true_intro.
  split; apply negb_true_iff, bool_decide_eq_false; intros ->; by vm_compute in H.
Qed.

Lemma url_no_line_break (v : JsValue) :
  isValidYtId v = true → no_line_break (buildVideoUrlFromId (id_text v)) = true.
Proof.
  destruct v as [id|]; [|done]. simpl. intros H. apply andb_prop in H as [_ Hid].
  unfold no_line_break, buildVideoUrlFromId. rewrite all_chars_app.
  apply andb_true_intro. split; [by vm_compute|].
  revert Hid. apply all_chars_impl, yt_id_char_no_line_break.
Qed.

Lemma split_lines_line (l rest : string) :
  no_line_break l = true →
  Js.split_lines (l +:+ String Js.LF rest) = l :: Js.split_lines rest.
Proof.
  unfold no_line_break. induction l as [|c l IH]; intros H; [done|].
  simpl in H. apply andb_prop in H as [Hc Hl]. apply andb_prop in Hc as [Hlf Hcr].
  apply negb_true_iff, bool_decide_eq_false in Hlf.
  apply negb_true_iff, bool_decide_eq_false in Hcr.
  change (String c l +:+ String Js.LF rest) with (String c (l +:+ String Js.LF rest)).
  rewrite split_lines_keep by done. by rewrite (IH Hl).
Qed.

(** X28.  The temporary id list of a bulk download has one line per valid
    id of the request, in the order of the request, each line the watch
    address of its id, and ends with a line feed: split at its line ends it
    is those addresses followed by one empty piece. *)
Theorem id_list_has_one_line_per_valid_id (req : DownloadRequest) :
  is_bulk req = true →
  Js.split_lines (urls_list (validIds_of req)) =
    map (λ v, "https://www.youtube.com/watch?v=" +:+ id_text v) (validIds_of req)
    ++ [""] ∧
  Forall (λ v, isValidYtId v = true) (validIds_of req).
Proof.
  intros Hbulk.
  assert (Forall (λ v, isValidYtId v = true) (validIds_of req)) as Hvalid.
  { apply Forall_forall. intros v Hv. unfold validIds_of in Hv.
    apply list_elem_of_In, List.filter_In in Hv. by destruct Hv. }
  split; [|done]. unfold is_bulk in Hbulk. apply Nat.ltb_lt in Hbulk.
  revert Hbulk Hvalid. generalize (validIds_of req). clear req.
  intros vs Hlen Hvalid. unfold urls_list.
  induction Hvalid as [|v vs Hv Hvs IH]; [simpl in Hlen; lia|].
  fold (buildVideoUrlFromId (id_text v)).
  destruct vs as [|v2 vs].
  - simpl. rewrite split_lines_line by by apply url_no_line_break. done.
  - change (map (λ v, buildVideoUrlFromId (id_text v)) (v :: v2 :: vs))
      with (buildVideoUrlFromId (id_text v)
            :: map (λ v, buildVideoUrlFromId (id_text v)) (v2 :: vs)).
    set (rest := map (λ v, buildVideoUrlFromId (id_text v)) (v2 :: vs)) in *.
    assert (Js.join (String Js.LF "") (buildVideoUrlFromId (id_text v) :: rest) =
            buildVideoUrlFromId (id_text v) +:+
              String Js.LF (Js.join (String Js.LF "") rest)) as -> by done.
    rewrite string_app_assoc.
    change (String Js.LF (Js.join (String Js.LF "") rest) +:+ String Js.LF "")
      with (String Js.LF (Js.join (String Js.LF "") rest +:+ String Js.LF "")).
    rewrite split_lines_line by by apply url_no_line_break.
    rewrite IH by (simpl; lia). done.
Qed.

Lemma id_list_has_one_line_per_valid_id_witness :
  is_bulk (Sample.bulk None) = true ∧
  Js.split_lines (urls_list (validIds_of (Sample.bulk None))) =
    ["https://www.youtube.com/watch?v=f4g1xtyY3uo";
     "https://www.youtube.com/watch?v=gAnS4WTgeIE"; ""].
Proof.
  split; [reflexivity|].
  exact (proj1 (id_list_has_one_line_per_valid_id (Sample.bulk None) eq_refl)).
Defined.

(** ** The directory of an accepted download *)

Lemma string_length_app (a b : string) :
  String.length (a +:+ b) = String.length a + String.length b.
Proof.
  induction a as [|c a IH]; [done|].
  change (String c a +:+ b) with (String c (a +:+ b)). simpl. by rewrite IH.
Qed.

Lemma abs_path_inj (segs1 segs2 : list string) :
  segs1 ≠ [] → segs2 ≠ [] →
  Forall (λ seg, plain_segment seg = true) segs1 →
  Forall (λ seg, plain_segment seg = true) segs2 →
  abs_path segs1 = abs_path segs2 → segs1 = segs2.
Proof.
  intros Hne1 Hne2 Hall1 Hall2 Heq. unfold abs_path in Heq.
  change ("/" +:+ Js.join "/" segs1) with (String path.SEP (Js.join "/" segs1)) in Heq.
  change ("/" +:+ Js.join "/" segs2) with (String path.SEP (Js.join "/" segs2)) in Heq.
  injection Heq as Heq. apply (f_equal path.segments) in Heq.
  by rewrite !segments_join in Heq by (done || by apply plain_all_no_sep).
Qed.

Lemma tmp_name_plain (jobId : string) :
  route_id jobId = true →
  plain_segment ("ytdlp-ui-" +:+ jobId +:+ ".txt") = true.
Proof.
  intros Hid. apply route_id_plain, plain_segment_spec in Hid as (_ & _ & _ & Hsep).
  unfold plain_segment.
  change ("ytdlp-ui-" +:+ jobId +:+ ".txt")
    with (String "y" ("tdlp-ui-" +:+ jobId +:+ ".txt")).
  unfold Js.truthy. rewrite !bool_decide_eq_false_2 by done. simpl.
  change (Js.all_chars not_sep ("tdlp-ui-" +:+ jobId +:+ ".txt") = true).
  rewrite !all_chars_app, Hsep. done.
Qed.

Lemma job_dir_is_not_tmp_list (cfg : Config) (segs tsegs : list string)
    (jobId : string) :
  plain_dirs cfg segs tsegs → route_id jobId = true →
  job_dir cfg jobId ≠ tmp_list_path cfg jobId.
Proof.
  intros (Hbase & Htmp & Hne & Htne & Hall & Htall) Hid.
  unfold job_dir, tmp_list_path. rewrite Hbase, Htmp.
  pose proof (route_id_plain jobId Hid) as Hplain.
  pose proof (tmp_name_plain jobId Hid) as Hname.
  rewrite !path_join_abs_plain by (done || by repeat constructor).
  intros Heq. apply abs_path_inj in Heq.
  - change (segs ++ ["ytdlp-ui"; jobId]) with (segs ++ ["ytdlp-ui"] ++ [jobId]) in Heq.
    rewrite app_assoc in Heq. apply app_inj_tail in Heq as [_ Heq].
    apply (f_equal String.length) in Heq.
    rewrite !string_length_app in Heq. simpl in Heq. lia.
  - by destruct segs.
  - by destruct tsegs.
  - apply Forall_app. split; [done|by repeat constructor].
  - apply Forall_app. split; [done|by repeat constructor].
Qed.



(** ** A url of white space *)

Lemma trimStart_all_space_bounded (n : nat) (s : string) :
  String.length s ≤ n → Js.all_space s = true → Js.trimStart s = "".
Proof.
  revert s. induction n as [|n IH]; intros s Hlen Hall.
  { destruct s; [done|simpl in Hlen; lia]. }
  destruct s as [|a r]; [done|].
  cbn [Js.all_space] in Hall. cbn [Js.trimStart]. simpl in Hlen.
  destruct (Ascii.is_space a); [apply IH; [lia|done]|].
  destruct r as [|b r1]; [done|]. simpl in Hlen.
  destruct (Js.space2 a b); [apply IH; [lia|done]|].
  destruct r1 as [|c r2]; [done|]. simpl in Hlen.
  apply andb_prop in Hall as [H3 Hall]. rewrite H3. apply IH; [lia|done].
Qed.

Lemma trim_all_space (s : string) : Js.all_space s = true → Js.trim s = "".
Proof.
  intros Hall. unfold Js.trim.
  by rewrite (trimStart_all_space_bounded (String.length s) s).
Qed.

(** X30.  A download request without a valid id whose url consists of
    white space only, ASCII or not, is answered 400 with the message
    Missing url; the server is left as it was: no job is made, no
    directory, and no argument list is built. *)
Theorem white_space_url_is_missing (cfg : Config) (env : DownloadEnv)
    (req : DownloadRequest) (s : Server) :
  is_bulk req = false →
  Js.all_space (req_url req) = true →
  handle_download cfg env (BodyJson req) s = (s, badRequest "Missing url", []) ∧
  ¬ has_target req.
Proof.
  intros Hbulk Hall. split.
  - unfold handle_download. fold (validIds_of req). fold (is_bulk req).
    by rewrite Hbulk, trim_all_space.
  - intros [Hb | Hurl]; [congruence|]. by rewrite trim_all_space in Hurl.
Qed.

Lemma white_space_url_is_missing_witness :
  (is_bulk nbsp_request = false ∧ Js.all_space (req_url nbsp_request) = true) ∧
  handle_download Sample.cfg (Sample.env (SpawnThrows "ENOENT"))
    (BodyJson nbsp_request) initial = (initial, badRequest "Missing url", []).
Proof.
  split; [split; reflexivity|].
  exact (proj1 (white_space_url_is_missing Sample.cfg
                  (Sample.env (SpawnThrows "ENOENT")) nbsp_request initial
                  eq_refl eq_refl)).
Defined.
